(** * pouchdb-mapreduce: a shallow embedding of [index.js]

    [src/index.js] holds the module twice: a first revision (lines 1 to
    650) and, after it, a second one (lines 651 to 1678).  The
    specification follows the second revision, the one with the task
    queue, [updateIndexInner], [queryIndexInner], [reduceIndex] and
    [checkQueryParseError]; it is embedded here at top level.  Of the
    first revision, [Module Rev1] holds the [emit] of its updater and its
    [viewQuery].

    External collaborators are not part of the repository and are taken as
    interfaces: the [pouchdb-collate] package ([collate],
    [toIndexableString], [normalizeKey]), the JavaScript host
    ([JSON.stringify], [JSON.parse], [Array.prototype.sort], the
    string-to-number conversion), and the PouchDB databases, which are
    driven through explicit calls answered by the environment.  Two
    modules of the repository are not among the sources: [./evalfunc],
    taken as an interface too, and [./taskqueue], modelled from the
    specification.

    JavaScript numbers are IEEE 754 doubles.  They are embedded as the
    binary64 floating-point numbers of the standard library's
    [SpecFloat], with its addition, multiplication and comparison
    (rounding to nearest, ties to even). *)

From Stdlib Require Import ZArith List String Ascii Bool Lia DecimalString.
From Stdlib Require Import Permutation SpecFloat.
Import ListNotations.

Local Open Scope string_scope.
Local Open Scope Z_scope.

Set Warnings "-register-all".

(** ** Values *)

Definition number : Type := spec_float.

Definition NaN : number := S754_nan.
Definition PInf : number := S754_infinity false.
Definition NInf : number := S754_infinity true.

(** The double of an integer: the integer itself when a double holds
    it, the nearest double otherwise. *)
Definition Fin (z : Z) : number := binary_normalize 53 1024 z 0 false.

Inductive jsval : Type :=
| JUndef
| JNull
| JBool (b : bool)
| JNum (n : number)
| JStr (s : string)
| JArr (elems : list jsval)
| JObj (fields : list (string * jsval))
| JError (name message : string) (status : Z).

(** An abrupt completion: a [TypeError] raised by the host. *)
Inductive completion (A : Type) : Type :=
| Normal (a : A)
| Throw (what : string).
Arguments Normal {A} a.
Arguments Throw {A} what.

Definition jnum (z : Z) : jsval := JNum (Fin z).

Definition num_add (a b : number) : number := SFadd 53 1024 a b.

Definition num_mul (a b : number) : number := SFmul 53 1024 a b.

(** [a === b] on two numbers. *)
Definition num_eq (a b : number) : bool := SFeqb a b.

(** [Math.min] and [Math.max] on two numbers: NaN as soon as one of
    them is, and [-0] below [+0]. *)
Definition num_min (a b : number) : number :=
  match SFcompare a b with
  | None => NaN
  | Some Lt => a
  | Some Gt => b
  | Some Eq => match a with S754_zero true => a | _ => b end
  end.

Definition num_max (a b : number) : number :=
  match SFcompare a b with
  | None => NaN
  | Some Lt => b
  | Some Gt => a
  | Some Eq => match a with S754_zero true => b | _ => a end
  end.

(** *** [Number::toString]

    The digits of a finite double are the shortest decimal numeral that
    rounds to it, the nearest to it when there are several.  The
    positive double [m * 2^e] is the quotient [N / D]; the decimals that
    round to it lie between the two midpoints [lo4 / (4 * D)] and
    [hi4 / (4 * D)], which belong to it when [m] is even. *)
Record rounding : Type := mkRounding {
  r_N : Z;
  r_D : Z;
  r_lo4 : Z;
  r_hi4 : Z;
  r_closed : bool
}.

Definition roundingOf (m : positive) (e : Z) : rounding :=
  let N := if 0 <=? e then Zpos m * 2 ^ e else Zpos m in
  let D := if 0 <=? e then 1 else 2 ^ (- e) in
  let ulp := if 0 <=? e then 2 ^ e else 1 in
  let below :=
    if Pos.eqb m 4503599627370496 && (-1074 <? e) then ulp else 2 * ulp in
  mkRounding N D (4 * N - below) (4 * N + 2 * ulp) (Z.even (Zpos m)).

(** [N / D < 10^n] *)
Definition belowPowerOfTen (r : rounding) (n : Z) : bool :=
  if 0 <=? n then r_N r <? r_D r * 10 ^ n
  else r_N r * 10 ^ (- n) <? r_D r.

Fixpoint magnitudeUp (fuel : nat) (r : rounding) (n : Z) : Z :=
  match fuel with
  | O => n
  | S fuel' =>
      if belowPowerOfTen r n then n else magnitudeUp fuel' r (n + 1)
  end.

Fixpoint magnitudeDown (fuel : nat) (r : rounding) (n : Z) : Z :=
  match fuel with
  | O => n
  | S fuel' =>
      if belowPowerOfTen r (n - 1) then magnitudeDown fuel' r (n - 1) else n
  end.

(** The [n] with [10^(n-1) <= N / D < 10^n], found from the number of
    binary digits. *)
Definition magnitude (m : positive) (e : Z) (r : rounding) : Z :=
  let guess := (Zpos (digits2_pos m) + e) * 30103 / 100000 in
  magnitudeDown 4 r (magnitudeUp 4 r guess).

(** [c * 10^q] rounds to the double. *)
Definition roundsTo (r : rounding) (c q : Z) : bool :=
  let scaled := if 0 <=? q then c * 10 ^ q * (4 * r_D r) else c * (4 * r_D r) in
  let lo := if 0 <=? q then r_lo4 r else r_lo4 r * 10 ^ (- q) in
  let hi := if 0 <=? q then r_hi4 r else r_hi4 r * 10 ^ (- q) in
  if r_closed r then (lo <=? scaled) && (scaled <=? hi)
  else (lo <? scaled) && (scaled <? hi).

(** The numeral of [k] digits nearest to the double, when one rounds
    to it. *)
Definition nearest (r : rounding) (n k : Z) : option Z :=
  let q := n - k in
  let A := if 0 <=? q then r_N r else r_N r * 10 ^ (- q) in
  let B := if 0 <=? q then r_D r * 10 ^ q else r_D r in
  let down := A / B in
  let rest := A mod B in
  let up := down + 1 in
  match roundsTo r down q, roundsTo r up q with
  | true, true =>
      Some (if 2 * rest <? B then down
            else if B <? 2 * rest then up
            else if Z.even down then down else up)
  | true, false => Some down
  | false, true => Some up
  | false, false => None
  end.

Fixpoint shortest (fuel : nat) (r : rounding) (n k : Z) : Z * Z :=
  match fuel with
  | O => (r_N r / r_D r, k)
  | S fuel' =>
      match nearest r n k with
      | Some s => (s, k)
      | None => shortest fuel' r n (k + 1)
      end
  end.

Definition numeral (z : Z) : string := NilZero.string_of_int (Z.to_int z).

Fixpoint zeros (n : nat) : string :=
  match n with
  | O => EmptyString
  | S n' => String "0" (zeros n')
  end.

(** The text for the digits [s], of which there are [k], and the
    exponent [n]: the value is [s * 10^(n-k)]. *)
Definition formatNumber (s k n : Z) : string :=
  let digits := numeral s in
  if (k <=? n) && (n <=? 21) then digits ++ zeros (Z.to_nat (n - k))
  else if (0 <? n) && (n <=? 21) then
    substring 0 (Z.to_nat n) digits ++ "."
    ++ substring (Z.to_nat n) (Z.to_nat (k - n)) digits
  else if (-6 <? n) && (n <=? 0) then
    "0." ++ zeros (Z.to_nat (- n)) ++ digits
  else
    let power :=
      "e" ++ (if 0 <=? n - 1 then "+" else "-") ++ numeral (Z.abs (n - 1)) in
    if k =? 1 then digits ++ power
    else substring 0 1 digits ++ "."
         ++ substring 1 (Z.to_nat (k - 1)) digits ++ power.

Definition positiveToString (m : positive) (e : Z) : string :=
  let r := roundingOf m e in
  let n := magnitude m e r in
  let '(s, k) := shortest 17 r n 1 in
  if s =? 10 ^ k then formatNumber 1 1 (n + 1) else formatNumber s k n.

Definition numberToString (n : number) : string :=
  match n with
  | S754_nan => "NaN"
  | S754_zero _ => "0"
  | S754_infinity false => "Infinity"
  | S754_infinity true => "-Infinity"
  | S754_finite false m e => positiveToString m e
  | S754_finite true m e => "-" ++ positiveToString m e
  end.

(** [ToString]; an array is joined with commas, [null] and [undefined]
    elements giving the empty string. *)
Fixpoint toStr (v : jsval) : string :=
  match v with
  | JUndef => "undefined"
  | JNull => "null"
  | JBool true => "true"
  | JBool false => "false"
  | JNum n => numberToString n
  | JStr s => s
  | JArr l =>
      String.concat ","
        (map (fun e => match e with
                       | JUndef | JNull => EmptyString
                       | _ => toStr e
                       end) l)
  | JObj _ => "[object Object]"
  | JError name message _ =>
      if String.eqb message EmptyString then name else name ++ ": " ++ message
  end.

Definition toPrimitive (v : jsval) : jsval :=
  match v with
  | JArr _ | JObj _ | JError _ _ _ => JStr (toStr v)
  | _ => v
  end.

(** The JavaScript host: the string-to-number conversion, [JSON] and
    [Array.prototype.sort] (whose order on ties is left to the engine). *)
Class Host : Type := {
  StringToNumber : string -> number;
  JSON_stringify : jsval -> string;
  JSON_parse : string -> jsval;
  Array_sort : forall A : Type, (A -> A -> Z) -> list A -> list A
}.

Definition toNumber `{Host} (v : jsval) : number :=
  match toPrimitive v with
  | JUndef => NaN
  | JNull => Fin 0
  | JBool true => Fin 1
  | JBool false => Fin 0
  | JNum n => n
  | JStr s => StringToNumber s
  | _ => NaN
  end.

(** The binary [+]: concatenation as soon as one primitive operand is a
    string, numeric addition otherwise (no string is converted then). *)
Definition jsAdd (a b : jsval) : jsval :=
  let pa := toPrimitive a in
  let pb := toPrimitive b in
  match pa, pb with
  | JStr s, _ => JStr (s ++ toStr pb)
  | _, JStr t => JStr (toStr pa ++ t)
  | _, _ =>
      let n v := match v with
                 | JNull | JBool false => Fin 0
                 | JBool true => Fin 1
                 | JNum k => k
                 | _ => NaN
                 end in
      JNum (num_add (n pa) (n pb))
  end.

Definition truthy (v : jsval) : bool :=
  match v with
  | JUndef | JNull | JBool false | JNum (S754_zero _) | JNum S754_nan
  | JStr EmptyString => false
  | _ => true
  end.

(** Objects are association lists in insertion order. *)
Fixpoint assoc {V : Type} (k : string) (o : list (string * V)) : option V :=
  match o with
  | [] => None
  | (k', v) :: rest => if String.eqb k k' then Some v else assoc k rest
  end.

(** [o[k] = v]: overwrite in place, or append a new property. *)
Fixpoint assoc_set {V : Type} (k : string) (v : V) (o : list (string * V))
  : list (string * V) :=
  match o with
  | [] => [(k, v)]
  | (k', v') :: rest =>
      if String.eqb k k' then (k, v) :: rest
      else (k', v') :: assoc_set k v rest
  end.

Definition keysOf {V : Type} (o : list (string * V)) : list string :=
  map fst o.

(** A property name is an array index when it is the decimal numeral,
    without leading zeros, of an integer from 0 to 2^32 - 2. *)
Definition digitValue (c : ascii) : option Z :=
  let code := Z.of_nat (nat_of_ascii c) in
  if (48 <=? code) && (code <=? 57) then Some (code - 48) else None.

Fixpoint numeralFrom (acc : Z) (s : string) : option Z :=
  match s with
  | EmptyString => Some acc
  | String c rest =>
      match digitValue c with
      | Some d => numeralFrom (10 * acc + d) rest
      | None => None
      end
  end.

Definition arrayIndex (name : string) : option Z :=
  match name with
  | EmptyString => None
  | String c rest =>
      if Ascii.eqb c "0" && negb (String.eqb rest EmptyString) then None
      else match numeralFrom 0 name with
           | Some n => if n <=? 4294967294 then Some n else None
           | None => None
           end
  end.

(** The order in which an object lists its own properties: the array
    indices first, in ascending numeric order, then the other names in
    the order in which they were added. *)
Definition comesBefore (a b : string) : bool :=
  match arrayIndex a, arrayIndex b with
  | Some i, Some j => i <? j
  | Some _, None => true
  | None, _ => false
  end.

Fixpoint insertEntry {V : Type} (e : string * V) (l : list (string * V))
  : list (string * V) :=
  match l with
  | [] => [e]
  | e' :: rest =>
      if comesBefore (fst e') (fst e) then e' :: insertEntry e rest
      else e :: l
  end.

Definition Object_entries {V : Type} (o : list (string * V))
  : list (string * V) :=
  fold_right insertEntry [] o.

(** [Object.keys(o)] *)
Definition Object_keys {V : Type} (o : list (string * V)) : list string :=
  keysOf (Object_entries o).

(** Property read [v.p].  Reading from [undefined] or [null] throws. *)
Definition getProp (v : jsval) (p : string) : completion jsval :=
  match v with
  | JUndef | JNull => Throw "TypeError"
  | JObj fs => Normal (match assoc p fs with Some x => x | None => JUndef end)
  | JError name message status =>
      Normal (if String.eqb p "name" then JStr name
              else if String.eqb p "message" then JStr message
              else if String.eqb p "status" then jnum status
              else JUndef)
  | _ => Normal JUndef
  end.

(** Property write [v.p = x] in strict mode.  A primitive receiver
    throws.  An array or an error object would take the new property;
    the values of this embedding cannot hold it, and such a write is
    given as a throw too (no built-in reducer produces such a receiver). *)
Definition setProp (v : jsval) (p : string) (x : jsval) : completion jsval :=
  match v with
  | JObj fs => Normal (JObj (assoc_set p x fs))
  | _ => Throw "TypeError"
  end.

Definition cbind {A B : Type} (c : completion A) (f : A -> completion B)
  : completion B :=
  match c with
  | Normal a => f a
  | Throw w => Throw w
  end.

Notation "x <~ c ;; k" := (cbind c (fun x => k))
  (at level 61, c at next level, right associativity).

(** ** Built-in reducers *)

Definition sum (values : list jsval) : jsval :=
  fold_left jsAdd values (jnum 0).

Definition invalid_value : jsval :=
  JError "invalid_value"
         "builtin _stats function requires map values to be numbers" 500.

(** The inner [sumsqr] of [_stats]: the loop returns the error object at
    the first value that is not a number. *)
Fixpoint sumsqr_from (acc : number) (values : list jsval) : jsval :=
  match values with
  | [] => JNum acc
  | JNum n :: rest => sumsqr_from (num_add acc (num_mul n n)) rest
  | _ :: _ => invalid_value
  end.

Definition sumsqr (values : list jsval) : jsval := sumsqr_from (Fin 0) values.

Definition Math_min `{Host} (values : list jsval) : number :=
  fold_left (fun acc v => num_min acc (toNumber v)) values PInf.

Definition Math_max `{Host} (values : list jsval) : number :=
  fold_left (fun acc v => num_max acc (toNumber v)) values NInf.

Definition _sum (keys : jsval) (values : list jsval) : completion jsval :=
  Normal (sum values).

Definition _count (keys : jsval) (values : list jsval) : completion jsval :=
  Normal (jnum (Z.of_nat (List.length values))).

(** One turn of the rereduce loop of [_stats]. *)
Definition stats_merge `{Host} (result current : jsval) : completion jsval :=
  rs <~ getProp result "sum" ;;
  cs <~ getProp current "sum" ;;
  r1 <~ setProp result "sum" (jsAdd rs cs) ;;
  rmin <~ getProp r1 "min" ;;
  cmin <~ getProp current "min" ;;
  r2 <~ setProp r1 "min" (JNum (num_min (toNumber rmin) (toNumber cmin))) ;;
  rmax <~ getProp r2 "max" ;;
  cmax <~ getProp current "max" ;;
  r3 <~ setProp r2 "max" (JNum (num_max (toNumber rmax) (toNumber cmax))) ;;
  rc <~ getProp r3 "count" ;;
  cc <~ getProp current "count" ;;
  r4 <~ setProp r3 "count" (jsAdd rc cc) ;;
  rq <~ getProp r4 "sumsqr" ;;
  cq <~ getProp current "sumsqr" ;;
  setProp r4 "sumsqr" (sumsqr [rq; cq]).

Fixpoint stats_rereduce `{Host} (result : jsval) (rest : list jsval)
  : completion jsval :=
  match rest with
  | [] => Normal result
  | current :: rest' =>
      r <~ stats_merge result current ;;
      stats_rereduce r rest'
  end.

Definition _stats `{Host} (keys : jsval) (values : list jsval)
  (rereduce : bool) : completion jsval :=
  if rereduce then
    match values with
    | [] => Normal JUndef
    | first :: rest => stats_rereduce first rest
    end
  else
    Normal (JObj [ ("sum", sum values);
                   ("min", JNum (Math_min values));
                   ("max", JNum (Math_max values));
                   ("count", jnum (Z.of_nat (List.length values)));
                   ("sumsqr", sumsqr values) ]).

Definition reducer : Type := jsval -> list jsval -> bool -> completion jsval.

(** [builtInReduce[name]] *)
Definition builtInReduce `{Host} (name : string) : option reducer :=
  if String.eqb name "_sum" then Some (fun k v _ => _sum k v)
  else if String.eqb name "_count" then Some (fun k v _ => _count k v)
  else if String.eqb name "_stats" then Some _stats
  else None.

(** ** External interfaces *)

(** The [pouchdb-collate] package. *)
Class Collate : Type := {
  collate : jsval -> jsval -> Z;
  toIndexableString : jsval -> string;
  normalizeKey : jsval -> jsval
}.

(** [./evalfunc], which is not among the sources, applied to the source
    of a user reduce function; the function it gives is taken as it
    comes.  (The user's map function is a call to the outside, [CallMap]
    below, answered with the sequence of its [emit] calls.) *)
Class Evaluator : Type := {
  evalReduce : string -> reducer
}.

(** A source document: its [_id] and the whole object handed to [map]. *)
Record document : Type := mkDocument {
  doc_id : string;
  doc_body : jsval
}.

(** A record of the changes feed; [ch_deleted] is ['deleted' in doc]. *)
Record change : Type := mkChange {
  ch_id : string;
  ch_seq : Z;
  ch_deleted : bool;
  ch_doc : document
}.

(** A view row.  The key/value objects built by [emit] and stored in the
    index carry [id], [key], [value] and possibly [reduceOutput]; query
    results may add [doc]; reduced rows carry [key] and [value] only. *)
Record row : Type := mkRow {
  row_id : option string;
  row_key : jsval;
  row_value : jsval;
  row_reduceOutput : option jsval;
  row_doc : option jsval
}.

(** Documents of the secondary database, as passed to [bulkDocs]. *)
Inductive storeDoc : Type :=
| KvDoc (_id : string) (value : row) (_deleted : bool)
| MetaDoc (_id : string) (keys : list string)
| LastSeqDoc (_id : string) (seq : Z).

Record indexOpts : Type := mkIndexOpts {
  io_startkey : option string;
  io_endkey : option string;
  io_descending : bool;
  io_limit : option nat;
  io_skip : option nat;
  io_include_docs : bool
}.

Record viewDef : Type := mkViewDef {
  vd_map : string;
  vd_reduce : option string
}.

Record result : Type := mkResult {
  total_rows : option Z;
  offset : option nat;
  rows : list row
}.

(** Query options.  [None] is an absent (or [undefined]) option; the
    boolean options hold the truth value the code tests; [opt_reduce] is
    [Some false] exactly when [options.reduce === false]; [limit] and
    [skip] are natural numbers when present. *)
Record options : Type := mkOptions {
  opt_startkey : option jsval;
  opt_endkey : option jsval;
  opt_key : option jsval;
  opt_keys : option (list jsval);
  opt_descending : bool;
  opt_limit : option nat;
  opt_skip : option nat;
  opt_include_docs : bool;
  opt_reduce : option bool;
  opt_group : bool;
  opt_group_level : bool;
  opt_stale : option string
}.

(** What the caller of [query] gets: the callback is called with a
    result, with an error, or never (an uncaught exception, or a
    completion that is never signalled). *)
Inductive outcome : Type :=
| Success (r : result)
| Failure (err : jsval)
| NoAnswer.

(** Calls to the outside: the source database, the secondary databases
    (named by their PouchDB name), the remote end and the user's map
    function.  Each call is answered by the environment. *)
Inductive op : Type :=
| SourceInfo
| SourceGet (id : jsval)
| SourceGetDesign (id : string)
| SourceChanges (since : Z)
| NewPouchDB (name adapter : string)
| IndexGetLastSeq (db : string)
| IndexGetMeta (db docId : string)
| IndexAllDocsKeys (db : string) (keys : list string)
| IndexAllDocs (db : string) (opts : indexOpts)
| IndexBulkDocs (db : string) (docs : list storeDoc)
| CallMap (src : string) (doc : jsval)
| HttpQuery.

(** The answer to each call.  [inl err], or [Some err] where the callback
    has no other argument, is an answer with the error argument set (to
    a truthy value); any other answer has it unset.  A design document
    is read as its [views] object, [None] when it has none. *)
Definition resp (o : op) : Type :=
  match o with
  | SourceInfo => (jsval + string)%type
  | SourceGet _ => (jsval + jsval)%type
  | SourceGetDesign _ => (jsval + option (list (string * viewDef)))%type
  | SourceChanges _ => list change
  | NewPouchDB _ _ => option jsval
  | IndexGetLastSeq _ => (jsval + Z)%type
  | IndexGetMeta _ _ => (jsval + list string)%type
  | IndexAllDocsKeys _ _ => (jsval + list (option (string * row)))%type
  | IndexAllDocs _ _ => (jsval + (Z * list row))%type
  | IndexBulkDocs _ _ => option jsval
  | CallMap _ _ => list (jsval * jsval)
  | HttpQuery => outcome
  end.

(** Programs: a return value, or a call with its callback. *)
Inductive prog (A : Type) : Type :=
| Ret (a : A)
| Call (o : op) (k : resp o -> prog A).
Arguments Ret {A} a.
Arguments Call {A} o k.

Fixpoint bind {A B : Type} (p : prog A) (f : A -> prog B) : prog B :=
  match p with
  | Ret a => f a
  | Call o k => Call o (fun r => bind (k r) f)
  end.

Notation "x <- p ;; q" := (bind p (fun x => q))
  (at level 61, p at next level, right associativity).

Definition call (o : op) : prog (resp o) := Call o (fun r => Ret r).

(** An environment answers calls from a state of its own. *)
Definition handler (S : Type) : Type := forall o : op, S -> resp o * S.

(** A call together with its answer. *)
Inductive io : Type :=
| Io (o : op) (r : resp o).

Definition op_of (e : io) : op :=
  match e with Io o _ => o end.

(** Running a program: the calls made with their answers, in order, the
    final state of the environment and the value returned. *)
Fixpoint run {S A : Type} (h : handler S) (p : prog A) (s : S)
  : list io * S * A :=
  match p with
  | Ret a => ([], s, a)
  | Call o k =>
      let (r, s1) := h o s in
      let '(t, s2, a) := run h (k r) s1 in
      (Io o r :: t, s2, a)
  end.

Definition trace_of {S A : Type} (x : list io * S * A) : list io :=
  fst (fst x).
Definition value_of {S A : Type} (x : list io * S * A) : A := snd x.
Definition env_of {S A : Type} (x : list io * S * A) : S := snd (fst x).

(** What a trace shows: the [emit] calls of each [map] invocation, the
    batches written with [bulkDocs], the scans of a database. *)
Definition emitted (t : list io) : list (list (jsval * jsval)) :=
  flat_map (fun e =>
    match e with
    | Io o r =>
        match o as o0 return resp o0 -> list (list (jsval * jsval)) with
        | CallMap _ _ => fun emits => [emits]
        | _ => fun _ => []
        end r
    end) t.

Definition written (t : list io) : list (list storeDoc) :=
  flat_map (fun e =>
    match op_of e with
    | IndexBulkDocs _ docs => [docs]
    | _ => []
    end) t.

Definition is_scan (o : op) : bool :=
  match o with
  | SourceChanges _ | IndexAllDocs _ _ | IndexAllDocsKeys _ _ => true
  | _ => false
  end.

(** ** The index handle and the incremental updater *)

Record Index : Type := mkIndex {
  idx_name : string;          (* also names the secondary database [index.db] *)
  idx_mapFun : string;
  idx_reduceFun : option string;
  idx_seq : Z
}.

Definition errName (e : jsval) : jsval :=
  match getProp e "name" with
  | Normal v => v
  | Throw _ => JUndef
  end.

(** [err.name === 'not_found'] *)
Definition not_found (e : jsval) : bool :=
  match errName e with
  | JStr s => String.eqb s "not_found"
  | _ => false
  end.

Definition mem (k : string) (l : list string) : bool :=
  existsb (String.eqb k) l.

(** [utils.uniq]: the keys of an object filled in order.  (The name
    [__proto__] is no key of such an object in JavaScript; the
    composite keys that the module hands to [uniq] never are that
    name.) *)
Definition uniq (arr : list string) : list string :=
  Object_keys (fold_left (fun m element => assoc_set element true m) arr []).

(** Modelled from the spec: the task queue of [./taskqueue], which is not
    among the sources.  Section 4.6: tasks execute one at a time in
    submission order, a task begins only after the previous task signals
    completion, and submitting a task is non-blocking.  A queue is the
    list of the tasks added and not begun yet, oldest first; it is
    [blocked] when the task begun last never signals completion. *)
Definition addTask {T : Type} (queue : list T) (task : T) : list T :=
  queue ++ [task].

Definition nextTask {T : Type} (blocked : bool) (queue : list T)
  : option (T * list T) :=
  if blocked then None
  else match queue with
       | task :: rest => Some (task, rest)
       | [] => None
       end.

Section Updater.
Context `{Host} `{Collate} `{Evaluator}.

(** The reduce function of a view: none when [reduceFun] is falsy, the
    built-in of that name, or the evaluated source. *)
Definition resolveReduce (reduceFun : option string) : option reducer :=
  match reduceFun with
  | None => None
  | Some src =>
      if String.eqb src EmptyString then None
      else match builtInReduce src with
           | Some f => Some f
           | None => Some (evalReduce src)
           end
  end.

(** One call of the [emit] closure of [callMapFun]; the state is the
    counter [i] and the object [indexableKeysToKeyValues]. *)
Definition emit (docId : string) (st : nat * list (string * row))
  (kv : jsval * jsval) : nat * list (string * row) :=
  let (i, o) := st in
  let (key, value) := kv in
  (S i,
   assoc_set
     (toIndexableString (JArr [key; JStr docId; value; jnum (Z.of_nat i)]))
     (mkRow (Some docId) (normalizeKey key) (normalizeKey value) None None)
     o).

Definition emitAll (docId : string) (emits : list (jsval * jsval))
  : nat * list (string * row) :=
  fold_left (emit docId) emits (0%nat, []).

Definition setReduceOutput (kv : row) (out : jsval) : row :=
  mkRow (row_id kv) (row_key kv) (row_value kv) (Some out) (row_doc kv).

Fixpoint addReduceOutputs (reduceFun : reducer) (o : list (string * row))
  : completion (list (string * row)) :=
  match o with
  | [] => Normal []
  | (k, kv) :: rest =>
      out <~ reduceFun (JArr [row_key kv]) [row_value kv] false ;;
      rest' <~ addReduceOutputs reduceFun rest ;;
      Normal ((k, setReduceOutput kv out) :: rest')
  end.

(** A fetched key/value document is tombstoned when its [_id] is not
    emitted any more, and takes the new value otherwise. *)
Definition markOld (o : list (string * row)) (kvDoc : string * row)
  : storeDoc :=
  match assoc (fst kvDoc) o with
  | Some v => KvDoc (fst kvDoc) v false
  | None => KvDoc (fst kvDoc) (snd kvDoc) true
  end.

(** The documents handed to [bulkDocs] for one change.  The keys of [o]
    are distinct, so its entries are walked where the code walks
    [Object.keys]. *)
Definition buildBatch (o : list (string * row)) (docId : string)
  (metaKeys : list string) (seq : Z) (kvDocs : list (string * row))
  : list storeDoc :=
  let oldKeysMap := map fst kvDocs in
  let fresh :=
    map (fun e => KvDoc (fst e) (snd e) false)
        (filter (fun e => negb (mem (fst e) oldKeysMap)) o) in
  map (markOld o) kvDocs ++ fresh
    ++ [MetaDoc ("_local/doc_" ++ docId) (uniq (keysOf o ++ metaKeys));
        LastSeqDoc "_local/lastSeq" seq].

Fixpoint somes {A : Type} (l : list (option A)) : list A :=
  match l with
  | [] => []
  | Some a :: rest => a :: somes rest
  | None :: rest => somes rest
  end.

(** [callMapFun(doc, seq, cb)], from the innermost callback outwards.
    The value is the argument of [cb] ([None] for [cb(null)]), or
    [Throw] when a reduce function throws and [cb] is never called. *)
Definition writeBatch (index : Index) (docs : list storeDoc)
  : prog (completion (option jsval)) :=
  err <- call (IndexBulkDocs (idx_name index) docs) ;;
  Ret (Normal err).

Definition diffAndWrite (index : Index) (o : list (string * row))
  (docId : string) (seq : Z) (metaKeys : list string)
  : prog (completion (option jsval)) :=
  res <- call (IndexAllDocsKeys (idx_name index) metaKeys) ;;
  match res with
  | inl err => Ret (Normal (Some err))
  | inr rows => writeBatch index (buildBatch o docId metaKeys seq (somes rows))
  end.

Definition withMetaDoc (index : Index) (o : list (string * row))
  (docId : string) (seq : Z) : prog (completion (option jsval)) :=
  res <- call (IndexGetMeta (idx_name index) docId) ;;
  match res with
  | inl err =>
      if not_found err then diffAndWrite index o docId seq []
      else Ret (Normal (Some err))
  | inr keys => diffAndWrite index o docId seq keys
  end.

Definition withLastSeqDoc (index : Index) (o : list (string * row))
  (docId : string) (seq : Z) : prog (completion (option jsval)) :=
  res <- call (IndexGetLastSeq (idx_name index)) ;;
  match res with
  | inl err =>
      if not_found err then withMetaDoc index o docId seq
      else Ret (Normal (Some err))
  | inr _ => withMetaDoc index o docId seq
  end.

(** The synchronous first part: run [map], then the reduce function on
    each emitted pair. *)
Definition mapDoc (index : Index) (doc : change)
  : prog (completion (list (string * row))) :=
  if ch_deleted doc then Ret (Normal [])
  else
    emits <- call (CallMap (idx_mapFun index) (doc_body (ch_doc doc))) ;;
    let o := snd (emitAll (doc_id (ch_doc doc)) emits) in
    match resolveReduce (idx_reduceFun index) with
    | Some reduceFun => Ret (addReduceOutputs reduceFun o)
    | None => Ret (Normal o)
    end.

Definition callMapFun (index : Index) (doc : change) (seq : Z)
  : prog (completion (option jsval)) :=
  o <- mapDoc index doc ;;
  match o with
  | Throw w => Ret (Throw w)
  | Normal o => withLastSeqDoc index o (doc_id (ch_doc doc)) seq
  end.

(** The variables closed over by [updateIndexInner].  [u_seq] is
    [index.seq]; [u_feed] holds the changes the feed has not delivered
    yet and [u_queue] the tasks added to the local queue and not run
    yet; [u_stuck] is set when a task never calls back; [u_calls] lists
    the calls of [ultimateCB], oldest first. *)
Record ustate : Type := mkUstate {
  u_seq : Z;
  u_lastSeq : Z;
  u_gotError : option jsval;
  u_reportedError : bool;
  u_complete : bool;
  u_numStarted : nat;
  u_numFinished : nat;
  u_feed : list change;
  u_queue : list change;
  u_stuck : bool;
  u_calls : list (option jsval)
}.

Definition checkComplete (u : ustate) : ustate :=
  match u_gotError u with
  | Some gotError =>
      if u_reportedError u then u
      else mkUstate (u_seq u) (u_lastSeq u) (u_gotError u) true
             (u_complete u) (u_numStarted u) (u_numFinished u)
             (u_feed u) (u_queue u) (u_stuck u)
             (u_calls u ++ [Some gotError])
  | None =>
      if u_complete u && Nat.eqb (u_numStarted u) (u_numFinished u) then
        mkUstate (u_lastSeq u) (u_lastSeq u) (u_gotError u)
          (u_reportedError u) (u_complete u) (u_numStarted u)
          (u_numFinished u) (u_feed u) (u_queue u) (u_stuck u)
          (u_calls u ++ [None])
      else u
  end.

Definition starts_with_underscore (id : string) : bool :=
  match id with
  | String c _ => Ascii.eqb c "_"%char
  | EmptyString => false
  end.

(** What a [processChange] task does to [lastSeq] and [numFinished],
    and the argument of its callback. *)
Record taskEnd : Type := mkTaskEnd {
  te_lastSeq : Z;
  te_numFinished : nat;
  te_cb : completion (option jsval)
}.

Definition processChange (index : Index) (u : ustate) (doc : change)
  : prog taskEnd :=
  if starts_with_underscore (ch_id doc) then
    Ret (mkTaskEnd (u_lastSeq u) (S (u_numFinished u)) (Normal None))
  else if ch_seq doc <? u_seq u then
    Ret (mkTaskEnd (u_lastSeq u) (u_numFinished u) (Normal None))
  else
    r <- callMapFun index doc (ch_seq doc) ;;
    match r with
    | Normal None =>
        Ret (mkTaskEnd (Z.max (u_lastSeq u) (ch_seq doc))
               (S (u_numFinished u)) (Normal None))
    | other => Ret (mkTaskEnd (u_lastSeq u) (u_numFinished u) other)
    end.

(** The events of an update run: the feed delivers its next change
    ([onChange], which counts it and adds a task to the local queue), the
    local queue runs its next task to its callback, the feed signals
    [complete] after its last change. *)
Inductive event : Type :=
| Deliver
| RunTask
| Complete.

(** The callback given to [queue.addTask] in [onChange]. *)
Definition taskCallback (u : ustate) (rest : list change) (e : taskEnd)
  : ustate :=
  match te_cb e with
  | Throw _ =>
      mkUstate (u_seq u) (te_lastSeq e) (u_gotError u) (u_reportedError u)
        (u_complete u) (u_numStarted u) (te_numFinished e) (u_feed u)
        rest true (u_calls u)
  | Normal err =>
      checkComplete
        (mkUstate (u_seq u) (te_lastSeq e)
           (match err with Some _ => err | None => u_gotError u end)
           (u_reportedError u) (u_complete u) (u_numStarted u)
           (te_numFinished e) (u_feed u) rest (u_stuck u) (u_calls u))
  end.

Definition step (index : Index) (ev : event) (u : ustate) : prog ustate :=
  match ev with
  | Deliver =>
      match u_feed u with
      | doc :: feed =>
          Ret (mkUstate (u_seq u) (u_lastSeq u) (u_gotError u)
                 (u_reportedError u) (u_complete u)
                 (S (u_numStarted u)) (u_numFinished u) feed
                 (addTask (u_queue u) doc) (u_stuck u) (u_calls u))
      | [] => Ret u
      end
  | RunTask =>
      match nextTask (u_stuck u) (u_queue u) with
      | Some (doc, rest) =>
          e <- processChange index u doc ;; Ret (taskCallback u rest e)
      | None => Ret u
      end
  | Complete =>
      match u_feed u with
      | [] =>
          if u_complete u then Ret u
          else Ret (checkComplete
                 (mkUstate (u_seq u) (u_lastSeq u) (u_gotError u)
                    (u_reportedError u) true (u_numStarted u)
                    (u_numFinished u) (u_feed u) (u_queue u) (u_stuck u)
                    (u_calls u)))
      | _ :: _ => Ret u
      end
  end.

Fixpoint updateLoop (index : Index) (sched : list event) (u : ustate)
  : prog ustate :=
  match sched with
  | [] => Ret u
  | ev :: rest => u1 <- step index ev u ;; updateLoop index rest u1
  end.

Definition initial (index : Index) (feed : list change) : ustate :=
  mkUstate (idx_seq index) (idx_seq index) None false false 0 0 feed []
    false [].

(** [updateIndexInner(index, ultimateCB)]; the order of events is chosen
    from the changes by [policy]. *)
Definition updateIndexInner (index : Index)
  (policy : list change -> list event) : prog ustate :=
  feed <- call (SourceChanges (idx_seq index)) ;;
  updateLoop index (policy feed) (initial index feed).

(** The schedule in which every task calls back before the next change
    is delivered. *)
Definition sequential (feed : list change) : list event :=
  flat_map (fun _ => [Deliver; RunTask]) feed ++ [Complete].
End Updater.

(** ** Index names *)

Definition toInt32 (z : Z) : Z :=
  let m := z mod 4294967296 in
  if 2147483648 <=? m then m - 4294967296 else m.

Definition hexDigit (d : Z) : ascii :=
  match d with
  | 0 => "0" | 1 => "1" | 2 => "2" | 3 => "3" | 4 => "4" | 5 => "5"
  | 6 => "6" | 7 => "7" | 8 => "8" | 9 => "9" | 10 => "a" | 11 => "b"
  | 12 => "c" | 13 => "d" | 14 => "e" | _ => "f"
  end%char.

(** [n.toString(16)] for [0 <= n < 16^fuel]. *)
Fixpoint toHex (fuel : nat) (n : Z) (acc : string) : string :=
  match fuel with
  | O => acc
  | S fuel' =>
      let acc' := String (hexDigit (n mod 16)) acc in
      if n / 16 =? 0 then acc' else toHex fuel' (n / 16) acc'
  end.

Fixpoint hashLoop (str : string) (hash : Z) : Z :=
  match str with
  | EmptyString => hash
  | String c rest =>
      hashLoop rest (toInt32 (toInt32 hash * 32) - hash
                     + Z.of_nat (nat_of_ascii c))
  end.

Definition hexHashCode (str : string) : string :=
  toHex 7 (Z.land (toInt32 (hashLoop str 0)) 268435455) EmptyString.

(** ** Queries *)

Definition QueryParseError (message : string) : jsval :=
  JObj [ ("status", jnum 400);
         ("name", JStr "query_parse_error");
         ("message", JStr message);
         ("error", JBool true) ].

Definition truthyStr (s : option string) : bool :=
  match s with
  | Some src => negb (String.eqb src EmptyString)
  | None => false
  end.

(** [typeof val === 'object'] for a truthy [val] *)
Definition isObject (v : jsval) : bool :=
  match v with
  | JArr _ | JObj _ | JError _ _ _ => true
  | _ => false
  end.

(** [arr.slice(skip, limit + skip)], [arr.slice(skip)] or [arr]. *)
Definition page {A : Type} (limit : option nat) (skip : nat) (l : list A)
  : list A :=
  match limit with
  | Some n => firstn n (skipn skip l)
  | None => skipn skip l
  end.

(** The values of [createKeysLookup]: an index, or an array of them. *)
Inductive indices : Type :=
| OneIndex (i : nat)
| ManyIndices (l : list nat).

(** The slots of [prelimResults] in [mapUsingKeys]. *)
Inductive slot : Type :=
| Hole
| Single (r : row)
| Multi (rs : list row).

Fixpoint setNth {A : Type} (n : nat) (x : A) (l : list A) : list A :=
  match l, n with
  | [], _ => []
  | _ :: rest, O => x :: rest
  | y :: rest, S m => y :: setNth m x rest
  end.

Record group : Type := mkGroup {
  g_key : list (jsval * option string);
  g_value : list jsval
}.

Definition firstKey (g : group) : jsval :=
  match g_key g with
  | (k, _) :: _ => k
  | [] => JUndef
  end.

Definition keysArg (g : group) : jsval :=
  JArr (map (fun p => JArr [fst p;
                            match snd p with
                            | Some id => JStr id
                            | None => JUndef
                            end]) (g_key g)).

Inductive viewSpec : Type :=
| Inline (map : string) (reduce : option string)
| Named (designDocName viewName : string).

Record Database : Type := mkDatabase {
  db_type : string;
  db_adapter : string
}.

Section Query.
Context `{Host} `{Collate} `{Evaluator}.

Definition processKey (key : jsval) : string :=
  JSON_stringify (normalizeKey key).

Definition lookupStep (st : nat * list (string * indices)) (k : jsval)
  : nat * list (string * indices) :=
  let (i, lookup) := st in
  let key := processKey k in
  (S i,
   match assoc key lookup with
   | None => assoc_set key (OneIndex i) lookup
   | Some (OneIndex val) => assoc_set key (ManyIndices [val; i]) lookup
   | Some (ManyIndices val) => assoc_set key (ManyIndices (val ++ [i])) lookup
   end).

Definition createKeysLookup (keys : list jsval) : list (string * indices) :=
  snd (fold_left lookupStep keys (0%nat, [])).

Definition idVal (r : row) : jsval :=
  match row_id r with
  | Some id => JStr id
  | None => JUndef
  end.

Definition sortByKeyIdValue (a b : row) : Z :=
  let keyCompare := collate (row_key a) (row_key b) in
  if negb (keyCompare =? 0) then keyCompare
  else
    let idCompare := collate (idVal a) (idVal b) in
    if negb (idCompare =? 0) then idCompare
    else collate (row_value a) (row_value b).

Definition addAtIndex (idx : nat) (r : row) (prelimResults : list slot)
  : list slot :=
  match nth_error prelimResults idx with
  | Some Hole => setNth idx (Single r) prelimResults
  | Some (Single val) => setNth idx (Multi [val; r]) prelimResults
  | Some (Multi val) => setNth idx (Multi (val ++ [r])) prelimResults
  | None => prelimResults
  end.

Definition mapUsingKeys (inputResults : list row) (keys : list jsval)
  (keysLookup : list (string * indices)) : list row :=
  let prelimResults :=
    fold_left
      (fun prelim r =>
         match assoc (processKey (row_key r)) keysLookup with
         | Some (OneIndex idx) => addAtIndex idx r prelim
         | Some (ManyIndices l) =>
             fold_left (fun p subIdx => addAtIndex subIdx r p) l prelim
         | None => prelim
         end)
      inputResults (repeat Hole (List.length keys)) in
  fold_left
    (fun outputResults s =>
       match s with
       | Hole => outputResults
       | Single r => (outputResults ++ [r])%list
       | Multi rs => (outputResults ++ Array_sort row sortByKeyIdValue rs)%list
       end)
    prelimResults [].

Definition checkQueryParseError (opts : options) (fun_reduce : option string)
  : option jsval :=
  let startkey :=
    if opt_descending opts then opt_endkey opts else opt_startkey opts in
  let endkey :=
    if opt_descending opts then opt_startkey opts else opt_endkey opts in
  let otherwise :=
    if truthyStr fun_reduce
       && negb (match opt_reduce opts with Some false => true | _ => false end)
       && opt_include_docs opts
    then Some (QueryParseError "{include_docs:true} is invalid for reduce")
    else None in
  match startkey, endkey with
  | Some s, Some e =>
      if collate s e >? 0 then
        Some (QueryParseError
                ("No rows can match your key range, reverse your "
                 ++ "start_key and end_key or set {descending : true}"))
      else otherwise
  | _, _ => otherwise
  end.

(** Grouping, shared by [viewQuery] and [reduceIndex]: a row joins the
    last group when its group key collates equal to that group's. *)
Definition pushGroup (shouldGroup : bool) (valueOf : row -> jsval)
  (groups : list group) (e : row) : list group :=
  let key := if shouldGroup then row_key e else JNull in
  let fresh := mkGroup [(key, row_id e)] [valueOf e] in
  match rev groups with
  | last :: before =>
      if collate (firstKey last) key =? 0 then
        (rev before ++ [mkGroup (g_key last ++ [(key, row_id e)])
                                (g_value last ++ [valueOf e])])%list
      else (groups ++ [fresh])%list
  | [] => [fresh]
  end.

(** The second [forEach] over the groups: reduce each group and look for
    the error mark; the last error found is the one reported.  A thrown
    exception leaves the query unanswered. *)
Fixpoint finishGroups (reduceOne : group -> completion jsval)
  (isError : jsval -> completion bool) (groups : list group)
  : completion (option jsval * list row) :=
  match groups with
  | [] => Normal (None, [])
  | g :: rest =>
      v <~ reduceOne g ;;
      bad <~ isError v ;;
      r <~ finishGroups reduceOne isError rest ;;
      Normal (match fst r with
              | Some e => Some e
              | None => if bad then Some v else None
              end,
              mkRow None (firstKey g) v None None :: snd r)
  end.

(** [e.value.sumsqr && e.value.sumsqr instanceof Error] *)
Definition isErrorInstance (v : jsval) : completion bool :=
  q <~ getProp v "sumsqr" ;;
  Normal (truthy q && match q with JError _ _ _ => true | _ => false end).

(** [e.value.sumsqr && e.value.sumsqr.status === 500] *)
Definition hasStatus500 (v : jsval) : completion bool :=
  q <~ getProp v "sumsqr" ;;
  if truthy q then
    st <~ getProp q "status" ;;
    Normal (match st with JNum n => num_eq n (Fin 500) | _ => false end)
  else Normal false.

(** [reduceIndex(index, results, options, cb)] *)
Definition reduceIndex (index : Index) (results : list row)
  (opts : options) : outcome :=
  let shouldGroup := opt_group opts || opt_group_level opts in
  let groups :=
    fold_left
      (pushGroup shouldGroup
         (fun e => match row_reduceOutput e with
                   | Some v => v
                   | None => JUndef
                   end))
      results [] in
  let reduceFun : reducer :=
    match idx_reduceFun index with
    | Some src =>
        match builtInReduce src with
        | Some f => f
        | None => evalReduce src
        end
    | None => fun _ _ _ => Throw "TypeError"
    end in
  let reduceOne (e : group) : completion jsval :=
    match g_value e with
    | [v] => Normal v
    | values => reduceFun JNull values true
    end in
  match finishGroups reduceOne hasStatus500 groups with
  | Throw _ => NoAnswer
  | Normal (Some error, _) => Failure error
  | Normal (None, reduced) =>
      let skip := match opt_skip opts with Some n => n | None => 0%nat end in
      Success (mkResult None None (page (opt_limit opts) skip reduced))
  end.

(** [fetchFromIndex(indexOpts, cb)]: the scan always asks for the
    documents; the answer carries [total_rows] and the stored values. *)
Definition withDocs (o : indexOpts) : indexOpts :=
  mkIndexOpts (io_startkey o) (io_endkey o) (io_descending o) (io_limit o)
    (io_skip o) true.

Definition fetchFromIndex (index : Index) (indexOpts : indexOpts)
  : prog (jsval + (Z * list row)) :=
  call (IndexAllDocs (idx_name index) (withDocs indexOpts)).

Definition deleteReduceOutput (r : row) : row :=
  mkRow (row_id r) (row_key r) (row_value r) None (row_doc r).

(** The join of [include_docs]: on [value._id] when the value is an
    object with a truthy [_id], on the row's [id] otherwise. *)
Definition joinId (viewRow : row) : jsval :=
  let val := row_value viewRow in
  let own := match getProp val "_id" with
             | Normal v => v
             | Throw _ => JUndef
             end in
  if truthy val && isObject val && truthy own then own else idVal viewRow.

Definition attachDoc (viewRow : row) (answer : jsval + jsval) : row :=
  match answer with
  | inr joined_doc =>
      if truthy joined_doc then
        mkRow (row_id viewRow) (row_key viewRow) (row_value viewRow)
          (row_reduceOutput viewRow) (Some joined_doc)
      else viewRow
  | inl _ => viewRow
  end.

Fixpoint fetchDocs (results : list row) : prog (list row) :=
  match results with
  | [] => Ret []
  | viewRow :: rest =>
      answer <- call (SourceGet (joinId viewRow)) ;;
      rest' <- fetchDocs rest ;;
      Ret (attachDoc viewRow answer :: rest')
  end.

Definition onMapResultsReady (index : Index) (opts : options)
  (shouldReduce : bool) (skip : nat) (totalRows : Z) (results : list row)
  : prog outcome :=
  if shouldReduce then Ret (reduceIndex index results opts)
  else
    let results := map deleteReduceOutput results in
    rows <- (if opt_include_docs opts
                && negb (Nat.eqb (List.length results) 0)
             then fetchDocs results else Ret results) ;;
    Ret (Success (mkResult (Some totalRows) (Some skip) rows)).

(** The scan bounds of a query without [keys]. *)
Definition rangeOpts (opts : options) (shouldReduce : bool) (skip : nat)
  : indexOpts :=
  let descending := opt_descending opts in
  let startkey0 :=
    match opt_startkey opts with
    | Some k =>
        Some (if descending
              then toIndexableString (JArr [k; JObj []; JObj []; JObj []])
              else toIndexableString (JArr [k]))
    | None => None
    end in
  let endkey0 :=
    match opt_endkey opts with
    | Some k =>
        Some (if descending
              then toIndexableString (JArr [k])
              else toIndexableString (JArr [k; JObj []; JObj []; JObj []]))
    | None => None
    end in
  let bounds :=
    match opt_key opts with
    | Some k =>
        let keyStart := toIndexableString (JArr [k]) in
        let keyEnd :=
          toIndexableString (JArr [k; JObj []; JObj []; JObj []]) in
        if descending then (Some keyEnd, Some keyStart)
        else (Some keyStart, Some keyEnd)
    | None => (startkey0, endkey0)
    end in
  if shouldReduce then
    mkIndexOpts (fst bounds) (snd bounds) descending None None false
  else
    mkIndexOpts (fst bounds) (snd bounds) descending (opt_limit opts)
      (Some skip) false.

(** One scan per entry of the keys lookup, taken in the order of
    [Object.keys], all issued before any answer is looked at.  The state holds the first error, the
    [results] array and [totalRows]. *)
Fixpoint fetchKeys (index : Index) (lookup : list (string * indices))
  (st : option jsval * list (option (list row)) * Z)
  : prog (option jsval * list (option (list row)) * Z) :=
  match lookup with
  | [] => Ret st
  | (key, keysLookupIndices) :: rest =>
      let trueKey := JSON_parse key in
      answer <-
        fetchFromIndex index
          (mkIndexOpts
             (Some (toIndexableString (JArr [trueKey])))
             (Some (toIndexableString
                      (JArr [trueKey; JObj []; JObj []; JObj []])))
             false None None false) ;;
      let '(keysError, results, totalRows) := st in
      fetchKeys index rest
        match answer, keysError with
        | inl err, None => (Some err, results, totalRows)
        | inl _, Some _ => st
        | inr _, Some _ => st
        | inr (total, subResults), None =>
            (None,
             match keysLookupIndices with
             | OneIndex i => setNth i (Some subResults) results
             | ManyIndices l =>
                 fold_left (fun rs i => setNth i (Some subResults) rs)
                   l results
             end,
             total)
        end
  end.

(** The start of [queryIndexInner]: an empty [keys] array becomes
    [limit = 0] and no [keys]. *)
Definition emptyKeys (opts : options) : options :=
  match opt_keys opts with
  | Some [] =>
      mkOptions (opt_startkey opts) (opt_endkey opts) (opt_key opts)
        None (opt_descending opts) (Some 0%nat) (opt_skip opts)
        (opt_include_docs opts) (opt_reduce opts) (opt_group opts)
        (opt_group_level opts) (opt_stale opts)
  | _ => opts
  end.

(** The branch for a [keys] array. *)
Definition keysQuery (index : Index) (opts : options) (keys : list jsval)
  (shouldReduce : bool) (skip : nat) : prog outcome :=
  let keysLookup := createKeysLookup keys in
  st <- fetchKeys index (Object_entries keysLookup)
          (None, repeat None (List.length keys), 0) ;;
  let '(keysError, results, totalRows) := st in
  match keysError with
  | Some err => Ret (Failure err)
  | None =>
      let combinedResults := List.concat (somes results) in
      let combinedResults :=
        if shouldReduce then combinedResults
        else page (opt_limit opts) skip combinedResults in
      onMapResultsReady index opts shouldReduce skip totalRows
        combinedResults
  end.

(** The branch of a normal query, without [keys]. *)
Definition rangeQuery (index : Index) (opts : options)
  (shouldReduce : bool) (skip : nat) : prog outcome :=
  answer <- fetchFromIndex index (rangeOpts opts shouldReduce skip) ;;
  match answer with
  | inl err => Ret (Failure err)
  | inr (totalRows, results) =>
      onMapResultsReady index opts shouldReduce skip totalRows results
  end.

(** [queryIndexInner(index, opts, cb)] *)
Definition queryIndexInner (index : Index) (opts0 : options)
  : prog outcome :=
  let shouldReduce :=
    truthyStr (idx_reduceFun index)
    && negb (match opt_reduce opts0 with Some false => true | _ => false end) in
  let skip := match opt_skip opts0 with Some n => n | None => 0%nat end in
  let opts := emptyKeys opts0 in
  match opt_keys opts with
  | Some keys => keysQuery index opts keys shouldReduce skip
  | None => rangeQuery index opts shouldReduce skip
  end.

(** *** Temporary views *)

(** The variables closed over by [viewQuery]. *)
Record vstate : Type := mkVstate {
  v_results : list row;
  v_num_started : nat;
  v_totalRows : Z
}.

Definition pushResult (st : vstate) (viewRow : row) : vstate :=
  mkVstate (v_results st ++ [viewRow]) (v_num_started st) (v_totalRows st).

(** The [emit] closure of [viewQuery]; [current] is the document being
    mapped.  A joined document is fetched before the row is pushed. *)
Definition viewEmit (options : options) (current : document) (st : vstate)
  (kv : jsval * jsval) : prog vstate :=
  let (key, val) := kv in
  let st := mkVstate (v_results st) (v_num_started st) (v_totalRows st + 1) in
  let viewRow :=
    mkRow (Some (doc_id current)) (normalizeKey key) (normalizeKey val)
      None None in
  let startkey :=
    if opt_descending options then opt_endkey options
    else opt_startkey options in
  let endkey :=
    if opt_descending options then opt_startkey options
    else opt_endkey options in
  if match startkey with Some s => collate key s <? 0 | None => false end
  then Ret st
  else if match endkey with Some e => collate key e >? 0 | None => false end
  then Ret st
  else if match opt_key options with
          | Some k => negb (collate key k =? 0)
          | None => false
          end
  then Ret st
  else if match opt_keys options with
          | Some keys =>
              match assoc (processKey key) (createKeysLookup keys) with
              | None => true
              | Some _ => false
              end
          | None => false
          end
  then Ret st
  else
    let st := mkVstate (v_results st) (S (v_num_started st)) (v_totalRows st) in
    if opt_include_docs options then
      let own := match getProp val "_id" with
                 | Normal v => v
                 | Throw _ => JUndef
                 end in
      if truthy val && isObject val && truthy own then
        answer <- call (SourceGet own) ;;
        Ret (pushResult st (attachDoc viewRow answer))
      else
        Ret (pushResult st
               (mkRow (row_id viewRow) (row_key viewRow) (row_value viewRow)
                  None (Some (doc_body current))))
    else Ret (pushResult st viewRow).

Fixpoint viewEmits (options : options) (current : document)
  (emits : list (jsval * jsval)) (st : vstate) : prog vstate :=
  match emits with
  | [] => Ret st
  | kv :: rest =>
      st1 <- viewEmit options current st kv ;;
      viewEmits options current rest st1
  end.

(** [onChange] of [viewQuery], for every change of the feed. *)
Fixpoint viewChanges (mapSrc : string) (options : options)
  (feed : list change) (st : vstate) : prog vstate :=
  match feed with
  | [] => Ret st
  | doc :: rest =>
      if negb (ch_deleted doc) && negb (starts_with_underscore (ch_id doc))
      then
        emits <- call (CallMap mapSrc (doc_body (ch_doc doc))) ;;
        st1 <- viewEmits options (ch_doc doc) emits st ;;
        viewChanges mapSrc options rest st1
      else viewChanges mapSrc options rest st
  end.

(** [checkComplete] of [viewQuery], once the feed is complete and every
    started row is in [results]. *)
Definition viewComplete (fun_reduce : option string) (options : options)
  (st : vstate) : outcome :=
  let skip := match opt_skip options with Some n => n | None => 0%nat end in
  let results :=
    match opt_keys options with
    | Some keys =>
        if negb (Nat.eqb (List.length (v_results st)) 0) then
          mapUsingKeys (v_results st) keys (createKeysLookup keys)
        else Array_sort row sortByKeyIdValue (v_results st)
    | None => Array_sort row sortByKeyIdValue (v_results st)
    end in
  let results := if opt_descending options then rev results else results in
  let reduceIsFalse :=
    negb (truthyStr fun_reduce)
    || match opt_reduce options with Some false => true | _ => false end in
  if reduceIsFalse then
    Success (mkResult (Some (v_totalRows st)) (Some skip)
               (page (opt_limit options) skip results))
  else
    let shouldGroup := opt_group options || opt_group_level options in
    let groups := fold_left (pushGroup shouldGroup row_value) results [] in
    let reduceFun : reducer :=
      match fun_reduce with
      | Some src =>
          match builtInReduce src with
          | Some f => f
          | None => evalReduce src
          end
      | None => fun _ _ _ => Throw "TypeError"
      end in
    match finishGroups (fun e => reduceFun (keysArg e) (g_value e) false)
            isErrorInstance groups with
    | Throw _ => NoAnswer
    | Normal (Some error, _) => Failure error
    | Normal (None, reduced) =>
        Success (mkResult None None (page (opt_limit options) skip reduced))
    end.

Definition viewQuery (mapSrc : string) (fun_reduce : option string)
  (options : options) : prog outcome :=
  feed <- call (SourceChanges 0) ;;
  st <- viewChanges mapSrc options feed (mkVstate [] 0 0) ;;
  Ret (viewComplete fun_reduce options st).

(** *** Persisted views *)

Definition getIndex (sourceDB : Database) (mapFun : string)
  (reduceFun : option string) : prog (jsval + Index) :=
  info <- call SourceInfo ;;
  match info with
  | inl err => Ret (inl err)
  | inr db_name =>
      let name :=
        (db_name ++ "-mrview-"
         ++ hexHashCode (mapFun ++ match reduceFun with
                                   | Some src => src
                                   | None => "undefined"
                                   end))%string in
      opened <- call (NewPouchDB name (db_adapter sourceDB)) ;;
      match opened with
      | Some err => Ret (inl err)
      | None =>
          lastSeqDoc <- call (IndexGetLastSeq name) ;;
          match lastSeqDoc with
          | inl err =>
              if not_found err
              then Ret (inr (mkIndex name mapFun reduceFun 0))
              else Ret (inl err)
          | inr seq => Ret (inr (mkIndex name mapFun reduceFun seq))
          end
      end
  end.

(** The first call of an update's callback decides how the query goes
    on; [None] when it is never called. *)
Definition firstCall (u : ustate) : option (option jsval) :=
  match u_calls u with
  | [] => None
  | c :: _ => Some c
  end.

Definition withSeq (index : Index) (seq : Z) : Index :=
  mkIndex (idx_name index) (idx_mapFun index) (idx_reduceFun index) seq.

Definition isStale (opts : options) (what : string) : bool :=
  match opt_stale opts with
  | Some s => String.eqb s what
  | None => false
  end.

(** [exports.query(fun, opts, callback)].  Update and query tasks go
    through one global queue, so the query of a view starts when the
    update before it has called back. *)
Definition query (db : Database) (policy : list change -> list event)
  (fun_ : viewSpec) (opts : options) : prog outcome :=
  if String.eqb (db_type db) "http" then call HttpQuery
  else
    match checkQueryParseError opts
            match fun_ with Inline _ r => r | Named _ _ => None end with
    | Some parseError => Ret (Failure parseError)
    | None =>
        match fun_ with
        | Inline mapSrc r =>
            (* the scan starts from the first change whatever [since] *)
            viewQuery mapSrc r opts
        | Named designDocName viewName =>
            doc <- call (SourceGetDesign ("_design/" ++ designDocName)) ;;
            match doc with
            | inl err => Ret (Failure err)
            | inr None =>
                (* [doc.views[viewName]] throws in the callback of the
                   read, and [opts.complete] is never called *)
                Ret NoAnswer
            | inr (Some views) =>
                match assoc viewName views with
                | None =>
                    Ret (Failure (JObj [("name", JStr "not_found");
                                        ("message", JStr "missing_named_view")]))
                | Some def =>
                    match checkQueryParseError opts (vd_reduce def) with
                    | Some parseError => Ret (Failure parseError)
                    | None =>
                        got <- getIndex db (vd_map def) (vd_reduce def) ;;
                        match got with
                        | inl err => Ret (Failure err)
                        | inr index =>
                            if isStale opts "ok" then
                              queryIndexInner index opts
                            else if isStale opts "update_after" then
                              u <- updateIndexInner index policy ;;
                              match firstCall u with
                              | None => Ret NoAnswer
                              | Some _ =>
                                  queryIndexInner (withSeq index (u_seq u)) opts
                              end
                            else
                              u <- updateIndexInner index policy ;;
                              match firstCall u with
                              | None => Ret NoAnswer
                              | Some (Some err) => Ret (Failure err)
                              | Some None =>
                                  queryIndexInner (withSeq index (u_seq u)) opts
                              end
                        end
                    end
                end
            end
        end
    end.
End Query.

(** ** An environment to run the programs in

    A small in-memory world: a source database with its changes feed and
    design documents, secondary databases by name, and a bound on the
    number of [bulkDocs] calls that succeed.  The stand-ins for the host
    and for [pouchdb-collate] are only what the runs below need: numbers
    and strings collate as in CouchDB, and the codec prints the value in
    a way that keeps the order of string keys. *)
Module Env.

Fixpoint insertBy {A : Type} (cmp : A -> A -> Z) (x : A) (l : list A)
  : list A :=
  match l with
  | [] => [x]
  | y :: rest =>
      if cmp x y <? 0 then x :: l else y :: insertBy cmp x rest
  end.

Definition sortBy (A : Type) (cmp : A -> A -> Z) (l : list A) : list A :=
  fold_left (fun acc x => insertBy cmp x acc) l [].

(** A printing of values.  An array is printed as a bracket followed
    by each element and a comma, so that the text of [[b]] is a prefix
    of the text of [[b, ...]], and [{}] prints after strings and
    numbers. *)
Fixpoint print (v : jsval) : string :=
  match v with
  | JStr s => "'" ++ s ++ "'"
  | JArr l => "[" ++ String.concat EmptyString (map (fun e => print e ++ ",") l)
  | JObj fs =>
      "{" ++ String.concat ","
               (map (fun f => fst f ++ ":" ++ print (snd f)) fs) ++ "}"
  | other => toStr other
  end.

Definition cmpZ (c : comparison) : Z :=
  match c with
  | Lt => -1
  | Eq => 0
  | Gt => 1
  end.

Definition rank (v : jsval) : Z :=
  match v with
  | JUndef | JNull => 1
  | JBool false => 2
  | JBool true => 3
  | JNum _ => 4
  | JStr _ => 5
  | JArr _ => 6
  | _ => 7
  end.

Definition collate0 (a b : jsval) : Z :=
  match a, b with
  | JNum x, JNum y =>
      match SFcompare x y with
      | Some c => cmpZ c
      | None => 0
      end
  | JStr s, JStr t => cmpZ (String.compare s t)
  | _, _ => cmpZ (rank a ?= rank b)
  end.

(** On strings, [parse] is the inverse of [stringify]. *)
Definition stringify (v : jsval) : string :=
  match v with
  | JStr s => s
  | other => print other
  end.

Definition parse (s : string) : jsval := JStr s.

Definition host : Host := Build_Host (fun _ => NaN) stringify parse sortBy.

Definition codec : Collate :=
  Build_Collate collate0 print (fun v => v).

Definition evaluator : Evaluator :=
  Build_Evaluator (fun _ _ _ _ => Normal JNull).

Record store : Type := mkStore {
  st_kv : list (string * row);
  st_meta : list (string * list string);
  st_lastSeq : option Z
}.

Record world : Type := mkWorld {
  w_name : string;
  w_feed : list change;
  w_docs : list (string * jsval);
  w_design : list (string * list (string * viewDef));
  w_map : jsval -> list (jsval * jsval);
  w_stores : list (string * store);
  w_writes_left : option nat
}.

Definition notFound : jsval :=
  JObj [("status", jnum 404); ("name", JStr "not_found")].

Definition writeFailed : jsval :=
  JObj [("status", jnum 500); ("name", JStr "write_failed")].

Definition emptyStore : store := mkStore [] [] None.

Definition theStore (w : world) (db : string) : store :=
  match assoc db (w_stores w) with
  | Some st => st
  | None => emptyStore
  end.

Definition setStore (w : world) (db : string) (st : store)
  (left : option nat) : world :=
  mkWorld (w_name w) (w_feed w) (w_docs w) (w_design w) (w_map w)
    (assoc_set db st (w_stores w)) left.

Fixpoint remove {V : Type} (k : string) (o : list (string * V))
  : list (string * V) :=
  match o with
  | [] => []
  | (k', v) :: rest =>
      if String.eqb k k' then rest else (k', v) :: remove k rest
  end.

Definition putDoc (st : store) (d : storeDoc) : store :=
  match d with
  | KvDoc id v true => mkStore (remove id (st_kv st)) (st_meta st) (st_lastSeq st)
  | KvDoc id v false =>
      mkStore (assoc_set id v (st_kv st)) (st_meta st) (st_lastSeq st)
  | MetaDoc id keys =>
      mkStore (st_kv st) (assoc_set id keys (st_meta st)) (st_lastSeq st)
  | LastSeqDoc _ seq => mkStore (st_kv st) (st_meta st) (Some seq)
  end.

(** [allDocs] over the live documents in key order, bounds inclusive. *)
Definition scan (st : store) (o : indexOpts) : Z * list row :=
  let ordered :=
    sortBy _ (fun a b => cmpZ (String.compare (fst a) (fst b))) (st_kv st) in
  let ordered := if io_descending o then rev ordered else ordered in
  let lo := if io_descending o then io_endkey o else io_startkey o in
  let hi := if io_descending o then io_startkey o else io_endkey o in
  let inside (e : string * row) :=
    match lo with Some k => String.leb k (fst e) | None => true end
    && match hi with Some k => String.leb (fst e) k | None => true end in
  let found := filter inside ordered in
  let skipped :=
    skipn (match io_skip o with Some n => n | None => 0%nat end) found in
  (Z.of_nat (List.length (st_kv st)),
   map snd (match io_limit o with
            | Some n => firstn n skipped
            | None => skipped
            end)).

Definition answer : handler world :=
  fun o =>
    match o as o0 return world -> resp o0 * world with
    | SourceInfo => fun w => (inr (w_name w), w)
    | SourceGet id => fun w =>
        (match id with
         | JStr s =>
             match assoc s (w_docs w) with
             | Some d => inr d
             | None => inl notFound
             end
         | _ => inl notFound
         end, w)
    | SourceGetDesign id => fun w =>
        (match assoc id (w_design w) with
         | Some views => inr (Some views)
         | None => inl notFound
         end, w)
    | SourceChanges since => fun w =>
        (filter (fun c => since <? ch_seq c) (w_feed w), w)
    | NewPouchDB name _ => fun w =>
        (None, setStore w name (theStore w name) (w_writes_left w))
    | IndexGetLastSeq db => fun w =>
        (match st_lastSeq (theStore w db) with
         | Some seq => inr seq
         | None => inl notFound
         end, w)
    | IndexGetMeta db docId => fun w =>
        (match assoc ("_local/doc_" ++ docId) (st_meta (theStore w db)) with
         | Some keys => inr keys
         | None => inl notFound
         end, w)
    | IndexAllDocsKeys db keys => fun w =>
        (inr (map (fun k =>
                     match assoc k (st_kv (theStore w db)) with
                     | Some v => Some (k, v)
                     | None => None
                     end) keys), w)
    | IndexAllDocs db opts => fun w => (inr (scan (theStore w db) opts), w)
    | IndexBulkDocs db docs => fun w =>
        match w_writes_left w with
        | Some O => (Some writeFailed, w)
        | Some (S n) =>
            (None, setStore w db (fold_left putDoc docs (theStore w db)) (Some n))
        | None =>
            (None, setStore w db (fold_left putDoc docs (theStore w db)) None)
        end
    | CallMap _ doc => fun w => (w_map w doc, w)
    | HttpQuery => fun w => (NoAnswer, w)
    end.

(** The view of the examples: [function (doc) { emit(doc._id, doc.n); }]
    with the [_stats] reducer, over documents [{_id, n}]. *)
Definition mapSrc : string := "function (doc) { emit(doc._id, doc.n); }".

Definition emitIdAndN (doc : jsval) : list (jsval * jsval) :=
  match getProp doc "_id", getProp doc "n" with
  | Normal id, Normal n => [(id, n)]
  | _, _ => []
  end.

Definition docOf (id : string) (n : jsval) : document :=
  mkDocument id (JObj [("_id", JStr id); ("n", n)]).

Definition changeOf (id : string) (seq : Z) (n : jsval) : change :=
  mkChange id seq false (docOf id n).

Definition statsView : viewDef := mkViewDef mapSrc (Some "_stats").

Definition local : Database := mkDatabase "leveldb" "leveldb".

Definition noOptions : options :=
  mkOptions None None None None false None None false None false false None.

(** Two numeric documents; the index has seen nothing yet. *)
Definition world1 : world :=
  mkWorld "db"
    [changeOf "a" 1 (jnum 1); changeOf "b" 2 (jnum 3)]
    [("a", doc_body (docOf "a" (jnum 1))); ("b", doc_body (docOf "b" (jnum 3)))]
    [("_design/d", [("v", statsView)])]
    emitIdAndN
    [("idx", mkStore [] [] (Some 0))]
    None.

(** The same, where only the first [bulkDocs] succeeds. *)
Definition world2 : world :=
  mkWorld (w_name world1) (w_feed world1) (w_docs world1) (w_design world1)
    (w_map world1) (w_stores world1) (Some 1%nat).

(** One document whose value is a string. *)
Definition world3 : world :=
  mkWorld "db"
    [changeOf "a" 1 (JStr "x")]
    [("a", doc_body (docOf "a" (JStr "x")))]
    [("_design/d", [("v", statsView)])]
    emitIdAndN
    []
    None.

Definition index1 : Index := mkIndex "idx" mapSrc (Some "_stats") 0.

(** [world1] once the index has been brought up to date. *)
Definition indexed : world :=
  Eval vm_compute in
    env_of (run answer
              (@updateIndexInner host codec evaluator index1
                 (@sequential)) world1).

Definition index2 : Index := mkIndex "idx" mapSrc (Some "_stats") 2.

(** An index whose [seq] is 5, and a change with that same [seq]. *)
Definition index5 : Index := mkIndex "idx" mapSrc None 5.

Definition change5 : change := changeOf "a" 5 (jnum 1).

Definition update5 : ustate :=
  mkUstate 5 5 None false false 1 0 [] [change5] false [].

Definition rangeAB : options :=
  mkOptions (Some (JStr "a")) (Some (JStr "b")) None None false None None
    false (Some false) false false None.

Definition rangeBA : options :=
  mkOptions (Some (JStr "b")) (Some (JStr "a")) None None false None None
    false None false false None.

Definition withDocsOption : options :=
  mkOptions None None None None false None None true None false false None.

Definition grouped : options :=
  mkOptions None None None None false None None false None true false None.

Definition noKeys (reduce : option bool) : options :=
  mkOptions None None None (Some []) false None None false reduce false
    false None.

(** The documents of the scenarios S1 to S5 of the specification, with
    the view [emit(doc._id, doc.n)] saved once with [_sum] and once
    without reduce. *)
Definition scenario : world :=
  mkWorld "db"
    [changeOf "a" 1 (jnum 1); changeOf "b" 2 (jnum 2); changeOf "c" 3 (jnum 3)]
    []
    [("_design/d", [("sum", mkViewDef mapSrc (Some "_sum"));
                    ("plain", mkViewDef mapSrc None)])]
    emitIdAndN
    []
    None.

(** The same after document ["b"] has been deleted. *)
Definition afterDelete (w : world) : world :=
  mkWorld (w_name w)
    (w_feed w ++ [mkChange "b" 4 true
                    (mkDocument "b" (JObj [("_id", JStr "b");
                                           ("_deleted", JBool true)]))])
    (w_docs w) (w_design w) (w_map w) (w_stores w) (w_writes_left w).

(** The documents of scenario S6, with the view [emit(doc.t, doc.v)]. *)
Definition emitTAndV (doc : jsval) : list (jsval * jsval) :=
  match getProp doc "t", getProp doc "v" with
  | Normal t, Normal v => [(t, v)]
  | _, _ => []
  end.

Definition tagged (id t : string) (seq v : Z) : change :=
  mkChange id seq false
    (mkDocument id (JObj [("_id", JStr id); ("t", JStr t); ("v", jnum v)])).

Definition scenario6 : world :=
  mkWorld "db"
    [tagged "x" "a" 1 1; tagged "y" "a" 2 3; tagged "z" "b" 3 5]
    []
    [("_design/d", [("stats", mkViewDef "function (doc) { emit(doc.t, doc.v); }"
                                (Some "_stats"))])]
    emitTAndV
    []
    None.

Definition options_with (startkey endkey : option jsval)
  (keys : option (list jsval)) (descending : bool) (limit : option nat)
  (group : bool) : options :=
  mkOptions startkey endkey None keys descending limit None false None group
    false None.

(** A query of a view of the design document ["d"], and the rows of the
    expected answers. *)
Definition ask (w : world) (view : string) (opts : options)
  : list io * world * outcome :=
  run answer
    (@query host codec evaluator local (@sequential) (Named "d" view) opts) w.

Definition plainRow (id : string) (n : Z) : row :=
  mkRow (Some id) (JStr id) (jnum n) None None.

Definition reducedRow (key value : jsval) : row :=
  mkRow None key value None None.

Definition stats (s lo hi count squares : Z) : jsval :=
  JObj [ ("sum", jnum s); ("min", jnum lo); ("max", jnum hi);
         ("count", jnum count); ("sumsqr", jnum squares) ].
(** The view of the examples reduced with [_sum], and three rows as the
    index stores them for it. *)
Definition indexSum : Index := mkIndex "idx" mapSrc (Some "_sum") 0.

Definition storedRow (id : string) (n : Z) : row :=
  mkRow (Some id) (JStr id) (jnum n) (Some (jnum n)) None.

(** The same view without a reduce function, over the secondary
    database of [indexed]. *)
Definition indexPlain : Index := mkIndex "idx" mapSrc None 2.

Definition staleOk : options :=
  mkOptions None None None None false None None false None false false
    (Some "ok").

(** The keys ["b"], 2, 1: the last two are array indices once
    processed. *)
Definition keysB21 : options :=
  options_with None None (Some [JStr "b"; jnum 2; jnum 1]) false None
    false.

Definition lastTwo : options :=
  options_with None None None true (Some 2%nat) false.

(** The deletion of document ["b"]. *)
Definition deletion : change :=
  mkChange "b" 4 true
    (mkDocument "b" (JObj [("_id", JStr "b"); ("_deleted", JBool true)])).

(** An environment whose changes feed does not look at [since]: it
    delivers every change again. *)
Definition replaying : handler world :=
  fun o =>
    match o as o0 return world -> resp o0 * world with
    | SourceChanges _ => fun w => (w_feed w, w)
    | other => answer other
    end.

(** An environment in which [bulkDocs] fails on the batch of one
    document, the batch that holds its meta record, and only on it. *)
Definition isMetaOf (docId : string) (d : storeDoc) : bool :=
  match d with
  | MetaDoc id _ => String.eqb id ("_local/doc_" ++ docId)
  | _ => false
  end.

Definition failingFor (docId : string) : handler world :=
  fun o =>
    match o as o0 return world -> resp o0 * world with
    | IndexBulkDocs db docs => fun w =>
        if existsb (isMetaOf docId) docs then (Some writeFailed, w)
        else answer (IndexBulkDocs db docs) w
    | other => answer other
    end.
End Env.

(** ** The first revision

    The first revision of the module, which [src/index.js] holds before
    the second: its [emit] in [updateIndex], whose composite key has a
    leading 1 and is not the [_id] of any record (the emitted pairs go to
    [dbIndex.put] under the document id), and its [viewQuery], the
    temporary-view path of that revision. *)
Module Rev1.
Definition emit `{Collate} (docId : string) (st : nat * list (string * row))
  (kv : jsval * jsval) : nat * list (string * row) :=
  let (i, o) := st in
  let (key, value) := kv in
  (S i,
   assoc_set
     (toIndexableString
        (JArr [jnum 1; key; JStr docId; value; jnum (Z.of_nat i)]))
     (mkRow (Some docId) (normalizeKey key) (normalizeKey value) None None)
     o).

Section ViewQuery.
Context `{Host} `{Collate} `{Evaluator}.

(** [checkComplete] of the first [viewQuery].  Rows are always grouped by
    key, and the reduced answer carries [total_rows] and [offset] like
    the plain one.  The built-in reducers of this revision give what
    those of the second give when [rereduce] is not set. *)
Definition viewComplete (fun_reduce : option string) (options : options)
  (st : vstate) : outcome :=
  let skip := match opt_skip options with Some n => n | None => 0%nat end in
  let results :=
    match opt_keys options with
    | Some keys =>
        if negb (Nat.eqb (List.length (v_results st)) 0) then
          mapUsingKeys (v_results st) keys (createKeysLookup keys)
        else Array_sort row sortByKeyIdValue (v_results st)
    | None => Array_sort row sortByKeyIdValue (v_results st)
    end in
  let results := if opt_descending options then rev results else results in
  let reduceIsFalse :=
    negb (truthyStr fun_reduce)
    || match opt_reduce options with Some false => true | _ => false end in
  if reduceIsFalse then
    Success (mkResult (Some (v_totalRows st)) (Some skip)
               (page (opt_limit options) skip results))
  else
    let groups := fold_left (pushGroup true row_value) results [] in
    let reduceFun : reducer :=
      match fun_reduce with
      | Some src =>
          match builtInReduce src with
          | Some f => f
          | None => evalReduce src
          end
      | None => fun _ _ _ => Throw "TypeError"
      end in
    match finishGroups (fun e => reduceFun (keysArg e) (g_value e) false)
            isErrorInstance groups with
    | Throw _ => NoAnswer
    | Normal (Some error, _) => Failure error
    | Normal (None, reduced) =>
        Success (mkResult (Some (v_totalRows st)) (Some skip)
                   (page (opt_limit options) skip reduced))
    end.

(** The first [viewQuery], which checks the key range itself. *)
Definition viewQuery (mapSrc : string) (fun_reduce : option string)
  (options : options) : prog outcome :=
  let startkey :=
    if opt_descending options then opt_endkey options
    else opt_startkey options in
  let endkey :=
    if opt_descending options then opt_startkey options
    else opt_endkey options in
  let scan :=
    feed <- call (SourceChanges 0) ;;
    st <- viewChanges mapSrc options feed (mkVstate [] 0 0) ;;
    Ret (viewComplete fun_reduce options st) in
  match startkey, endkey with
  | Some s, Some e =>
      if collate s e >? 0 then
        Ret (Failure
               (JObj [ ("status", jnum 400);
                       ("name", JStr "query_parse_error");
                       ("message",
                        JStr ("No rows can match your key range, reverse your "
                              ++ "start_key and end_key or set {descending : true}")) ]))
      else scan
  | _, _ => scan
  end.
End ViewQuery.
End Rev1.

(** ** Notions used in the statements *)

(** The reduce/rereduce round of the specification: reduce two parts of
    a value list, then rereduce the two partial results. *)
Definition rereduced (f : reducer) (V1 V2 : list jsval) : completion jsval :=
  r1 <~ f JNull V1 false ;;
  r2 <~ f JNull V2 false ;;
  f JNull [r1; r2] true.

Definition numbers (zs : list Z) : list jsval := map jnum zs.

Definition total (zs : list Z) : Z := fold_right Z.add 0 zs.

Definition sumOfSquares (zs : list Z) : Z :=
  fold_right (fun z acc => z * z + acc) 0 zs.

(** The sum of numbers as the code computes it: from 0, in the order of
    the list, each addition rounded to a double. *)
Definition floatSum (ns : list number) : number :=
  fold_left num_add ns (Fin 0).

(** The sum of the squares of numbers as the code computes it. *)
Definition floatSumsqr (ns : list number) : number :=
  fold_left (fun acc n => num_add acc (num_mul n n)) ns (Fin 0).

(** The integers that a double holds together with all their
    neighbours, [Number.MIN_SAFE_INTEGER] to [Number.MAX_SAFE_INTEGER]. *)
Definition safeInteger (z : Z) : Prop := - 2 ^ 53 < z < 2 ^ 53.

(** The integers [zs] are added to [acc] one after the other without
    leaving the safe integers, so that no addition rounds. *)
Fixpoint exactSums (acc : Z) (zs : list Z) : Prop :=
  match zs with
  | [] => True
  | z :: rest =>
      safeInteger z /\ safeInteger (acc + z) /\ exactSums (acc + z) rest
  end.

(** The double of a safe integer, written out: the binary digits of
    the integer moved up to 53 digits, and the exponent that moves
    them back. *)
Definition mantissa (p : positive) : positive :=
  match (53 - Zpos (digits2_pos p))%Z with
  | Zpos n => Pos.iter xO p n
  | _ => p
  end.

Definition exponent (p : positive) : Z := Zpos (digits2_pos p) - 53.

Definition double_of (z : Z) : number :=
  match z with
  | Z0 => S754_zero false
  | Zpos p => S754_finite false (mantissa p) (exponent p)
  | Zneg p => S754_finite true (mantissa p) (exponent p)
  end.

(** The scans of a database that a trace shows. *)
Definition scans (t : list io) : list op := filter is_scan (map op_of t).

(** The answers to the range scans of a trace. *)
Definition scanAnswers (t : list io) : list (jsval + Z * list row) :=
  flat_map (fun e =>
    match e with
    | Io o r =>
        match o as o0 return resp o0 -> list (jsval + Z * list row) with
        | IndexAllDocs _ _ => fun answer => [answer]
        | _ => fun _ => []
        end r
    end) t.

(** Reduction is in effect: a reducer is configured and the [reduce]
    option is not [false]. *)
Definition reduceInEffect (reduceFun : option string) (opts : options) : bool :=
  truthyStr reduceFun
  && negb (match opt_reduce opts with Some false => true | _ => false end).

Section Bounds.
Context `{Collate}.

(** The two encodings of a bound of the specification. *)
Definition lowerBound (b : jsval) : string := toIndexableString (JArr [b]).

Definition upperBound (b : jsval) : string :=
  toIndexableString (JArr [b; JObj []; JObj []; JObj []]).

(** The composite indexable key of the specification. *)
Definition compositeKey (key : jsval) (docId : string) (value : jsval)
  (emitIndex : nat) : string :=
  toIndexableString
    (JArr [key; JStr docId; value; jnum (Z.of_nat emitIndex)]).
End Bounds.

(** A trace in which [map] is not called and every batch written is the
    batch of one change, built from the object [o]. *)
Definition batchOnly (o : list (string * row)) (docId : string)
  (seq : Z) (t : list io) : Prop :=
  emitted t = []
  /\ forall docs, In docs (written t) ->
       exists metaKeys kvDocs, docs = buildBatch o docId metaKeys seq kvDocs.

(** What holds of the variables of an update at every moment of a run
    started with [index.seq = seq0] on the changes [feed0]: the counters
    bound the queue; once the feed is complete nothing is left to
    deliver; the queued and undelivered changes come from the feed; and
    the callback has been called at most once, with the error as soon
    as one is recorded and [index.seq] untouched until a success. *)
Definition updating (seq0 : Z) (feed0 : list change) (u : ustate) : Prop :=
  (u_numFinished u + List.length (u_queue u) <= u_numStarted u)%nat
  /\ (u_complete u = true -> u_feed u = [])
  /\ incl (u_queue u ++ u_feed u) feed0
  /\ match u_gotError u with
     | None =>
         u_reportedError u = false
         /\ ((u_calls u = [] /\ u_seq u = seq0)
             \/ (u_calls u = [None] /\ u_complete u = true
                 /\ u_numStarted u = u_numFinished u))
     | Some _ =>
         u_reportedError u = true
         /\ (exists e, u_calls u = [Some e])
         /\ u_seq u = seq0
     end.

(** Every batch of the trace sets [_local/lastSeq] to the [seq] of one
    of the changes. *)
Definition lastSeqFollows (feed0 : list change) (t : list io) : Prop :=
  forall docs, In docs (written t) ->
    exists c, In c feed0 /\ In (LastSeqDoc "_local/lastSeq" (ch_seq c)) docs.

(** The key range of the options is inverted: both bounds are set and,
    with their roles swapped when [descending], the start collates after
    the end. *)
Definition invertedRange `{Collate} (opts : options) : bool :=
  match opt_startkey opts, opt_endkey opts with
  | Some startkey, Some endkey =>
      if opt_descending opts then collate endkey startkey >? 0
      else collate startkey endkey >? 0
  | _, _ => false
  end.

Definition isParseError (e : jsval) : bool :=
  match getProp e "name", getProp e "status" with
  | Normal (JStr name), Normal (JNum status) =>
      String.eqb name "query_parse_error" && num_eq status (Fin 400)
  | _, _ => false
  end.

(** A run that ends in a query parse error without having scanned. *)
Definition rejected {S : Type} (x : list io * S * outcome) : bool :=
  match scans (trace_of x), value_of x with
  | [], Failure e => isParseError e
  | _, _ => false
  end.

(** A reduced row carries [key] and [value] and nothing else. *)
Definition keyValueOnly (r : row) : bool :=
  match row_id r, row_reduceOutput r, row_doc r with
  | None, None, None => true
  | _, _, _ => false
  end.

(** An environment whose [allDocs] returns at most [limit] rows. *)
Definition honoursLimit {S : Type} (h : handler S) : Prop :=
  forall db opts s n err_or,
    io_limit opts = Some n ->
    fst (h (IndexAllDocs db opts) s) = err_or ->
    match err_or with
    | inr (_, found) => (List.length found <= n)%nat
    | inl _ => True
    end.

(** ** The rest of the code, and the notions to state it

    [utils.clone], and what the statements on the remaining functions of
    [index.js] and [utils.js] are made of. *)

(** Java's [String.hashCode], which the comment on [hexHashCode] refers
    to: the polynomial in 31 over the character codes. *)
Fixpoint javaHashCode (str : string) (hash : Z) : Z :=
  match str with
  | EmptyString => hash
  | String c rest => javaHashCode rest (31 * hash + Z.of_nat (nat_of_ascii c))
  end.

(** The number that a numeral in lowercase hexadecimal denotes: the
    digits [0] to [9] have the character codes 48 to 57, the letters
    [a] to [f] the codes 97 to 102. *)
Definition hexDigitValue (c : ascii) : option Z :=
  let code := Z.of_nat (nat_of_ascii c) in
  if (48 <=? code) && (code <=? 57) then Some (code - 48)
  else if (97 <=? code) && (code <=? 102) then Some (code - 87)
  else None.

Fixpoint hexValueFrom (acc : Z) (s : string) : option Z :=
  match s with
  | EmptyString => Some acc
  | String c rest =>
      match hexDigitValue c with
      | Some d => hexValueFrom (16 * acc + d) rest
      | None => None
      end
  end.

Definition hexValue (s : string) : option Z :=
  match s with
  | EmptyString => None
  | _ => hexValueFrom 0 s
  end.

(** The positions that a value of [createKeysLookup] stands for. *)
Definition positions (ix : indices) : list nat :=
  match ix with
  | OneIndex i => [i]
  | ManyIndices l => l
  end.

(** The positions, counted from [i], at which [key] occurs in a list. *)
Fixpoint occurrences (key : string) (l : list string) (i : nat) : list nat :=
  match l with
  | [] => []
  | k :: rest =>
      if String.eqb key k then i :: occurrences key rest (S i)
      else occurrences key rest (S i)
  end.

(** A list of positions as [createKeysLookup] holds it: nothing, a
    number, or an array of at least two numbers. *)
Definition asIndices (l : list nat) : option indices :=
  match l with
  | [] => None
  | [i] => Some (OneIndex i)
  | _ => Some (ManyIndices l)
  end.

(** [typeof v === 'number'] *)
Definition isNumber (v : jsval) : bool :=
  match v with
  | JNum _ => true
  | _ => false
  end.




(** The [reduceOutput] of a stored row, as [reduceIndex] reads it. *)
Definition reduceOutputOf (e : row) : jsval :=
  match row_reduceOutput e with
  | Some v => v
  | None => JUndef
  end.

(** More of what a trace shows: the documents handed to [map], the calls
    that fetch a source document, the calls that go to a secondary
    database, and the calls that only an update makes. *)
Definition mapped (t : list io) : list jsval :=
  flat_map (fun e =>
    match op_of e with
    | CallMap _ doc => [doc]
    | _ => []
    end) t.

Definition is_get (o : op) : bool :=
  match o with
  | SourceGet _ => true
  | _ => false
  end.

Definition touchesIndex (o : op) : bool :=
  match o with
  | NewPouchDB _ _ | IndexGetLastSeq _ | IndexGetMeta _ _
  | IndexAllDocsKeys _ _ | IndexAllDocs _ _ | IndexBulkDocs _ _ => true
  | _ => false
  end.

Definition is_update (o : op) : bool :=
  match o with
  | SourceChanges _ | CallMap _ _ | IndexGetMeta _ _
  | IndexAllDocsKeys _ _ | IndexBulkDocs _ _ => true
  | _ => false
  end.

(** A change that [viewQuery] hands to [map]: not a deletion, and not a
    document whose id starts with an underscore. *)
Definition live (doc : change) : bool :=
  negb (ch_deleted doc) && negb (starts_with_underscore (ch_id doc)).

(** The [id], [key] and [value] of a row. *)
Definition columns (r : row) : option string * jsval * jsval :=
  (row_id r, row_key r, row_value r).


(** A change that [processChange] passes over without counting it as
    finished: its id does not start with an underscore and its [seq] is
    below [index.seq]. *)
Definition skipped (seq : Z) (doc : change) : bool :=
  negb (starts_with_underscore (ch_id doc)) && (ch_seq doc <? seq).

Definition replayed (seq : Z) (l : list change) : nat :=
  List.length (filter (skipped seq) l).

(** [lastSeq] is [index.seq] as it was at the start, or the [seq] of a
    change of the feed that went through [map]; it never falls below
    the start, and [index.seq] is either still what it was or has been
    set to [lastSeq]. *)
Definition seqFollowsFeed (seq0 : Z) (feed0 : list change) (u : ustate)
  : Prop :=
  seq0 <= u_lastSeq u
  /\ (u_lastSeq u = seq0
      \/ exists c, In c feed0
                   /\ starts_with_underscore (ch_id c) = false
                   /\ ch_seq c = u_lastSeq u)
  /\ (u_seq u = seq0 \/ u_seq u = u_lastSeq u).

(** An update that cannot succeed any more: the changes passed over or
    still to be passed over keep [numFinished] below [numStarted]. *)
Definition heldBack (seq0 : Z) (feed0 : list change) (u : ustate) : Prop :=
  u_seq u = seq0
  /\ ~ In None (u_calls u)
  /\ (u_numFinished u + List.length (u_queue u) + replayed seq0 feed0
      <= u_numStarted u + replayed seq0 (u_queue u)
         + replayed seq0 (u_feed u))%nat.

(** The [seq] values of the changes that go through [map]. *)
Definition mappedSeqs (feed : list change) : list Z :=
  List.map ch_seq
    (filter (fun c => negb (starts_with_underscore (ch_id c))) feed).

(** The state of a sequential run between two changes. *)
Definition betweenChanges (seq0 : Z) (rest : list change) (u : ustate)
  : Prop :=
  u_feed u = rest /\ u_queue u = [] /\ u_complete u = false
  /\ u_calls u = [] /\ u_gotError u = None /\ u_stuck u = false
  /\ u_numStarted u = u_numFinished u /\ u_seq u = seq0.

(** Every batch written in the trace is the batch of one change, built
    from the object [o], the old keys that were looked up in the
    secondary database and the documents that it returned for them. *)
Definition batchOf (index : Index) (o : list (string * row)) (docId : string)
  (seq : Z) (t : list io) : Prop :=
  forall docs, In docs (written t) ->
    exists metaKeys found,
      In (Io (IndexAllDocsKeys (idx_name index) metaKeys) (inr found)) t
      /\ docs = buildBatch o docId metaKeys seq (somes found).

Definition isKvDoc (d : storeDoc) : bool :=
  match d with
  | KvDoc _ _ _ => true
  | _ => false
  end.

(** The scan that [queryIndexInner] makes for one entry of the keys
    lookup: from the encoding of [[key]] to that of [[key, {}, {}, {}]],
    for the key parsed back from the entry. *)
Definition keyScan `{Host} `{Collate} (index : Index) (key : string) : op :=
  IndexAllDocs (idx_name index)
    (mkIndexOpts (Some (lowerBound (JSON_parse key)))
       (Some (upperBound (JSON_parse key))) false None None true).

(** The rows of an answered scan. *)
Definition rowsOf (answer : jsval + Z * list row) : list row :=
  match answer with
  | inr (_, found) => found
  | inl _ => []
  end.

Definition answered (answer : jsval + Z * list row) : bool :=
  match answer with
  | inr _ => true
  | inl _ => false
  end.

(** What an answered scan does to the [results] array of
    [queryIndexInner]: its rows go to every position of the entry. *)
Definition place (results : list (option (list row)))
  (e : indices * (jsval + Z * list row)) : list (option (list row)) :=
  fold_left (fun rs i => setNth i (Some (rowsOf (snd e))) rs)
    (positions (fst e)) results.

(** What [addAtIndex] does to one slot of [prelimResults], and the slot
    that holds given rows. *)
Definition push (s : slot) (r : row) : slot :=
  match s with
  | Hole => Single r
  | Single val => Multi [val; r]
  | Multi val => Multi (val ++ [r])
  end.

Definition slotOf (l : list row) : slot :=
  match l with
  | [] => Hole
  | [r] => Single r
  | _ => Multi l
  end.

(** The rows that [mapUsingKeys] puts out for one slot: nothing for a
    hole, the row of a single result, the sorted rows of an array. *)
Definition flattened `{Host} `{Collate} (s : slot) : list row :=
  match s with
  | Hole => []
  | Single r => [r]
  | Multi rs => Array_sort row sortByKeyIdValue rs
  end.

(** The rows of a temporary view that have a given key. *)
Definition rowsWithKey `{Host} `{Collate} (key : jsval) (results : list row)
  : list row :=
  filter (fun r => String.eqb (processKey (row_key r)) (processKey key))
    results.

(** A document handed to [map] by an update started at [seq0] on the
    changes [feed0]: the document of a change of the feed that is not a
    deletion, whose id does not start with an underscore and whose
    [seq] is not below [seq0]. *)
Definition mappedFrom (seq0 : Z) (feed0 : list change) (doc : jsval) : Prop :=
  exists c, In c feed0 /\ live c = true /\ seq0 <= ch_seq c
            /\ doc = doc_body (ch_doc c).

(** A batch written by an update started at [seq0] on the changes
    [feed0]: it sets [_local/lastSeq] to the [seq] of a change of the
    feed that is not below [seq0]. *)
Definition writtenFrom (seq0 : Z) (feed0 : list change)
  (docs : list storeDoc) : Prop :=
  exists c, In c feed0 /\ seq0 <= ch_seq c
            /\ In (LastSeqDoc "_local/lastSeq" (ch_seq c)) docs.

(** * Numbers: the doubles of the safe integers *)

(** The number of binary digits of a positive integer. *)
Lemma digits2_bounds (p : positive) :
  2 ^ (Zpos (digits2_pos p) - 1) <= Zpos p < 2 ^ Zpos (digits2_pos p).
Proof.
  induction p as [p IH|p IH|]; cbn [digits2_pos].
  - rewrite Pos2Z.inj_succ, (Pos2Z.inj_xI p).
    replace (Z.succ (Zpos (digits2_pos p)) - 1)
      with (Z.succ (Zpos (digits2_pos p) - 1)) by lia.
    rewrite !Z.pow_succ_r by lia.
    set (lo := 2 ^ (Zpos (digits2_pos p) - 1)) in *.
    set (hi := 2 ^ Zpos (digits2_pos p)) in *. clearbody lo hi. lia.
  - rewrite Pos2Z.inj_succ, (Pos2Z.inj_xO p).
    replace (Z.succ (Zpos (digits2_pos p)) - 1)
      with (Z.succ (Zpos (digits2_pos p) - 1)) by lia.
    rewrite !Z.pow_succ_r by lia.
    set (lo := 2 ^ (Zpos (digits2_pos p) - 1)) in *.
    set (hi := 2 ^ Zpos (digits2_pos p)) in *. clearbody lo hi. lia.
  - cbn. lia.
Qed.

Lemma digits2_unique (p : positive) (d : Z) :
  2 ^ (d - 1) <= Zpos p < 2 ^ d -> Zpos (digits2_pos p) = d.
Proof.
  intros [Hlo Hhi]. destruct (digits2_bounds p) as [Hlo' Hhi'].
  assert (Hd : 0 < d).
  { destruct (Z.lt_ge_cases 0 d) as [|Hle]; [assumption|].
    exfalso. destruct (Z.eq_dec d 0) as [-> | Hne].
    - cbn in Hhi. lia.
    - rewrite (Z.pow_neg_r 2 d) in Hhi by lia. lia. }
  destruct (Z.lt_trichotomy (Zpos (digits2_pos p)) d) as [Hlt | [Heq | Hgt]];
    [exfalso | assumption | exfalso].
  - assert (2 ^ Zpos (digits2_pos p) <= 2 ^ (d - 1))
      by (apply Z.pow_le_mono_r; lia).
    lia.
  - assert (2 ^ d <= 2 ^ (Zpos (digits2_pos p) - 1))
      by (apply Z.pow_le_mono_r; lia).
    lia.
Qed.

Lemma digits2_shifted (p q : positive) (k : Z) :
  0 <= k -> Zpos q = Zpos p * 2 ^ k ->
  Zpos (digits2_pos q) = Zpos (digits2_pos p) + k.
Proof.
  intros Hk Hq. apply digits2_unique. rewrite Hq.
  destruct (digits2_bounds p) as [Hlo Hhi].
  replace (Zpos (digits2_pos p) + k - 1)
    with ((Zpos (digits2_pos p) - 1) + k) by lia.
  rewrite !Z.pow_add_r by lia.
  assert (0 < 2 ^ k) by (apply Z.pow_pos_nonneg; lia).
  nia.
Qed.

Lemma iter_xO_value (p n : positive) :
  Zpos (Pos.iter xO p n) = Zpos p * 2 ^ Zpos n.
Proof.
  induction n as [|n IH] using Pos.peano_ind.
  - cbn. lia.
  - rewrite Pos.iter_succ, (Pos2Z.inj_xO (Pos.iter xO p n)), IH, Pos2Z.inj_succ,
      Z.pow_succ_r by lia.
    lia.
Qed.

Lemma iter_pos_iter {A : Type} (f : A -> A) (n : positive) :
  forall x, iter_pos f n x = Pos.iter f x n.
Proof.
  induction n as [n IH|n IH|]; intro x; cbn [iter_pos Pos.iter].
  - now rewrite !IH, <- !Pos.iter_swap.
  - now rewrite !IH.
  - reflexivity.
Qed.

Lemma shr_exact (n : positive) :
  forall P : positive,
    iter_pos shr_1 n
      (Build_shr_record (Zpos (Pos.iter xO P n)) false false)
    = Build_shr_record (Zpos P) false false.
Proof.
  intro P. rewrite iter_pos_iter. revert P.
  induction n as [|n IH] using Pos.peano_ind; intro P.
  - reflexivity.
  - rewrite (Pos.iter_succ n _ xO), (Pos.iter_succ_r n _ shr_1).
    cbn [shr_1 orb]. apply IH.
Qed.

Lemma round_canonical (s : bool) (P : positive) (e : Z) :
  Zpos (digits2_pos P) = 53 -> -1074 <= e <= 971 ->
  binary_round_aux 53 1024 s (Zpos P) e loc_Exact = S754_finite s P e.
Proof.
  intros Hd He.
  unfold binary_round_aux, shr_fexp, fexp, emin, shr_record_of_loc, Zdigits2.
  rewrite Hd.
  replace (Z.max (53 + e - 53) (3 - 1024 - 53)) with e by lia.
  rewrite Z.sub_diag.
  cbn [shr shr_m loc_of_shr_record round_nearest_even shr_r shr_s].
  rewrite Hd.
  replace (Z.max (53 + e - 53) (3 - 1024 - 53)) with e by lia.
  rewrite Z.sub_diag. cbn [shr shr_m].
  replace (e <=? 1024 - 53) with true by (symmetry; apply Z.leb_le; lia).
  reflexivity.
Qed.

(** A mantissa with [n] more digits, all zero, is shifted back. *)
Lemma round_shifted (s : bool) (P n : positive) (e : Z) :
  Zpos (digits2_pos P) = 53 -> -1074 <= e + Zpos n <= 971 ->
  binary_round_aux 53 1024 s (Zpos (Pos.iter xO P n)) e loc_Exact
  = S754_finite s P (e + Zpos n).
Proof.
  intros Hd He.
  assert (Hdn : Zpos (digits2_pos (Pos.iter xO P n)) = 53 + Zpos n).
  { rewrite <- Hd. apply digits2_shifted; [lia | apply iter_xO_value]. }
  unfold binary_round_aux, shr_fexp, fexp, emin, shr_record_of_loc, Zdigits2.
  rewrite Hdn.
  replace (Z.max (53 + Zpos n + e - 53) (3 - 1024 - 53) - e) with (Zpos n)
    by lia.
  cbn [shr]. rewrite shr_exact.
  cbn [shr_m loc_of_shr_record round_nearest_even shr_r shr_s].
  rewrite Hd.
  replace (Z.max (53 + (e + Zpos n) - 53) (3 - 1024 - 53) - (e + Zpos n))
    with 0 by lia.
  cbn [shr shr_m].
  replace (e + Zpos n <=? 1024 - 53) with true by (symmetry; apply Z.leb_le; lia).
  reflexivity.
Qed.

Lemma safe_digits (p : positive) :
  Zpos p < 2 ^ 53 -> Zpos (digits2_pos p) <= 53.
Proof.
  intro Hp. destruct (digits2_bounds p) as [Hlo _].
  destruct (Z.le_gt_cases (Zpos (digits2_pos p)) 53) as [|Hgt]; [assumption|].
  assert (2 ^ 53 <= 2 ^ (Zpos (digits2_pos p) - 1))
    by (apply Z.pow_le_mono_r; lia).
  lia.
Qed.

Lemma mantissa_value (p : positive) :
  Zpos (digits2_pos p) <= 53 ->
  Zpos (mantissa p) = Zpos p * 2 ^ (53 - Zpos (digits2_pos p)).
Proof.
  intro Hd. unfold mantissa.
  destruct (53 - Zpos (digits2_pos p)) as [|n|n] eqn:E.
  - cbn. lia.
  - apply iter_xO_value.
  - lia.
Qed.

Lemma mantissa_digits (p : positive) :
  Zpos (digits2_pos p) <= 53 -> Zpos (digits2_pos (mantissa p)) = 53.
Proof.
  intro Hd.
  rewrite (digits2_shifted p (mantissa p) (53 - Zpos (digits2_pos p)));
    [lia | lia | now apply mantissa_value].
Qed.

(** Rounding an integer multiple of a power of two that fits in 53
    digits is exact. *)
Lemma round_exact (s : bool) (q p : positive) (k : Z) :
  0 <= k -> k <= 2000 -> Zpos q = Zpos p * 2 ^ k ->
  Zpos (digits2_pos p) <= 53 ->
  binary_round 53 1024 s q (- k) = S754_finite s (mantissa p) (exponent p).
Proof.
  intros Hk Hk' Hq Hd.
  pose proof (digits2_shifted p q k Hk Hq) as Hdq.
  pose proof (mantissa_value p Hd) as Hm.
  pose proof (mantissa_digits p Hd) as Hmd.
  assert (Hd1 : 1 <= Zpos (digits2_pos p)) by lia.
  unfold binary_round, fexp, emin. rewrite Hdq.
  replace (Z.max (Zpos (digits2_pos p) + k + - k - 53) (3 - 1024 - 53))
    with (exponent p) by (unfold exponent; lia).
  unfold shl_align.
  destruct (exponent p - - k) as [|n|n] eqn:E.
  - replace (- k) with (exponent p) by lia.
    replace q with (mantissa p).
    + apply round_canonical; [assumption | unfold exponent; lia].
    + apply Pos2Z.inj. rewrite Hm, Hq. f_equal. f_equal.
      unfold exponent in E. lia.
  - replace q with (Pos.iter xO (mantissa p) n).
    + replace (exponent p) with (- k + Zpos n) by lia.
      apply round_shifted; [assumption | unfold exponent in *; lia].
    + apply Pos2Z.inj. rewrite iter_xO_value, Hm, Hq, <- Z.mul_assoc.
      f_equal. rewrite <- Z.pow_add_r by lia. f_equal.
      unfold exponent in E. lia.
  - replace (Pos.iter xO q n) with (mantissa p).
    + apply round_canonical; [assumption | unfold exponent; lia].
    + apply Pos2Z.inj. rewrite iter_xO_value, Hm, Hq, <- Z.mul_assoc.
      f_equal. rewrite <- Z.pow_add_r by lia. f_equal.
      unfold exponent in E. lia.
Qed.

Lemma normalize_exact (m z k : Z) :
  0 <= k -> k <= 2000 -> m = z * 2 ^ k -> safeInteger z ->
  binary_normalize 53 1024 m (- k) false = double_of z.
Proof.
  intros Hk Hk' Hm [Hlo Hhi].
  assert (Hpow : 0 < 2 ^ k) by (apply Z.pow_pos_nonneg; lia).
  unfold binary_normalize.
  destruct m as [|q|q], z as [|p|p]; try (exfalso; nia); cbn [double_of].
  - reflexivity.
  - apply round_exact; try assumption. apply safe_digits. lia.
  - apply round_exact; try assumption.
    + change (Zpos q) with (- Zneg q). rewrite Hm.
      change (Zneg p) with (- Zpos p). lia.
    + apply safe_digits. change (Zneg p) with (- Zpos p) in Hlo. lia.
Qed.

Lemma Fin_double (z : Z) : safeInteger z -> Fin z = double_of z.
Proof.
  intro Hz. unfold Fin.
  apply (normalize_exact z z 0); [lia | lia | cbn; lia | assumption].
Qed.

Lemma shl_align_value (m : positive) (e e' : Z) :
  e' <= e ->
  Zpos (fst (shl_align m e e')) = Zpos m * 2 ^ (e - e').
Proof.
  intro Hle. unfold shl_align.
  destruct (e' - e) as [|n|n] eqn:E; cbn [fst].
  - replace (e - e') with 0 by lia. cbn. lia.
  - lia.
  - rewrite iter_xO_value. f_equal. f_equal. lia.
Qed.

(** The mantissa of the double of [p], moved down to the exponent [e]. *)
Lemma aligned_value (p : positive) (e : Z) :
  Zpos (digits2_pos p) <= 53 -> e <= exponent p ->
  Zpos (fst (shl_align (mantissa p) (exponent p) e)) = Zpos p * 2 ^ (- e).
Proof.
  intros Hd He.
  rewrite shl_align_value by assumption.
  rewrite (mantissa_value p Hd), <- Z.mul_assoc. f_equal.
  unfold exponent in *.
  rewrite <- Z.pow_add_r by lia. f_equal. lia.
Qed.

Lemma exponent_range (p : positive) :
  Zpos (digits2_pos p) <= 53 -> -52 <= exponent p <= 0.
Proof. unfold exponent. lia. Qed.

Lemma Fin_add (x y : Z) :
  safeInteger x -> safeInteger y -> safeInteger (x + y) ->
  num_add (Fin x) (Fin y) = Fin (x + y).
Proof.
  intros Hx Hy Hxy.
  rewrite (Fin_double x Hx), (Fin_double y Hy), (Fin_double (x + y) Hxy).
  unfold num_add.
  destruct x as [|px|px].
  { destruct y; reflexivity. }
  all: destruct y as [|py|py]; [reflexivity| |].
  all: unfold double_of at 1 2; unfold SFadd;
    set (ez := Z.min (exponent px) (exponent py)).
  all: assert (Hdx : Zpos (digits2_pos px) <= 53)
         by (apply safe_digits; unfold safeInteger in Hx; lia).
  all: assert (Hdy : Zpos (digits2_pos py) <= 53)
         by (apply safe_digits; unfold safeInteger in Hy; lia).
  all: pose proof (exponent_range px Hdx); pose proof (exponent_range py Hdy).
  all: rewrite (aligned_value px ez Hdx), (aligned_value py ez Hdy)
         by (unfold ez; lia).
  all: replace ez with (- - ez) at 3 by lia.
  all: apply normalize_exact; [unfold ez; lia | unfold ez; lia | | assumption].
  all: cbn [cond_Zopp]; lia.
Qed.

Lemma square_digits (p : positive) :
  2 * Zpos (digits2_pos p) - 1 <= Zpos (digits2_pos (p * p)).
Proof.
  destruct (digits2_bounds p) as [Hlo _].
  destruct (digits2_bounds (p * p)) as [_ Hhi].
  rewrite Pos2Z.inj_mul in Hhi.
  assert (Hd : 1 <= Zpos (digits2_pos p)) by lia.
  assert (Hsq : 2 ^ (2 * Zpos (digits2_pos p) - 2) <= Zpos p * Zpos p).
  { replace (2 * Zpos (digits2_pos p) - 2)
      with ((Zpos (digits2_pos p) - 1) + (Zpos (digits2_pos p) - 1)) by lia.
    rewrite Z.pow_add_r by lia.
    assert (0 < 2 ^ (Zpos (digits2_pos p) - 1))
      by (apply Z.pow_pos_nonneg; lia).
    nia. }
  destruct (Z.le_gt_cases (2 * Zpos (digits2_pos p) - 1)
              (Zpos (digits2_pos (p * p)))) as [|Hgt]; [assumption|].
  assert (2 ^ Zpos (digits2_pos (p * p)) <= 2 ^ (2 * Zpos (digits2_pos p) - 2))
    by (apply Z.pow_le_mono_r; lia).
  lia.
Qed.

Lemma Fin_square (x : Z) :
  safeInteger (x * x) -> num_mul (Fin x) (Fin x) = Fin (x * x).
Proof.
  intro Hxx.
  assert (Hx : safeInteger x) by (unfold safeInteger in *; nia).
  rewrite (Fin_double x Hx), (Fin_double (x * x) Hxx).
  unfold num_mul.
  assert (Hpos : forall (s : bool) (p : positive),
            Zpos (p * p) < 2 ^ 53 ->
            SFmul 53 1024 (S754_finite s (mantissa p) (exponent p))
              (S754_finite s (mantissa p) (exponent p))
            = S754_finite false (mantissa (p * p)) (exponent (p * p))).
  { intros s p Hp. cbn [SFmul]. rewrite xorb_nilpotent.
    assert (Hd2 : Zpos (digits2_pos (p * p)) <= 53) by now apply safe_digits.
    pose proof (square_digits p) as Hsq.
    assert (Hd : Zpos (digits2_pos p) <= 53) by lia.
    assert (Hd1 : 1 <= Zpos (digits2_pos p)) by lia.
    pose proof (mantissa_value p Hd) as Hm.
    pose proof (mantissa_value (p * p) Hd2) as Hm2.
    pose proof (mantissa_digits (p * p) Hd2) as Hmd2.
    destruct (53 - 2 * Zpos (digits2_pos p) + Zpos (digits2_pos (p * p)))
      as [|n|n] eqn:E; try lia.
    replace (mantissa p * mantissa p)%positive
      with (Pos.iter xO (mantissa (p * p)) n).
    - replace (exponent (p * p))
        with (exponent p + exponent p + Zpos n) by (unfold exponent; lia).
      apply round_shifted; [assumption | unfold exponent; lia].
    - apply Pos2Z.inj.
      rewrite iter_xO_value, Pos2Z.inj_mul, Hm, Hm2, Pos2Z.inj_mul.
      rewrite <- E.
      replace (53 - 2 * Zpos (digits2_pos p) + Zpos (digits2_pos (p * p)))
        with ((53 - Zpos (digits2_pos p)) + (53 - Zpos (digits2_pos p))
              - (53 - Zpos (digits2_pos (p * p)))) by lia.
      set (a := 53 - Zpos (digits2_pos p)).
      set (b := 53 - Zpos (digits2_pos (p * p))).
      assert (Ha : 0 <= a) by (unfold a; lia).
      assert (Hb : 0 <= b) by (unfold b; lia).
      assert (Hab : 0 <= a + a - b) by (unfold a, b; lia).
      rewrite <- Z.mul_assoc, <- Z.pow_add_r by lia.
      replace (b + (a + a - b)) with (a + a) by lia.
      rewrite Z.pow_add_r by lia. lia. }
  destruct x as [|p|p]; [reflexivity | |]; cbn [double_of Z.mul].
  - apply Hpos. unfold safeInteger in Hxx. cbn in Hxx. lia.
  - apply Hpos. unfold safeInteger in Hxx. cbn in Hxx. lia.
Qed.

Lemma digits_lt (p q : positive) :
  Zpos (digits2_pos p) < Zpos (digits2_pos q) -> (p < q)%positive.
Proof.
  intro Hd. destruct (digits2_bounds p) as [_ Hp].
  destruct (digits2_bounds q) as [Hq _].
  assert (2 ^ Zpos (digits2_pos p) <= 2 ^ (Zpos (digits2_pos q) - 1))
    by (apply Z.pow_le_mono_r; lia).
  lia.
Qed.

Lemma double_compare_pos (p q : positive) :
  Zpos (digits2_pos p) <= 53 -> Zpos (digits2_pos q) <= 53 ->
  match exponent p ?= exponent q with
  | Lt => Lt
  | Gt => Gt
  | Eq => Pos.compare_cont Eq (mantissa p) (mantissa q)
  end = (p ?= q)%positive.
Proof.
  intros Hp Hq. unfold exponent.
  destruct (Z.compare_spec (Zpos (digits2_pos p) - 53)
              (Zpos (digits2_pos q) - 53)) as [He | He | He].
  - change (Pos.compare_cont Eq (mantissa p) (mantissa q))
      with (Zpos (mantissa p) ?= Zpos (mantissa q)).
    rewrite (mantissa_value p Hp), (mantissa_value q Hq).
    replace (Zpos (digits2_pos q)) with (Zpos (digits2_pos p)) by lia.
    rewrite <- Zmult_compare_compat_r; [reflexivity|].
    apply Z.lt_gt, Z.pow_pos_nonneg; lia.
  - symmetry. apply Pos.compare_lt_iff. apply digits_lt. lia.
  - symmetry. apply Pos.compare_gt_iff. apply digits_lt. lia.
Qed.

Lemma Fin_compare (x y : Z) :
  safeInteger x -> safeInteger y ->
  SFcompare (Fin x) (Fin y) = Some (x ?= y).
Proof.
  intros Hx Hy. rewrite (Fin_double x Hx), (Fin_double y Hy).
  destruct x as [|p|p], y as [|q|q]; try reflexivity; cbn [double_of SFcompare].
  - f_equal. apply double_compare_pos; apply safe_digits;
      unfold safeInteger in *; lia.
  - f_equal. cbn [Z.compare].
    rewrite <- (double_compare_pos p q)
      by (apply safe_digits; unfold safeInteger in *; lia).
    now destruct (exponent p ?= exponent q).
Qed.

(** * Built-in reducers *)

Lemma safe_zero : safeInteger 0.
Proof. split; reflexivity. Qed.

Lemma exactSums_total (zs : list Z) :
  forall acc, safeInteger acc -> exactSums acc zs ->
              safeInteger (acc + total zs).
Proof.
  induction zs as [|z zs IH]; intros acc Hacc Hzs; cbn [total fold_right].
  - now rewrite Z.add_0_r.
  - destruct Hzs as (_ & Hz & Hrest). fold (total zs).
    rewrite Z.add_assoc. now apply IH.
Qed.

Lemma exactSums_app (xs ys : list Z) :
  forall acc, exactSums acc (xs ++ ys) ->
              exactSums acc xs /\ exactSums (acc + total xs) ys.
Proof.
  induction xs as [|x xs IH]; intros acc Hsum; cbn [app total fold_right].
  - rewrite Z.add_0_r. now split.
  - destruct Hsum as (Hx & Hax & Hrest). fold (total xs).
    destruct (IH (acc + x) Hrest) as [Hxs Hys].
    rewrite Z.add_assoc. cbn [exactSums]. auto.
Qed.

(** On numbers, [+] is the addition of doubles. *)
Lemma sum_from_doubles (ns : list number) :
  forall acc : number,
    fold_left jsAdd (map JNum ns) (JNum acc) = JNum (fold_left num_add ns acc).
Proof.
  induction ns as [|n ns IH]; intro acc; cbn [map fold_left].
  - reflexivity.
  - apply IH.
Qed.

Lemma sum_from_numbers (zs : list Z) :
  forall acc : Z,
    safeInteger acc -> exactSums acc zs ->
    fold_left jsAdd (numbers zs) (jnum acc) = jnum (acc + total zs).
Proof.
  induction zs as [|z zs IH]; intros acc Hacc Hzs;
    cbn [numbers map fold_left total fold_right].
  - now rewrite Z.add_0_r.
  - destruct Hzs as (Hz & Hsum & Hrest). fold (total zs) (numbers zs).
    change (jsAdd (jnum acc) (jnum z))
      with (JNum (num_add (Fin acc) (Fin z))).
    rewrite (Fin_add acc z Hacc Hz Hsum). fold (jnum (acc + z)).
    rewrite (IH (acc + z) Hsum Hrest). now rewrite Z.add_assoc.
Qed.

Lemma sum_numbers (zs : list Z) :
  exactSums 0 zs -> sum (numbers zs) = jnum (total zs).
Proof.
  intro Hzs. unfold sum.
  now rewrite (sum_from_numbers zs 0 safe_zero Hzs).
Qed.

Lemma append_empty (s : string) : (s ++ EmptyString)%string = s.
Proof. induction s; simpl; congruence. Qed.

Lemma append_assoc (x y z : string) :
  ((x ++ y) ++ z)%string = (x ++ (y ++ z))%string.
Proof. induction x; simpl; congruence. Qed.

Lemma concat_cons (x : string) (xs : list string) :
  String.concat EmptyString (x :: xs)
  = (x ++ String.concat EmptyString xs)%string.
Proof.
  destruct xs; simpl.
  - now rewrite append_empty.
  - reflexivity.
Qed.

Lemma sum_from_string_arrays (arrays : list (list jsval)) (s : string) :
  fold_left jsAdd (map JArr arrays) (JStr s)
  = JStr (s ++ String.concat EmptyString (map (fun a => toStr (JArr a)) arrays)).
Proof.
  revert s.
  induction arrays as [|a arrays IH]; intro s.
  - simpl. now rewrite append_empty.
  - cbn [map fold_left].
    change (jsAdd (JStr s) (JArr a)) with (JStr (s ++ toStr (JArr a))).
    now rewrite IH, concat_cons, append_assoc.
Qed.

(** C8, as the code has it.  On numbers [_sum] is the numeric sum: the
    values added to 0 one after the other, in the arithmetic of the
    doubles, and so the exact sum of integer values as long as no
    partial sum leaves the safe integers.  On a non-empty list of
    arrays it is not a component-wise sum but the string that [+]
    builds, ["0"] followed by the comma-joined text of each array. *)
Theorem sum_builtin (keys : jsval) :
  (forall ns : list number,
      _sum keys (map JNum ns) = Normal (JNum (floatSum ns)))
  /\ (forall zs : list Z,
         exactSums 0 zs -> _sum keys (numbers zs) = Normal (jnum (total zs)))
  /\ (forall (first : list jsval) (others : list (list jsval)),
         _sum keys (map JArr (first :: others))
         = Normal (JStr ("0" ++ String.concat EmptyString
                                  (map (fun a => toStr (JArr a))
                                       (first :: others))))).
Proof.
  split; [|split].
  - intro ns. unfold _sum, sum, floatSum, jnum.
    now rewrite sum_from_doubles.
  - intros zs Hzs. unfold _sum. now rewrite sum_numbers.
  - intros first others. unfold _sum, sum. f_equal.
    cbn [map fold_left].
    change (jsAdd (jnum 0) (JArr first)) with (JStr ("0" ++ toStr (JArr first))).
    now rewrite sum_from_string_arrays, concat_cons, append_assoc.
Qed.

(** C8, as stated, fails on arrays: the sum of [[1,2]] and [[3,4]] is the
    string ["01,23,4"], not [[4,6]]. *)
Lemma sum_of_arrays_is_text :
  _sum JNull [JArr [jnum 1; jnum 2]; JArr [jnum 3; jnum 4]]
  = Normal (JStr "01,23,4")
  /\ _sum JNull [JArr [jnum 1; jnum 2]; JArr [jnum 3; jnum 4]]
     <> Normal (JArr [jnum 4; jnum 6]).
Proof. split; [vm_compute; reflexivity | discriminate]. Qed.

(** The sum is the sum of the doubles: 2^53 + 1 is 2^53, and the
    sum of a tenth and two tenths is not three tenths. *)
Example sum_rounds :
  _sum JNull [jnum (2 ^ 53); jnum 1] = Normal (jnum (2 ^ 53))
  /\ toStr (sum [JNum (SFdiv 53 1024 (Fin 1) (Fin 10));
                 JNum (SFdiv 53 1024 (Fin 2) (Fin 10))])
     = "0.30000000000000004".
Proof. split; vm_compute; reflexivity. Qed.

Lemma total_app (xs ys : list Z) : total (xs ++ ys) = total xs + total ys.
Proof. induction xs as [|x xs IH]; simpl; lia. Qed.

(** [_sum] commutes with rereduce on integer values, as long as the
    sums are exact. *)
Lemma sum_rereduce_commutes (V1 V2 : list Z) :
  exactSums 0 V1 -> exactSums 0 V2 -> exactSums 0 (V1 ++ V2) ->
  rereduced (fun k v _ => _sum k v) (numbers V1) (numbers V2)
  = _sum JNull (numbers (V1 ++ V2)).
Proof.
  intros H1 H2 H12.
  pose proof (exactSums_total V1 0 safe_zero H1) as Ht1.
  pose proof (exactSums_total V2 0 safe_zero H2) as Ht2.
  pose proof (exactSums_total (V1 ++ V2) 0 safe_zero H12) as Ht.
  rewrite total_app in Ht. cbn [Z.add] in Ht1, Ht2, Ht.
  unfold rereduced, _sum. cbn [cbind]. f_equal.
  rewrite (sum_numbers V1 H1), (sum_numbers V2 H2), (sum_numbers _ H12).
  rewrite total_app.
  change [jnum (total V1); jnum (total V2)]
    with (numbers [total V1; total V2]).
  rewrite sum_numbers.
  - cbn [total fold_right]. now rewrite Z.add_0_r.
  - cbn [exactSums Z.add]. auto.
Qed.

(** [_count] does not look at [rereduce]: on two partial counts it
    answers 2, whatever they count. *)
Lemma count_rereduce_is_length (V1 V2 : list jsval) :
  rereduced (fun k v _ => _count k v) V1 V2 = Normal (jnum 2).
Proof. reflexivity. Qed.

Section Stats.
Context `{Host}.

Lemma sumsqr_from_doubles (ns : list number) :
  forall acc : number,
    sumsqr_from acc (map JNum ns)
    = JNum (fold_left (fun a n => num_add a (num_mul n n)) ns acc).
Proof.
  induction ns as [|n ns IH]; intro acc; cbn [map sumsqr_from fold_left].
  - reflexivity.
  - apply IH.
Qed.

Lemma sumOfSquares_nonneg (zs : list Z) : 0 <= sumOfSquares zs.
Proof.
  induction zs as [|z zs IH]; cbn [sumOfSquares fold_right]; [lia|].
  fold (sumOfSquares zs). nia.
Qed.

Lemma sumsqr_from_numbers (zs : list Z) :
  forall acc : Z,
    0 <= acc -> acc + sumOfSquares zs < 2 ^ 53 ->
    sumsqr_from (Fin acc) (numbers zs) = jnum (acc + sumOfSquares zs).
Proof.
  induction zs as [|z zs IH]; intros acc Hacc Hsum;
    cbn [numbers map sumsqr_from sumOfSquares fold_right] in *.
  - now rewrite Z.add_0_r.
  - fold (sumOfSquares zs) (numbers zs) in *.
    pose proof (sumOfSquares_nonneg zs) as Hzs.
    assert (Hpow : 0 < 2 ^ 53) by reflexivity.
    assert (Hzz : safeInteger (z * z)) by (unfold safeInteger; nia).
    unfold jnum at 1. cbn [sumsqr_from].
    rewrite (Fin_square z Hzz).
    rewrite (Fin_add acc (z * z)) by (unfold safeInteger in *; nia).
    rewrite (IH (acc + z * z)) by nia.
    now rewrite Z.add_assoc.
Qed.

(** The sum of the squares as the code computes it. *)
Lemma sumsqr_doubles (ns : list number) :
  sumsqr (map JNum ns) = JNum (floatSumsqr ns).
Proof. unfold sumsqr, floatSumsqr. apply sumsqr_from_doubles. Qed.

(** The rereduce of [_stats] adds the sums and the counts, but the
    [sumsqr] it stores is the sum of the squares of the two partial
    [sumsqr] values. *)
Lemma stats_rereduce_fields (V1 V2 : list number) :
  rereduced _stats (map JNum V1) (map JNum V2)
  = Normal
      (JObj [ ("sum", JNum (num_add (floatSum V1) (floatSum V2)));
              ("min", JNum (num_min (Math_min (map JNum V1))
                                    (Math_min (map JNum V2))));
              ("max", JNum (num_max (Math_max (map JNum V1))
                                    (Math_max (map JNum V2))));
              ("count", JNum (num_add (Fin (Z.of_nat (List.length V1)))
                                      (Fin (Z.of_nat (List.length V2)))));
              ("sumsqr", JNum (floatSumsqr [floatSumsqr V1;
                                            floatSumsqr V2])) ]).
Proof.
  unfold rereduced, _stats. cbn [cbind stats_rereduce].
  rewrite !sumsqr_doubles. unfold sum, jnum.
  rewrite !sum_from_doubles, !length_map.
  reflexivity.
Qed.

(** C5 at work: with [_count], reducing [1,2] and [3] and rereducing
    gives 2 where the direct reduce gives 3; with [_stats], reducing
    [1] and [3] and rereducing gives [sumsqr] 82 where the direct
    reduce gives 10. *)
Theorem rereduce_diverges :
  rereduced (fun k v _ => _count k v) (numbers [1; 2]) (numbers [3])
  = Normal (jnum 2)
  /\ _count JNull (numbers [1; 2; 3]) = Normal (jnum 3)
  /\ rereduced _stats (numbers [1]) (numbers [3])
     = Normal (JObj [ ("sum", jnum 4); ("min", jnum 1); ("max", jnum 3);
                      ("count", jnum 2); ("sumsqr", jnum 82) ])
  /\ _stats JNull (numbers [1; 3]) false
     = Normal (JObj [ ("sum", jnum 4); ("min", jnum 1); ("max", jnum 3);
                      ("count", jnum 2); ("sumsqr", jnum 10) ]).
Proof. repeat split. Qed.
End Stats.

(** * Running programs *)

Lemma run_bind {S A B : Type} (h : handler S) (p : prog A) (f : A -> prog B)
  (s : S) :
  run h (bind p f) s
  = let '(t1, s1, a) := run h p s in
    let '(t2, s2, b) := run h (f a) s1 in
    ((t1 ++ t2)%list, s2, b).
Proof.
  revert s.
  induction p as [a | o k IH]; intro s; simpl.
  - now destruct (run h (f a) s) as [[t2 s2] b].
  - destruct (h o s) as [r s1].
    rewrite IH.
    destruct (run h (k r) s1) as [[t1 s2] a].
    now destruct (run h (f a) s2) as [[t2 s3] b].
Qed.

Lemma emitted_app (t1 t2 : list io) :
  emitted (t1 ++ t2) = (emitted t1 ++ emitted t2)%list.
Proof. unfold emitted. now rewrite flat_map_app. Qed.

Lemma written_app (t1 t2 : list io) :
  written (t1 ++ t2) = (written t1 ++ written t2)%list.
Proof. unfold written. now rewrite flat_map_app. Qed.

Lemma scans_cons_scan (o : op) (r : resp o) (t : list io) :
  is_scan o = true -> scans (Io o r :: t) = o :: scans t.
Proof. intro Ho. unfold scans. cbn [List.map op_of filter]. now rewrite Ho. Qed.

Lemma scanAnswers_cons (db : string) (o : indexOpts)
  (r : resp (IndexAllDocs db o)) (t : list io) :
  scanAnswers (Io (IndexAllDocs db o) r :: t) = r :: scanAnswers t.
Proof. reflexivity. Qed.

(** * Objects *)

Lemma keysOf_assoc_set {V : Type} (k : string) (v : V) (o : list (string * V))
  (id : string) :
  In id (keysOf (assoc_set k v o)) <-> id = k \/ In id (keysOf o).
Proof.
  unfold keysOf.
  induction o as [|[k' v'] o IH]; simpl.
  - intuition.
  - destruct (String.eqb k k') eqn:E; simpl.
    + apply String.eqb_eq in E. subst k'. intuition.
    + rewrite IH. intuition.
Qed.

Lemma assoc_in_keys {V : Type} (id : string) (o : list (string * V)) :
  In id (keysOf o) <-> exists v, assoc id o = Some v.
Proof.
  unfold keysOf.
  induction o as [|[k v] o IH]; simpl.
  - split; [intros [] | intros [v Hv]; discriminate].
  - destruct (String.eqb id k) eqn:E.
    + apply String.eqb_eq in E. subst k. split; eauto.
    + apply String.eqb_neq in E. rewrite <- IH.
      split; [intros [Hk | Hin]; [congruence | assumption] | auto].
Qed.

Lemma assoc_some_in {V : Type} (id : string) (v : V) (o : list (string * V)) :
  assoc id o = Some v -> In (id, v) o.
Proof.
  induction o as [|[k v'] o IH]; simpl; [discriminate|].
  destruct (String.eqb id k) eqn:E.
  - apply String.eqb_eq in E. intro Hv. left. congruence.
  - auto.
Qed.

Lemma mem_in (k : string) (l : list string) : mem k l = true <-> In k l.
Proof.
  unfold mem. rewrite existsb_exists. split.
  - intros [x [Hin Heq]]. apply String.eqb_eq in Heq. now subst.
  - intro Hin. exists k. split; [assumption | apply String.eqb_refl].
Qed.

(** * The updater: what one change writes *)

Section CallMapFun.
Context `{Host} `{Collate} `{Evaluator}.

Lemma emit_from (docId : string) (emits : list (jsval * jsval)) (i0 : nat)
  (o0 : list (string * row)) (id : string) :
  In id (keysOf (snd (fold_left (emit docId) emits (i0, o0))))
  <-> In id (keysOf o0)
      \/ exists n key value,
           nth_error emits n = Some (key, value)
           /\ id = compositeKey key docId value (i0 + n).
Proof.
  revert i0 o0.
  induction emits as [|[key value] emits IH]; intros i0 o0.
  - simpl. split; [auto|].
    intros [Hin | (n & k & v & Hn & _)]; [assumption|].
    now destruct n.
  - cbn [fold_left emit]. rewrite IH, keysOf_assoc_set. split.
    + intros [[Hid | Hin] | (n & k & v & Hn & Hid)].
      * right. exists 0%nat, key, value. rewrite Nat.add_0_r. now split.
      * now left.
      * right. exists (S n), k, v. split; [assumption|].
        now rewrite Nat.add_succ_r.
    + intros [Hin | (n & k & v & Hn & Hid)].
      * left. now right.
      * destruct n as [|n]; simpl in Hn.
        -- injection Hn as -> ->. rewrite Nat.add_0_r in Hid. left. now left.
        -- right. exists n, k, v. split; [assumption|].
           now rewrite Nat.add_succ_r in Hid.
Qed.

(** The keys of [indexableKeysToKeyValues] after [map] has run are the
    composite keys of the [emit] calls, numbered from 0. *)
Lemma emitAll_keys (docId : string) (emits : list (jsval * jsval))
  (id : string) :
  In id (keysOf (snd (emitAll docId emits)))
  <-> exists n key value,
        nth_error emits n = Some (key, value)
        /\ id = compositeKey key docId value n.
Proof.
  unfold emitAll. rewrite emit_from. simpl. intuition.
Qed.

Lemma addReduceOutputs_keys (reduceFun : reducer) (o o' : list (string * row)) :
  addReduceOutputs reduceFun o = Normal o' -> keysOf o' = keysOf o.
Proof.
  revert o'.
  induction o as [|[k kv] o IH]; intros o'; simpl.
  - now intros [= <-].
  - destruct (reduceFun _ _ _) as [out|]; [|discriminate]. simpl.
    destruct (addReduceOutputs reduceFun o) as [rest|]; [|discriminate].
    simpl. intros [= <-]. simpl. f_equal. now apply IH.
Qed.

(** In a batch the live key/value documents are those of the emitted
    keys: a fetched document whose key is emitted again is rewritten,
    the others are tombstoned, and every emitted key that was not
    fetched gets a new document. *)
Lemma buildBatch_live (o : list (string * row)) (docId : string)
  (metaKeys : list string) (seq : Z) (kvDocs : list (string * row))
  (id : string) :
  (exists v, In (KvDoc id v false) (buildBatch o docId metaKeys seq kvDocs))
  <-> In id (keysOf o).
Proof.
  unfold buildBatch. split.
  - intros [v Hin].
    rewrite !in_app_iff in Hin.
    destruct Hin as [Hin | [Hin | Hin]].
    + apply in_map_iff in Hin. destruct Hin as [[k old] [Hmark _]].
      unfold markOld in Hmark. simpl in Hmark.
      destruct (assoc k o) as [v'|] eqn:E; [|discriminate].
      injection Hmark as -> _. apply assoc_in_keys. eauto.
    + apply in_map_iff in Hin. destruct Hin as [[k v'] [Heq Hin]].
      simpl in Heq. injection Heq as -> _.
      apply filter_In in Hin. destruct Hin as [Hin _].
      unfold keysOf. apply in_map_iff. now exists (id, v').
    + simpl in Hin. destruct Hin as [Hin | [Hin | []]]; discriminate.
  - intro Hin.
    destruct (proj1 (assoc_in_keys id o) Hin) as [v Hv].
    exists v. rewrite !in_app_iff.
    destruct (mem id (List.map fst kvDocs)) eqn:E.
    + left. apply mem_in, in_map_iff in E. destruct E as [[k old] [Hk Hold]].
      simpl in Hk. subst k.
      apply in_map_iff. exists (id, old). split; [|assumption].
      unfold markOld. simpl. now rewrite Hv.
    + right. left. apply in_map_iff. exists (id, v). split; [reflexivity|].
      apply filter_In. split; [now apply assoc_some_in|].
      simpl. now rewrite E.
Qed.

Lemma buildBatch_lastSeq (o : list (string * row)) (docId : string)
  (metaKeys : list string) (seq : Z) (kvDocs : list (string * row)) :
  In (LastSeqDoc "_local/lastSeq" seq)
     (buildBatch o docId metaKeys seq kvDocs).
Proof.
  unfold buildBatch. rewrite !in_app_iff. right. right. simpl. auto.
Qed.

Lemma diffAndWrite_trace {S : Type} (h : handler S) (s : S)
  (index : Index) (o : list (string * row)) (docId : string) (seq : Z)
  (metaKeys : list string) :
  batchOnly o docId seq
    (trace_of (run h (diffAndWrite index o docId seq metaKeys) s)).
Proof.
  unfold diffAndWrite, writeBatch, trace_of, batchOnly.
  cbn [bind call run].
  destruct (h (IndexAllDocsKeys (idx_name index) metaKeys) s) as [r s1].
  destruct r as [err | found]; cbn [bind call run].
  - cbn. split; [reflexivity | contradiction].
  - destruct (h (IndexBulkDocs (idx_name index) _) s1) as [r s2].
    cbn. split; [reflexivity|].
    intros docs [<- | []]. eauto.
Qed.

Lemma withMetaDoc_trace {S : Type} (h : handler S) (s : S)
  (index : Index) (o : list (string * row)) (docId : string) (seq : Z) :
  batchOnly o docId seq
    (trace_of (run h (withMetaDoc index o docId seq) s)).
Proof.
  unfold withMetaDoc, trace_of. cbn [bind call run].
  destruct (h (IndexGetMeta (idx_name index) docId) s) as [r s1].
  assert (Hnext := fun keys => diffAndWrite_trace h s1 index o docId seq keys).
  unfold trace_of, batchOnly in Hnext |- *.
  destruct r as [err | keys]; [destruct (not_found err)|].
  - specialize (Hnext []).
    destruct (run h (diffAndWrite index o docId seq []) s1) as [[t s2] a].
    exact Hnext.
  - cbn. split; [reflexivity | contradiction].
  - specialize (Hnext keys).
    destruct (run h (diffAndWrite index o docId seq keys) s1) as [[t s2] a].
    exact Hnext.
Qed.

(** After [map], a change makes no further call to [map], and what it
    writes is one batch built from the object it was given. *)
Lemma withLastSeqDoc_trace {S : Type} (h : handler S) (s : S)
  (index : Index) (o : list (string * row)) (docId : string) (seq : Z) :
  batchOnly o docId seq
    (trace_of (run h (withLastSeqDoc index o docId seq) s)).
Proof.
  unfold withLastSeqDoc, trace_of. cbn [bind call run].
  destruct (h (IndexGetLastSeq (idx_name index)) s) as [r s1].
  assert (Hnext := withMetaDoc_trace h s1 index o docId seq).
  unfold trace_of, batchOnly in Hnext |- *.
  destruct r as [err | seq0]; [destruct (not_found err)|].
  - destruct (run h (withMetaDoc index o docId seq) s1) as [[t s2] a].
    exact Hnext.
  - cbn. split; [reflexivity | contradiction].
  - destruct (run h (withMetaDoc index o docId seq) s1) as [[t s2] a].
    exact Hnext.
Qed.

(** Every batch that [callMapFun] writes is built from an object whose
    keys are the composite keys of the [emit] calls of the run. *)
Lemma callMapFun_writes {S : Type} (h : handler S) (s : S)
  (index : Index) (doc : change) (seq : Z) (docs : list storeDoc) :
  let t := trace_of (run h (callMapFun index doc seq) s) in
  In docs (written t) ->
  exists o metaKeys kvDocs,
    docs = buildBatch o (doc_id (ch_doc doc)) metaKeys seq kvDocs
    /\ forall id : string,
         In id (keysOf o)
         <-> (exists n key value,
                 nth_error (List.concat (emitted t)) n = Some (key, value)
                 /\ id = compositeKey key (doc_id (ch_doc doc)) value n).
Proof.
  unfold callMapFun, trace_of. rewrite run_bind.
  unfold mapDoc.
  destruct (ch_deleted doc).
  - cbn [run].
    assert (Hnext := withLastSeqDoc_trace h s index [] (doc_id (ch_doc doc)) seq).
    unfold trace_of, batchOnly in Hnext.
    destruct (run h (withLastSeqDoc index [] _ seq) s) as [[t s1] a].
    cbn [fst app]. cbn [fst] in Hnext. destruct Hnext as [Hemit Hbatch].
    intros Hin. rewrite Hemit.
    destruct (Hbatch docs Hin) as (metaKeys & kvDocs & ->).
    exists [], metaKeys, kvDocs. split; [reflexivity|].
    intro id. cbn. split; [intros [] |].
    intros (n & k & v & Hn & _). now destruct n.
  - cbn [bind call run].
    destruct (h (CallMap (idx_mapFun index) (doc_body (ch_doc doc))) s)
      as [emits s1].
    set (o := snd (emitAll (doc_id (ch_doc doc)) emits)).
    assert (Hkeys : forall o',
      match resolveReduce (idx_reduceFun index) with
      | Some reduceFun => addReduceOutputs reduceFun o
      | None => Normal o
      end = Normal o' -> keysOf o' = keysOf o).
    { intro o'. destruct (resolveReduce (idx_reduceFun index)).
      - apply addReduceOutputs_keys.
      - now intros [= <-]. }
    destruct (match resolveReduce (idx_reduceFun index) with
              | Some reduceFun => addReduceOutputs reduceFun o
              | None => Normal o
              end) as [o'|w] eqn:E.
    + assert (Hrun :
        run h match resolveReduce (idx_reduceFun index) with
              | Some reduceFun => Ret (addReduceOutputs reduceFun o)
              | None => Ret (Normal o)
              end s1 = ([], s1, Normal o')).
      { destruct (resolveReduce (idx_reduceFun index)); cbn; now rewrite E. }
      rewrite Hrun.
      assert (Hnext := withLastSeqDoc_trace h s1 index o'
                         (doc_id (ch_doc doc)) seq).
      unfold trace_of, batchOnly in Hnext.
      destruct (run h (withLastSeqDoc index o' _ seq) s1) as [[t s2] a].
      cbn [fst app] in *. destruct Hnext as [Hemit Hbatch].
      intros Hin.
      change (Io (CallMap (idx_mapFun index) (doc_body (ch_doc doc))) emits :: t)
        with ([Io (CallMap (idx_mapFun index) (doc_body (ch_doc doc))) emits]
              ++ t)%list in *.
      rewrite emitted_app, Hemit. rewrite written_app in Hin.
      cbn in Hin |- *. rewrite app_nil_r.
      destruct (Hbatch docs Hin) as (metaKeys & kvDocs & ->).
      exists o', metaKeys, kvDocs. split; [reflexivity|].
      intro id. rewrite (Hkeys o' eq_refl). apply emitAll_keys.
    + assert (Hrun :
        run h match resolveReduce (idx_reduceFun index) with
              | Some reduceFun => Ret (addReduceOutputs reduceFun o)
              | None => Ret (Normal o)
              end s1 = ([], s1, Throw w)).
      { destruct (resolveReduce (idx_reduceFun index)); cbn; now rewrite E. }
      rewrite Hrun. cbn. contradiction.
Qed.

(** C1.  For every batch that [callMapFun] writes for a document, the
    live key/value records of the batch are exactly the records whose
    [_id] is [toIndexableString([key, docId, value, n])] for the [n]-th
    call of [emit] (counted from 0) in the [map] invocation for that
    document. *)
Theorem emit_composite_key {S : Type} (h : handler S) (s : S)
  (index : Index) (doc : change) (seq : Z) (docs : list storeDoc) :
  let t := trace_of (run h (callMapFun index doc seq) s) in
  In docs (written t) ->
  forall id : string,
    (exists v, In (KvDoc id v false) docs)
    <-> (exists n key value,
            nth_error (List.concat (emitted t)) n = Some (key, value)
            /\ id = compositeKey key (doc_id (ch_doc doc)) value n).
Proof.
  intros t Hin id.
  destruct (callMapFun_writes h s index doc seq docs Hin)
    as (o & metaKeys & kvDocs & -> & Hkeys).
  rewrite buildBatch_live. apply Hkeys.
Qed.

(** Every batch carries the [_local/lastSeq] record, set to the [seq]
    of the change being processed. *)
Lemma callMapFun_lastSeq {S : Type} (h : handler S) (s : S)
  (index : Index) (doc : change) (seq : Z) (docs : list storeDoc) :
  In docs (written (trace_of (run h (callMapFun index doc seq) s))) ->
  In (LastSeqDoc "_local/lastSeq" seq) docs.
Proof.
  intro Hin.
  destruct (callMapFun_writes h s index doc seq docs Hin)
    as (o & metaKeys & kvDocs & -> & _).
  apply buildBatch_lastSeq.
Qed.
End CallMapFun.

(** * The updater: a whole run *)

Section UpdateRun.
Context `{Host} `{Collate} `{Evaluator}.

Lemma processChange_end {W : Type} (h : handler W) (s : W) (index : Index)
  (u : ustate) (doc : change) :
  let x := run h (processChange index u doc) s in
  (te_numFinished (value_of x) <= S (u_numFinished u))%nat
  /\ forall docs, In docs (written (trace_of x)) ->
       In (LastSeqDoc "_local/lastSeq" (ch_seq doc)) docs.
Proof.
  unfold processChange, value_of, trace_of.
  destruct (starts_with_underscore (ch_id doc)).
  { cbn. split; [lia | contradiction]. }
  destruct (ch_seq doc <? u_seq u).
  { cbn. split; [lia | contradiction]. }
  rewrite run_bind.
  assert (Hw := callMapFun_lastSeq h s index doc (ch_seq doc)).
  unfold trace_of in Hw.
  destruct (run h (callMapFun index doc (ch_seq doc)) s) as [[t s1] r].
  cbn [fst] in Hw.
  destruct r as [[err|]|w]; cbn; rewrite app_nil_r; (split; [lia | exact Hw]).
Qed.

(** The guard of [processChange] is strict: a change whose [seq] is
    [index.seq] itself goes to [map], whatever the environment. *)
Lemma processChange_at_seq {W : Type} (h : handler W) (s : W) (index : Index)
  (u : ustate) (doc : change) :
  starts_with_underscore (ch_id doc) = false ->
  ch_deleted doc = false ->
  ch_seq doc = u_seq u ->
  emitted (trace_of (run h (processChange index u doc) s))
  = [fst (h (CallMap (idx_mapFun index) (doc_body (ch_doc doc))) s)].
Proof.
  intros Hid Hdel Hseq. unfold processChange.
  rewrite Hid, Hseq, Z.ltb_irrefl.
  unfold callMapFun, mapDoc. rewrite Hdel.
  rewrite !run_bind. cbn [bind call run].
  destruct (h (CallMap (idx_mapFun index) (doc_body (ch_doc doc))) s)
    as [emits s1].
  cbn [fst].
  set (reduced := match resolveReduce (idx_reduceFun index) with
                  | Some reduceFun => Ret (addReduceOutputs reduceFun _)
                  | None => Ret (Normal _)
                  end).
  assert (Hreduced : exists o, run h reduced s1 = ([], s1, o)).
  { unfold reduced. destruct (resolveReduce (idx_reduceFun index)); cbn; eauto. }
  destruct Hreduced as [o ->].
  destruct o as [o|w].
  - destruct (withLastSeqDoc_trace h s1 index o (doc_id (ch_doc doc))
                (u_seq u)) as [Hemit _].
    unfold trace_of in *.
    destruct (run h (withLastSeqDoc index o _ (u_seq u)) s1) as [[t s2] r].
    cbn [fst snd app] in *.
    destruct r as [[err|]|w]; cbn [run fst];
      rewrite app_nil_r; unfold emitted in *; cbn [flat_map app];
      now rewrite Hemit.
  - reflexivity.
Qed.

Lemma checkComplete_updating (seq0 : Z) (feed0 : list change) (u : ustate) :
  (u_numFinished u + List.length (u_queue u) <= u_numStarted u)%nat ->
  (u_complete u = true -> u_feed u = []) ->
  incl (u_queue u ++ u_feed u) feed0 ->
  match u_gotError u with
  | None => u_reportedError u = false /\ u_calls u = [] /\ u_seq u = seq0
  | Some _ =>
      u_seq u = seq0
      /\ ((u_reportedError u = false /\ u_calls u = [])
          \/ (u_reportedError u = true /\ exists e, u_calls u = [Some e]))
  end ->
  updating seq0 feed0 (checkComplete u).
Proof.
  intros Hcount Hfeed Hincl Hst.
  unfold updating, checkComplete.
  destruct u as [seq lastSeq gotError reported complete nS nF feed queue stuck calls].
  cbn in *.
  destruct gotError as [e|].
  - destruct Hst as [Hseq [[-> ->] | [-> [e' ->]]]]; cbn; eauto 10.
  - destruct Hst as (-> & -> & ->).
    destruct (complete && Nat.eqb nS nF) eqn:E; cbn.
    + apply andb_true_iff in E. destruct E as [-> E].
      apply Nat.eqb_eq in E. subst nF. intuition.
    + intuition.
Qed.

Lemma step_updating {W : Type} (h : handler W) (s : W) (index : Index)
  (seq0 : Z) (feed0 : list change) (ev : event) (u : ustate) :
  updating seq0 feed0 u ->
  let x := run h (step index ev u) s in
  updating seq0 feed0 (value_of x) /\ lastSeqFollows feed0 (trace_of x).
Proof.
  intros (Hcount & Hfeed & Hincl & Hst).
  assert (Hsame : updating seq0 feed0 u) by (unfold updating; auto).
  assert (Hnone : lastSeqFollows feed0 []) by (intros docs []).
  destruct ev; unfold step, value_of, trace_of.
  - (* Deliver *)
    destruct (u_feed u) as [|doc feed] eqn:Efeed; [cbn; auto|].
    destruct (u_complete u) eqn:Ecomplete;
      [specialize (Hfeed eq_refl); discriminate|].
    cbn. split; [|assumption].
    unfold updating, addTask. cbn.
    repeat split.
    + rewrite length_app. cbn. lia.
    + discriminate.
    + intros c Hc. apply Hincl. rewrite !in_app_iff in *. cbn in *.
      intuition.
    + destruct (u_gotError u); [assumption|].
      destruct Hst as [Hrep [Hcalls | (_ & Habs & _)]]; [auto | discriminate].
  - (* RunTask *)
    unfold nextTask.
    destruct (u_stuck u); [cbn; auto|].
    destruct (u_queue u) as [|doc rest] eqn:Equeue; [cbn; auto|].
    rewrite run_bind.
    assert (Hend := processChange_end h s index u doc).
    unfold value_of, trace_of in Hend.
    destruct (run h (processChange index u doc) s) as [[t s1] e].
    cbn [fst snd] in Hend. destruct Hend as [HnF Hw].
    cbn [run]. cbn [fst snd]. rewrite app_nil_r.
    assert (Hin : In doc feed0).
    { apply Hincl. now left. }
    split; [|intros docs Hd; exists doc; auto].
    assert (Hincl' : incl (rest ++ u_feed u) feed0).
    { intros c Hc. apply Hincl. now right. }
    cbn in Hcount.
    assert (Hfirst :
      u_gotError u = None -> u_reportedError u = false
                             /\ u_calls u = [] /\ u_seq u = seq0).
    { intro Eerr. rewrite Eerr in Hst.
      destruct Hst as [Hrep [[Hc Hs] | (_ & _ & Heq)]]; [auto|].
      lia. }
    unfold taskCallback.
    destruct (te_cb e) as [err|w].
    + apply checkComplete_updating; cbn; try assumption; try lia.
      destruct err as [err|].
      * destruct (u_gotError u) as [g|] eqn:Eerr.
        -- destruct Hst as (Hrep & Hcalls & Hseq). auto.
        -- destruct (Hfirst eq_refl) as (Hrep & Hcalls & Hseq). auto.
      * destruct (u_gotError u) as [g|] eqn:Eerr.
        -- destruct Hst as (Hrep & Hcalls & Hseq). auto.
        -- now apply Hfirst.
    + unfold updating. cbn. repeat split; try assumption; try lia.
      destruct (u_gotError u) as [g|] eqn:Eerr; [assumption|].
      destruct (Hfirst eq_refl) as (Hrep & Hcalls & Hseq). auto.
  - (* Complete *)
    destruct (u_feed u) as [|doc feed] eqn:Efeed; [|cbn; auto].
    destruct (u_complete u) eqn:Ecomplete; cbn; [auto|].
    split; [|assumption].
    apply checkComplete_updating; cbn; try assumption.
    + reflexivity.
    + destruct (u_gotError u).
      * destruct Hst as (Hrep & Hcalls & Hseq). auto.
      * destruct Hst as [Hrep [[Hc Hs] | (_ & Habs & _)]];
          [auto | discriminate].
Qed.

Lemma lastSeqFollows_app (feed0 : list change) (t1 t2 : list io) :
  lastSeqFollows feed0 t1 -> lastSeqFollows feed0 t2 ->
  lastSeqFollows feed0 (t1 ++ t2).
Proof.
  intros H1' H2' docs Hin. rewrite written_app in Hin.
  apply in_app_iff in Hin. destruct Hin; auto.
Qed.

Lemma updateLoop_updating {W : Type} (h : handler W) (index : Index)
  (seq0 : Z) (feed0 : list change) (sched : list event) :
  forall (s : W) (u : ustate),
    updating seq0 feed0 u ->
    let x := run h (updateLoop index sched u) s in
    updating seq0 feed0 (value_of x) /\ lastSeqFollows feed0 (trace_of x).
Proof.
  induction sched as [|ev sched IH]; intros s u Hu.
  - cbn. split; [assumption | intros docs []].
  - cbn [updateLoop]. rewrite run_bind.
    destruct (step_updating h s index seq0 feed0 ev u Hu) as [Hu1 Ht1].
    unfold value_of, trace_of in Hu1, Ht1.
    destruct (run h (step index ev u) s) as [[t1 s1] u1].
    cbn [fst snd] in Hu1, Ht1.
    destruct (IH s1 u1 Hu1) as [Hu2 Ht2].
    unfold value_of, trace_of in Hu2, Ht2 |- *.
    destruct (run h (updateLoop index sched u1) s1) as [[t2 s2] u2].
    cbn [fst snd] in *. split; [assumption|].
    now apply lastSeqFollows_app.
Qed.
End UpdateRun.

Section FailedUpdate.
Context `{Host} `{Collate} `{Evaluator}.

Lemma initial_updating (index : Index) (feed : list change) :
  updating (idx_seq index) feed (initial index feed).
Proof.
  unfold updating, initial. cbn.
  repeat split; auto using incl_refl; discriminate.
Qed.

(** What the code does keep when some change of an update run fails,
    in every environment and for every order of the events: the
    callback of the update is called exactly once, with an error, and
    the in-memory [index.seq] keeps its value from before the run.  The
    persisted [_local/lastSeq] record is another matter: every batch of
    the run rewrites it, to the [seq] of the change of that batch. *)
Lemma failed_update {W : Type} (h : handler W) (s : W) (index : Index)
  (policy : list change -> list event) :
  let x := run h (updateIndexInner index policy) s in
  u_gotError (value_of x) <> None ->
  (exists e, u_calls (value_of x) = [Some e])
  /\ u_seq (value_of x) = idx_seq index
  /\ lastSeqFollows (fst (h (SourceChanges (idx_seq index)) s)) (trace_of x).
Proof.
  unfold updateIndexInner. cbn [bind call run].
  destruct (h (SourceChanges (idx_seq index)) s) as [feed s1]. cbn [fst].
  destruct (updateLoop_updating h index (idx_seq index) feed (policy feed)
              s1 (initial index feed) (initial_updating index feed))
    as [Hu Ht].
  unfold value_of, trace_of in *.
  destruct (run h (updateLoop index (policy feed) (initial index feed)) s1)
    as [[t s2] u].
  cbn [fst snd] in *.
  destruct Hu as (_ & _ & _ & Hst).
  intro Herr.
  destruct (u_gotError u); [|congruence].
  destruct Hst as (_ & Hcalls & Hseq).
  repeat split; assumption.
Qed.
End FailedUpdate.

(** * Query results *)

Lemma in_firstn {A : Type} (x : A) (n : nat) (l : list A) :
  In x (firstn n l) -> In x l.
Proof.
  intro Hx. rewrite <- (firstn_skipn n l). apply in_or_app. now left.
Qed.

Lemma in_skipn {A : Type} (x : A) (n : nat) (l : list A) :
  In x (skipn n l) -> In x l.
Proof.
  intro Hx. rewrite <- (firstn_skipn n l). apply in_or_app. now right.
Qed.

Lemma Forall_page {A : Type} (P : A -> Prop) (limit : option nat) (skip : nat)
  (l : list A) :
  Forall P l -> Forall P (page limit skip l).
Proof.
  intro Hl. rewrite Forall_forall in *. unfold page.
  intros x Hx. apply Hl.
  destruct limit as [n|].
  - eapply in_skipn, in_firstn, Hx.
  - eapply in_skipn, Hx.
Qed.

Section Results.
Context `{Host} `{Collate} `{Evaluator}.

Lemma finishGroups_rows (reduceOne : group -> completion jsval)
  (isError : jsval -> completion bool) (groups : list group)
  (error : option jsval) (reduced : list row) :
  finishGroups reduceOne isError groups = Normal (error, reduced) ->
  Forall (fun r => keyValueOnly r = true) reduced.
Proof.
  revert error reduced.
  induction groups as [|g groups IH]; intros error reduced; simpl.
  - intros [= <- <-]. constructor.
  - destruct (reduceOne g) as [v|]; [|discriminate]. simpl.
    destruct (isError v) as [bad|]; [|discriminate]. simpl.
    destruct (finishGroups reduceOne isError groups) as [[e rs]|];
      [|discriminate].
    simpl. intros [= <- <-]. constructor; [reflexivity|].
    now apply (IH e rs).
Qed.

(** What [reduceIndex] answers, when it answers with a result. *)
Lemma reduceIndex_result (index : Index) (results : list row)
  (opts : options) (r : result) :
  reduceIndex index results opts = Success r ->
  total_rows r = None /\ offset r = None
  /\ Forall (fun e => keyValueOnly e = true) (rows r)
  /\ (opt_limit opts = Some 0%nat -> rows r = []).
Proof.
  unfold reduceIndex.
  match goal with
  | |- context [finishGroups ?f ?g ?gs] =>
      destruct (finishGroups f g gs) as [[[e|] reduced]|] eqn:E
  end; try discriminate.
  intros [= <-]. cbn. repeat split.
  - apply Forall_page. exact (finishGroups_rows _ _ _ _ _ E).
  - now intros ->.
Qed.

Lemma viewComplete_result (fun_reduce : option string) (opts : options)
  (st : vstate) (r : result) :
  reduceInEffect fun_reduce opts = true ->
  viewComplete fun_reduce opts st = Success r ->
  total_rows r = None /\ offset r = None
  /\ Forall (fun e => keyValueOnly e = true) (rows r).
Proof.
  unfold reduceInEffect, viewComplete. intro Heff.
  apply andb_true_iff in Heff. destruct Heff as [Hred Hopt].
  rewrite Hred. apply negb_true_iff in Hopt. rewrite Hopt. cbn [negb orb].
  match goal with
  | |- context [finishGroups ?f ?g ?gs] =>
      destruct (finishGroups f g gs) as [[[e|] reduced]|] eqn:E
  end; try discriminate.
  intros [= <-]. cbn. repeat split.
  apply Forall_page. exact (finishGroups_rows _ _ _ _ _ E).
Qed.

Lemma fetchDocs_run {W : Type} (h : handler W) (results : list row) :
  forall s : W,
    let x := run h (fetchDocs results) s in
    scans (trace_of x) = []
    /\ scanAnswers (trace_of x) = []
    /\ List.map row_reduceOutput (value_of x)
       = List.map row_reduceOutput results.
Proof.
  induction results as [|viewRow results IH]; intro s.
  - cbn. auto.
  - cbn [fetchDocs bind call run].
    destruct (h (SourceGet (joinId viewRow)) s) as [answer s1].
    rewrite run_bind.
    specialize (IH s1). unfold value_of, trace_of in *.
    destruct (run h (fetchDocs results) s1) as [[t s2] rest].
    cbn [fst snd] in *. destruct IH as (Hs & Ha & Hr).
    cbn. rewrite app_nil_r. repeat split; try assumption.
    f_equal; [|assumption].
    unfold attachDoc. destruct answer as [err|d]; [reflexivity|].
    now destruct (truthy d).
Qed.

(** Without reduction, the rows answered have lost [reduceOutput]. *)
Lemma onMapResultsReady_plain {W : Type} (h : handler W) (s : W)
  (index : Index) (opts : options) (skip : nat) (totalRows : Z)
  (results : list row) :
  let x := run h (onMapResultsReady index opts false skip totalRows results) s in
  scans (trace_of x) = []
  /\ scanAnswers (trace_of x) = []
  /\ exists found,
       value_of x = Success (mkResult (Some totalRows) (Some skip) found)
       /\ Forall (fun e => row_reduceOutput e = None) found
       /\ (results = [] -> found = []).
Proof.
  unfold onMapResultsReady. rewrite run_bind.
  assert (Hdel : Forall (fun e => row_reduceOutput e = None)
                   (List.map deleteReduceOutput results)).
  { apply Forall_forall. intros e He. apply in_map_iff in He.
    now destruct He as [e0 [<- _]]. }
  assert (Hnone : forall l : list row,
            List.map row_reduceOutput l
            = List.map row_reduceOutput (List.map deleteReduceOutput results) ->
            Forall (fun e => row_reduceOutput e = None) l).
  { intros l Hl. apply Forall_forall. intros e He.
    apply (in_map row_reduceOutput) in He. rewrite Hl in He.
    apply in_map_iff in He. destruct He as [e0 [<- He0]].
    rewrite Forall_forall in Hdel. now apply Hdel. }
  destruct (opt_include_docs opts
            && negb (Nat.eqb (List.length (List.map deleteReduceOutput results)) 0))
    eqn:E.
  - destruct (fetchDocs_run h (List.map deleteReduceOutput results) s)
      as (Hs & Ha & Hr).
    unfold value_of, trace_of in *.
    destruct (run h (fetchDocs (List.map deleteReduceOutput results)) s)
      as [[t s1] found].
    cbn [fst snd] in *. cbn. rewrite app_nil_r.
    repeat split; try assumption.
    exists found. repeat split; [now apply Hnone|].
    intros ->. cbn in Hr. now destruct found.
  - cbn. repeat split.
    exists (List.map deleteReduceOutput results).
    repeat split; [assumption | now intros ->].
Qed.
End Results.

(** * Queries on a persisted view *)

Section PersistedQuery.
Context `{Host} `{Collate} `{Evaluator}.

(** A normal query makes one scan, with the bounds of [rangeOpts], and
    answers from what the scan returns. *)
Lemma rangeQuery_run {W : Type} (h : handler W) (s : W) (index : Index)
  (opts : options) (shouldReduce : bool) (skip : nat) :
  let x := run h (rangeQuery index opts shouldReduce skip) s in
  let scan := IndexAllDocs (idx_name index)
                (withDocs (rangeOpts opts shouldReduce skip)) in
  scans (trace_of x) = [scan]
  /\ scanAnswers (trace_of x) = [fst (h scan s)]
  /\ match fst (h scan s) with
     | inl err => value_of x = Failure err
     | inr (totalRows, results) =>
         if shouldReduce then value_of x = reduceIndex index results opts
         else exists found,
             value_of x = Success (mkResult (Some totalRows) (Some skip) found)
             /\ Forall (fun e => row_reduceOutput e = None) found
             /\ (results = [] -> found = [])
     end.
Proof.
  unfold rangeQuery, fetchFromIndex. cbn [bind call run].
  generalize (withDocs (rangeOpts opts shouldReduce skip)). intro o.
  destruct (h (IndexAllDocs (idx_name index) o) s) as [answer s1].
  cbn [fst]. destruct answer as [err | [totalRows results]].
  - cbn [run]. unfold trace_of, value_of. cbn [fst snd].
    now rewrite scans_cons_scan, scanAnswers_cons.
  - destruct shouldReduce.
    + unfold onMapResultsReady. cbn [run].
      unfold trace_of, value_of. cbn [fst snd].
      now rewrite scans_cons_scan, scanAnswers_cons.
    + destruct (onMapResultsReady_plain h s1 index opts skip totalRows results)
        as (Hs & Ha & Hv).
      unfold value_of, trace_of in *.
      destruct (run h (onMapResultsReady index opts false skip totalRows
                         results) s1) as [[t s2] v].
      cbn [fst snd] in *.
      rewrite scans_cons_scan, scanAnswers_cons, Hs, Ha by reflexivity.
      auto.
Qed.

(** A query with [keys] answers, when it answers with a result, with
    the rows of [onMapResultsReady]. *)
Lemma keysQuery_result {W : Type} (h : handler W) (s : W) (index : Index)
  (opts : options) (keys : list jsval) (shouldReduce : bool) (skip : nat)
  (r : result) :
  value_of (run h (keysQuery index opts keys shouldReduce skip) s) = Success r ->
  if shouldReduce then
    exists results, reduceIndex index results opts = Success r
  else
    Forall (fun e => row_reduceOutput e = None) (rows r).
Proof.
  unfold keysQuery. rewrite run_bind.
  destruct (run h (fetchKeys index (Object_entries (createKeysLookup keys))
                     (None, repeat None (List.length keys), 0)) s)
    as [[t s1] [[keysError results] totalRows]].
  destruct keysError as [err|].
  - cbn. discriminate.
  - destruct shouldReduce.
    + cbn. eauto.
    + match goal with
      | |- context [onMapResultsReady index opts false skip totalRows ?l] =>
          destruct (onMapResultsReady_plain h s1 index opts skip totalRows l)
            as (_ & _ & found & Hv & Hnone & _);
          unfold value_of in *;
          destruct (run h (onMapResultsReady index opts false skip
                             totalRows l) s1) as [[t2 s2] v]
      end.
      cbn [fst snd] in *. subst v. now intros [= <-].
Qed.

(** C2.  A query on a persisted view without [keys] makes one scan of
    the secondary store.  Its [startkey] is the encoding of [[b]] for a
    [startkey] option [b] and its [endkey] the encoding of
    [[b, {}, {}, {}]] for an [endkey] option [b]; under [descending]
    the two encodings change sides; a [key] option sets both bounds in
    the same way. *)
Theorem scan_bounds {W : Type} (h : handler W) (s : W) (index : Index)
  (opts : options) :
  opt_keys opts = None ->
  exists io,
    scans (trace_of (run h (queryIndexInner index opts) s))
    = [IndexAllDocs (idx_name index) io]
    /\ io_startkey io
       = match opt_key opts with
         | Some k =>
             Some (if opt_descending opts then upperBound k else lowerBound k)
         | None =>
             option_map
               (fun b => if opt_descending opts
                         then upperBound b else lowerBound b)
               (opt_startkey opts)
         end
    /\ io_endkey io
       = match opt_key opts with
         | Some k =>
             Some (if opt_descending opts then lowerBound k else upperBound k)
         | None =>
             option_map
               (fun b => if opt_descending opts
                         then lowerBound b else upperBound b)
               (opt_endkey opts)
         end.
Proof.
  intro Hkeys. unfold queryIndexInner.
  replace (emptyKeys opts) with opts
    by (unfold emptyKeys; now rewrite Hkeys).
  rewrite Hkeys.
  match goal with
  | |- context [rangeQuery index opts ?sr ?skip] =>
      destruct (rangeQuery_run h s index opts sr skip) as (Hscan & _);
      exists (withDocs (rangeOpts opts sr skip));
      split; [exact Hscan|];
      destruct sr
  end;
    unfold rangeOpts, withDocs, lowerBound, upperBound; cbn;
    destruct (opt_key opts), (opt_descending opts),
      (opt_startkey opts), (opt_endkey opts); cbn; auto.
Qed.

(** C10.  When reduction is not in effect, no row of the answer of a
    query on a persisted view has a [reduceOutput] field. *)
Theorem plain_rows_without_reduceOutput {W : Type} (h : handler W) (s : W)
  (index : Index) (opts : options) (r : result) :
  reduceInEffect (idx_reduceFun index) opts = false ->
  value_of (run h (queryIndexInner index opts) s) = Success r ->
  Forall (fun e => row_reduceOutput e = None) (rows r).
Proof.
  unfold reduceInEffect, queryIndexInner. intros ->.
  destruct (opt_keys (emptyKeys opts)) as [keys|].
  - apply (keysQuery_result h s index (emptyKeys opts) keys false).
  - match goal with
    | |- context [rangeQuery index ?o false ?skip] =>
        destruct (rangeQuery_run h s index o false skip) as (_ & _ & Hv);
        cbn zeta in Hv;
        destruct (fst (h (IndexAllDocs (idx_name index)
                            (withDocs (rangeOpts o false skip))) s))
          as [err | [totalRows results]]
    end.
    + rewrite Hv. discriminate.
    + destruct Hv as (found & -> & Hnone & _). now intros [= <-].
Qed.

(** C7.  When reduction is in effect, a successful answer has neither
    [total_rows] nor [offset], and each of its rows carries [key] and
    [value] only; so it is for a persisted view ([queryIndexInner],
    through [reduceIndex]) and for a temporary view ([viewQuery])
    alike. *)
Theorem reduced_result_shape {W : Type} (h : handler W) (s : W)
  (opts : options) (r : result) :
  (forall index : Index,
      reduceInEffect (idx_reduceFun index) opts = true ->
      value_of (run h (queryIndexInner index opts) s) = Success r ->
      total_rows r = None /\ offset r = None
      /\ Forall (fun e => keyValueOnly e = true) (rows r))
  /\ (forall (mapSrc : string) (fun_reduce : option string),
        reduceInEffect fun_reduce opts = true ->
        value_of (run h (viewQuery mapSrc fun_reduce opts) s) = Success r ->
        total_rows r = None /\ offset r = None
        /\ Forall (fun e => keyValueOnly e = true) (rows r)).
Proof.
  split.
  - intros index Heff. unfold reduceInEffect in Heff.
    unfold queryIndexInner. rewrite Heff.
    destruct (opt_keys (emptyKeys opts)) as [keys|].
    + intro Hv.
      destruct (keysQuery_result h s index (emptyKeys opts) keys true _ r Hv)
        as [results Hr].
      destruct (reduceIndex_result index results _ r Hr) as (? & ? & ? & _).
      auto.
    + match goal with
      | |- context [rangeQuery index ?o true ?skip] =>
          destruct (rangeQuery_run h s index o true skip) as (_ & _ & Hv);
          cbn zeta in Hv;
          destruct (fst (h (IndexAllDocs (idx_name index)
                              (withDocs (rangeOpts o true skip))) s))
            as [err | [totalRows results]]
      end.
      * rewrite Hv. discriminate.
      * rewrite Hv. intro Hr.
        destruct (reduceIndex_result index results _ r Hr) as (? & ? & ? & _).
        auto.
  - intros mapSrc fun_reduce Heff.
    unfold viewQuery. cbn [bind call run].
    destruct (h (SourceChanges 0) s) as [feed s1].
    rewrite run_bind.
    destruct (run h (viewChanges mapSrc opts feed (mkVstate [] 0 0)) s1)
      as [[t s2] st].
    cbn. apply viewComplete_result. exact Heff.
Qed.

(** C9, as the code has it.  With [keys] the empty array, the query is
    run as a normal query with [limit = 0] and no [keys]: it makes one
    range scan, which carries the limit 0 only when reduction is not in
    effect.  Against a store that honours [limit], a successful answer
    has no rows, and without reduction the query does succeed as soon
    as the scan is answered.  With reduction the scan is unbounded and
    the reducer runs, so the query can fail. *)
Theorem empty_keys {W : Type} (h : handler W) (s : W) (index : Index)
  (opts : options) :
  opt_keys opts = Some [] ->
  honoursLimit h ->
  let x := run h (queryIndexInner index opts) s in
  (exists io,
      scans (trace_of x) = [IndexAllDocs (idx_name index) io]
      /\ io_limit io = if reduceInEffect (idx_reduceFun index) opts
                       then None else Some 0%nat)
  /\ (forall r, value_of x = Success r -> rows r = [])
  /\ (reduceInEffect (idx_reduceFun index) opts = false ->
      forall totalRows found,
        scanAnswers (trace_of x) = [inr (totalRows, found)] ->
        value_of x
        = Success (mkResult (Some totalRows)
                     (Some match opt_skip opts with
                           | Some n => n
                           | None => 0%nat
                           end) [])).
Proof.
  intros Hkeys Hlimit. unfold queryIndexInner, reduceInEffect.
  set (shouldReduce := truthyStr (idx_reduceFun index) && _).
  set (skip := match opt_skip opts with Some n => n | None => 0%nat end).
  assert (Hopts : emptyKeys opts
                  = mkOptions (opt_startkey opts) (opt_endkey opts)
                      (opt_key opts) None (opt_descending opts)
                      (Some 0%nat) (opt_skip opts) (opt_include_docs opts)
                      (opt_reduce opts) (opt_group opts)
                      (opt_group_level opts) (opt_stale opts)).
  { unfold emptyKeys. now rewrite Hkeys. }
  rewrite Hopts. cbn [opt_keys].
  set (opts' := mkOptions _ _ _ _ _ _ _ _ _ _ _ _).
  destruct (rangeQuery_run h s index opts' shouldReduce skip)
    as (Hscan & Hanswers & Hv).
  cbn zeta in Hv.
  set (io' := withDocs (rangeOpts opts' shouldReduce skip)) in *.
  assert (Hio : io_limit io' = if shouldReduce then None else Some 0%nat).
  { unfold io', withDocs, rangeOpts. now destruct shouldReduce. }
  assert (Hnone : shouldReduce = false ->
                  forall totalRows results,
                    fst (h (IndexAllDocs (idx_name index) io') s)
                    = inr (totalRows, results) -> results = []).
  { intros Hsr totalRows results Hfound.
    assert (Hl := Hlimit (idx_name index) io' s 0%nat
                    (inr (totalRows, results))).
    rewrite Hio, Hsr in Hl. specialize (Hl eq_refl Hfound). cbn in Hl.
    destruct results; [reflexivity | cbn in Hl; lia]. }
  repeat split.
  - eauto.
  - intros r Hr.
    destruct (fst (h (IndexAllDocs (idx_name index) io') s))
      as [err | [totalRows results]] eqn:E.
    + rewrite Hv in Hr. discriminate.
    + destruct shouldReduce eqn:Esr.
      * rewrite Hv in Hr.
        now apply (reduceIndex_result index results opts' r Hr).
      * destruct Hv as (found & Hval & _ & Hempty).
        rewrite Hval in Hr. injection Hr as <-. cbn.
        apply Hempty. now apply (Hnone eq_refl totalRows).
  - intros Hsr totalRows found Hans.
    rewrite Hanswers in Hans.
    specialize (Hnone Hsr).
    destruct (fst (h (IndexAllDocs (idx_name index) io') s))
      as [err | [totalRows' results]]; [discriminate|].
    injection Hans as -> ->.
    rewrite Hsr in Hv.
    destruct Hv as (found' & Hval & _ & Hempty).
    rewrite <- Hsr in Hval. rewrite Hval.
    rewrite Hempty; [reflexivity|].
    now apply (Hnone totalRows).
Qed.
End PersistedQuery.

(** * Validation *)

Section Validation.
Context `{Host} `{Collate} `{Evaluator}.

Lemma QueryParseError_is (message : string) :
  isParseError (QueryParseError message) = true.
Proof. reflexivity. Qed.

Lemma checkQueryParseError_is (opts : options) (fun_reduce : option string)
  (e : jsval) :
  checkQueryParseError opts fun_reduce = Some e -> isParseError e = true.
Proof.
  unfold checkQueryParseError.
  repeat match goal with
         | |- context [match ?x with _ => _ end] => destruct x
         end;
    intros [= <-]; apply QueryParseError_is.
Qed.

Lemma checkQueryParseError_inverted (opts : options)
  (fun_reduce : option string) :
  invertedRange opts = true ->
  exists e, checkQueryParseError opts fun_reduce = Some e.
Proof.
  unfold invertedRange, checkQueryParseError.
  destruct (opt_startkey opts) as [a|], (opt_endkey opts) as [b|];
    try discriminate.
  destruct (opt_descending opts); intros ->; eauto.
Qed.

Lemma checkQueryParseError_docs (opts : options)
  (fun_reduce : option string) :
  reduceInEffect fun_reduce opts = true ->
  opt_include_docs opts = true ->
  exists e, checkQueryParseError opts fun_reduce = Some e.
Proof.
  unfold reduceInEffect, checkQueryParseError. intros -> ->. cbn [andb].
  repeat match goal with
         | |- context [match ?x with _ => _ end] => destruct x
         end; eauto.
Qed.

(** C6.  On a local database, a query whose key range is inverted, and
    a query with [include_docs] on a view whose reducer is in effect,
    end with an error named [query_parse_error] of status 400, and no
    scan of a database has been made by then. *)
Theorem parse_errors_rejected {W : Type} (h : handler W) (s : W)
  (db : Database) (policy : list change -> list event) (opts : options) :
  String.eqb (db_type db) "http" = false ->
  (invertedRange opts = true ->
   forall fun_ : viewSpec,
     rejected (run h (query db policy fun_ opts) s) = true)
  /\ (opt_include_docs opts = true ->
      (forall (mapSrc : string) (reduce : option string),
          reduceInEffect reduce opts = true ->
          rejected (run h (query db policy (Inline mapSrc reduce) opts) s)
          = true)
      /\ (forall (designDocName viewName : string)
                 (views : list (string * viewDef)) (def : viewDef),
             fst (h (SourceGetDesign ("_design/" ++ designDocName)) s)
             = inr (Some views) ->
             assoc viewName views = Some def ->
             reduceInEffect (vd_reduce def) opts = true ->
             rejected (run h (query db policy
                                (Named designDocName viewName) opts) s)
             = true)).
Proof.
  intro Hlocal. unfold query. rewrite Hlocal.
  assert (Hret : forall e,
             isParseError e = true ->
             forall s', rejected (run h (Ret (Failure e)) s') = true).
  { intros e He s'. cbn. exact He. }
  split; [|intro Hdocs; split].
  - intros Hinv fun_.
    destruct (checkQueryParseError_inverted opts
                match fun_ with Inline _ r => r | Named _ _ => None end Hinv)
      as [e He].
    rewrite He. apply Hret. exact (checkQueryParseError_is _ _ _ He).
  - intros mapSrc reduce Heff.
    destruct (checkQueryParseError_docs opts reduce Heff Hdocs) as [e He].
    rewrite He. apply Hret. exact (checkQueryParseError_is _ _ _ He).
  - intros designDocName viewName views def Hget Hview Heff.
    destruct (checkQueryParseError opts None) as [e|] eqn:E.
    { apply Hret. exact (checkQueryParseError_is _ _ _ E). }
    cbn [bind call run].
    destruct (h (SourceGetDesign ("_design/" ++ designDocName)) s)
      as [answer s1].
    cbn [fst] in Hget. subst answer. rewrite Hview.
    destruct (checkQueryParseError_docs opts (vd_reduce def) Heff Hdocs)
      as [e He].
    rewrite He. cbn. exact (checkQueryParseError_is _ _ _ He).
Qed.
End Validation.

(** * Runs in the example environment *)

Module Runs.
Import Env.

Lemma answer_honoursLimit : honoursLimit answer.
Proof.
  intros db opts s n err_or Hn <-.
  cbn. unfold scan. rewrite Hn. cbn.
  rewrite length_map, length_firstn. lia.
Qed.

(** The hash of the index name, on two short strings. *)
Example hexHashCode_a :
  hexHashCode "a" = "61" /\ hexHashCode "ab" = "c21".
Proof. split; reflexivity. Qed.

(** Mapping the document ["a"] of [world1] writes one batch, whose live
    records have the composite keys of its [emit] calls. *)
Lemma emit_composite_key_witness :
  let t := trace_of (run answer
             (@callMapFun host codec evaluator index1
                (changeOf "a" 1 (jnum 1)) 1) world1) in
  In (hd [] (written t)) (written t)
  /\ forall id : string,
       (exists v, In (KvDoc id v false) (hd [] (written t)))
       <-> (exists n key value,
               nth_error (List.concat (emitted t)) n = Some (key, value)
               /\ id = @compositeKey codec key "a" value n).
Proof.
  intro t.
  assert (Hin : In (hd [] (written t)) (written t))
    by (vm_compute; left; reflexivity).
  split; [exact Hin|].
  exact (@emit_composite_key host codec evaluator world answer world1 index1
           (changeOf "a" 1 (jnum 1)) 1 (hd [] (written t)) Hin).
Defined.

(** In the first revision the composite key of the same call of [emit]
    was another string. *)
Example rev1_emit_key :
  keysOf (snd (@Rev1.emit codec "a" (0%nat, []) (JStr "a", jnum 1)))
  = [@toIndexableString codec
       (JArr [jnum 1; JStr "a"; JStr "a"; jnum 1; jnum 0])]
  /\ keysOf (snd (@emit codec "a" (0%nat, []) (JStr "a", jnum 1)))
     = [@compositeKey codec (JStr "a") "a" (jnum 1) 0].
Proof. split; reflexivity. Qed.

(** C3, as stated, fails at [seq = lastSeq]: the index is at [seq] 5
    and a change with [seq] 5 is handed to [processChange].  It is not
    skipped: [map] is called on its document and a batch is written,
    which sets [_local/lastSeq] to 5 again. *)
Lemma change_at_lastSeq_is_processed :
  let x := run answer
             (@processChange host codec evaluator index5 update5 change5)
             world1 in
  ch_seq change5 = u_seq update5
  /\ emitted (trace_of x) = [[(JStr "a", jnum 1)]]
  /\ written (trace_of x)
     = [[KvDoc (@compositeKey codec (JStr "a") "a" (jnum 1) 0)
           (mkRow (Some "a") (JStr "a") (jnum 1) None None) false;
         MetaDoc "_local/doc_a"
           [@compositeKey codec (JStr "a") "a" (jnum 1) 0];
         LastSeqDoc "_local/lastSeq" 5]]
  /\ value_of x = mkTaskEnd 5 1 (Normal None).
Proof. repeat split. Qed.

(** A change strictly below [index.seq] is what the code skips. *)
Example change_below_lastSeq_is_skipped :
  @processChange host codec evaluator index5 update5 (changeOf "a" 4 (jnum 1))
  = Ret (mkTaskEnd 5 0 (Normal None)).
Proof. reflexivity. Qed.

(** In [world2] the first batch is written and the second fails: the
    update reports the error and [index.seq] stays at 0, but the
    persisted [_local/lastSeq] record, 0 before the run, holds 1 after
    it. *)
Example failed_update_moves_lastSeq :
  let x := run answer
             (@updateIndexInner host codec evaluator index1 (@sequential))
             world2 in
  u_gotError (value_of x) = Some writeFailed
  /\ u_calls (value_of x) = [Some writeFailed]
  /\ u_seq (value_of x) = 0
  /\ st_lastSeq (theStore world2 "idx") = Some 0
  /\ st_lastSeq (theStore (env_of x) "idx") = Some 1.
Proof. vm_compute. repeat split. Qed.

(** C4 at work.  The changes [a], [b], [c] have the [seq] 1, 2, 3 and
    the store refuses the batch of [b] only.  The update run reports
    the error, once, and [index.seq] stays at 0; but the run goes on
    with [c], whose batch is written and sets the persisted
    [_local/lastSeq] to 3, past the change that failed.  The query that
    started the update fails with the error; the next query of the same
    view finds [lastSeq] 3, asks for the changes since 3, maps nothing
    and answers without the row of [b]: the failed change is never
    indexed. *)
Theorem failed_change_is_passed_over :
  let u := run (failingFor "b")
             (@updateIndexInner host codec evaluator indexSum (@sequential))
             scenario in
  let q := @query host codec evaluator local (@sequential)
             (Named "d" "plain") noOptions in
  let first := run (failingFor "b") q scenario in
  let second := run answer q (env_of first) in
  (u_calls (value_of u) = [Some writeFailed]
   /\ u_seq (value_of u) = 0
   /\ st_lastSeq (theStore scenario "idx") = None
   /\ st_lastSeq (theStore (env_of u) "idx") = Some 3
   /\ keysOf (st_meta (theStore (env_of u) "idx"))
      = ["_local/doc_a"; "_local/doc_c"])
  /\ value_of first = Failure writeFailed
  /\ map (fun st => st_lastSeq (snd st)) (w_stores (env_of first)) = [Some 3]
  /\ In (SourceChanges 3) (map op_of (trace_of second))
  /\ mapped (trace_of second) = []
  /\ value_of second
     = Success (mkResult (Some 2) (Some 0%nat)
                  [plainRow "a" 1; plainRow "c" 3]).
Proof.
  vm_compute. repeat split. do 4 right. left. reflexivity.
Qed.

(** The failed run of [world2] again, by [failed_update]. *)
Lemma failed_update_witness :
  let x := run answer
             (@updateIndexInner host codec evaluator index1 (@sequential))
             world2 in
  u_gotError (value_of x) <> None
  /\ (exists e, u_calls (value_of x) = [Some e])
  /\ u_seq (value_of x) = idx_seq index1
  /\ lastSeqFollows (fst (answer (SourceChanges (idx_seq index1)) world2))
       (trace_of x).
Proof.
  intro x.
  assert (Herr : u_gotError (value_of x) <> None)
    by (vm_compute; discriminate).
  split; [exact Herr|].
  exact (@failed_update host codec evaluator world answer world2 index1
           (@sequential) Herr).
Defined.

(** The scan of the range from ["a"] to ["b"]. *)
Lemma scan_bounds_witness :
  opt_keys rangeAB = None
  /\ exists io,
       scans (trace_of (run answer
                (@queryIndexInner host codec evaluator index2 rangeAB)
                indexed))
       = [IndexAllDocs (idx_name index2) io]
       /\ io_startkey io = Some (@lowerBound codec (JStr "a"))
       /\ io_endkey io = Some (@upperBound codec (JStr "b")).
Proof.
  split; [reflexivity|].
  exact (@scan_bounds host codec evaluator world answer indexed index2
           rangeAB eq_refl).
Defined.

(** An inverted range, and [include_docs] with a reducer, on the local
    database of [world1]. *)
Lemma parse_errors_rejected_witness :
  String.eqb (db_type local) "http" = false
  /\ @invertedRange codec rangeBA = true
  /\ opt_include_docs withDocsOption = true
  /\ reduceInEffect (Some "_stats") withDocsOption = true
  /\ rejected (run answer
                 (@query host codec evaluator local (@sequential)
                    (Named "d" "v") rangeBA) world1) = true
  /\ rejected (run answer
                 (@query host codec evaluator local (@sequential)
                    (Inline mapSrc (Some "_stats")) withDocsOption) world1)
     = true
  /\ rejected (run answer
                 (@query host codec evaluator local (@sequential)
                    (Named "d" "v") withDocsOption) world1) = true.
Proof.
  do 4 (split; [reflexivity|]).
  split; [|split].
  - exact (proj1 (@parse_errors_rejected host codec evaluator world answer
                    world1 local (@sequential) rangeBA eq_refl)
             eq_refl (Named "d" "v")).
  - exact (proj1 (proj2 (@parse_errors_rejected host codec evaluator world
                           answer world1 local (@sequential) withDocsOption
                           eq_refl) eq_refl)
             mapSrc (Some "_stats") eq_refl).
  - exact (proj2 (proj2 (@parse_errors_rejected host codec evaluator world
                           answer world1 local (@sequential) withDocsOption
                           eq_refl) eq_refl)
             "d" "v" [("v", statsView)] statsView eq_refl eq_refl eq_refl).
Defined.

(** A grouped [_stats] query, on the persisted view and on the same
    view run as a temporary view. *)
Lemma reduced_result_shape_witness :
  reduceInEffect (idx_reduceFun index2) grouped = true
  /\ (exists r,
         value_of (run answer
                     (@queryIndexInner host codec evaluator index2 grouped)
                     indexed) = Success r
         /\ total_rows r = None /\ offset r = None
         /\ Forall (fun e => keyValueOnly e = true) (rows r))
  /\ (exists r,
         value_of (run answer
                     (@viewQuery host codec evaluator mapSrc (Some "_stats")
                        grouped) world1) = Success r
         /\ total_rows r = None /\ offset r = None
         /\ Forall (fun e => keyValueOnly e = true) (rows r)).
Proof.
  split; [reflexivity|]. split.
  - eexists. split; [vm_compute; reflexivity|].
    refine (proj1 (@reduced_result_shape host codec evaluator world answer
                     indexed grouped _) index2 eq_refl _).
    vm_compute. reflexivity.
  - eexists. split; [vm_compute; reflexivity|].
    refine (proj2 (@reduced_result_shape host codec evaluator world answer
                     world1 grouped _) mapSrc (Some "_stats") eq_refl _).
    vm_compute. reflexivity.
Defined.

(** The first revision differed here: its [viewQuery], which the second
    one replaces, answered the reduced temporary view
    [emit(doc._id, doc.n)] with [_sum] over the three documents of the
    scenarios with [total_rows] and [offset]; the second [viewQuery]
    answers the same query with rows only. *)
Example first_viewQuery_reduced_answer :
  reduceInEffect (Some "_sum") noOptions = true
  /\ value_of (run answer
                 (@Rev1.viewQuery host codec evaluator mapSrc (Some "_sum")
                    noOptions) scenario)
     = Success (mkResult (Some 3) (Some 0%nat)
                  [reducedRow (JStr "a") (jnum 1);
                   reducedRow (JStr "b") (jnum 2);
                   reducedRow (JStr "c") (jnum 3)])
  /\ value_of (run answer
                 (@viewQuery host codec evaluator mapSrc (Some "_sum")
                    noOptions) scenario)
     = Success (mkResult None None [reducedRow JNull (jnum 6)]).
Proof. vm_compute. repeat split. Qed.

(** C9, as stated, fails.  The view of [world3] reduces with [_stats]
    and its only value is a string; the query with [keys] the empty
    array scans without a limit, the stored [reduceOutput] carries the
    error of [_stats], and the query fails with it. *)
Lemma empty_keys_can_fail :
  let x := run answer
             (@query host codec evaluator local (@sequential)
                (Named "d" "v") (noKeys None)) world3 in
  opt_keys (noKeys None) = Some []
  /\ value_of x
     = Failure (JObj [ ("sum", JStr "0x"); ("min", JNum NaN);
                       ("max", JNum NaN); ("count", jnum 1);
                       ("sumsqr", invalid_value) ])
  /\ (forall r, value_of x <> Success r)
  /\ exists db,
       In (IndexAllDocs db (mkIndexOpts None None false None None true))
          (scans (trace_of x)).
Proof.
  vm_compute. repeat split.
  - discriminate.
  - eexists. right. right. left. reflexivity.
Qed.

(** The query with [keys] the empty array and [reduce: false] on the
    indexed view. *)
Lemma empty_keys_witness :
  let x := run answer
             (@queryIndexInner host codec evaluator index2
                (noKeys (Some false))) indexed in
  opt_keys (noKeys (Some false)) = Some []
  /\ honoursLimit answer
  /\ (exists io,
         scans (trace_of x) = [IndexAllDocs (idx_name index2) io]
         /\ io_limit io = Some 0%nat)
  /\ (forall r, value_of x = Success r -> rows r = [])
  /\ (forall totalRows found,
         scanAnswers (trace_of x) = [inr (totalRows, found)] ->
         value_of x = Success (mkResult (Some totalRows) (Some 0%nat) [])).
Proof.
  intro x.
  destruct (@empty_keys host codec evaluator world answer indexed index2
              (noKeys (Some false)) eq_refl answer_honoursLimit)
    as (Hscan & Hrows & Hok).
  split; [reflexivity|].
  split; [exact answer_honoursLimit|].
  split; [exact Hscan|].
  split; [exact Hrows | exact (Hok eq_refl)].
Defined.

(** The range from ["a"] to ["b"] with [reduce: false] on the indexed
    view: the stored rows carry [reduceOutput], the answered rows do
    not. *)
Lemma plain_rows_without_reduceOutput_witness :
  reduceInEffect (idx_reduceFun index2) rangeAB = false
  /\ exists r,
       value_of (run answer
                   (@queryIndexInner host codec evaluator index2 rangeAB)
                   indexed) = Success r
       /\ List.length (rows r) = 2%nat
       /\ Forall (fun e => row_reduceOutput e = None) (rows r).
Proof.
  split; [reflexivity|].
  eexists. split; [vm_compute; reflexivity|].
  split; [reflexivity|].
  refine (@plain_rows_without_reduceOutput host codec evaluator world answer
            indexed index2 rangeAB _ eq_refl _).
  vm_compute. reflexivity.
Defined.

(** ** The scenarios of the specification *)

(** S1, simple sum. *)
Example scenario_S1 :
  value_of (ask scenario "sum" noOptions)
  = Success (mkResult None None [reducedRow JNull (jnum 6)]).
Proof. vm_compute. reflexivity. Qed.

(** S2, range. *)
Example scenario_S2 :
  value_of (ask scenario "plain"
              (options_with (Some (JStr "a")) (Some (JStr "b")) None false
                 None false))
  = Success (mkResult (Some 3) (Some 0%nat) [plainRow "a" 1; plainRow "b" 2]).
Proof. vm_compute. reflexivity. Qed.

(** S3, descending with limit. *)
Example scenario_S3 :
  value_of (ask scenario "plain"
              (options_with None None None true (Some 2%nat) false))
  = Success (mkResult (Some 3) (Some 0%nat) [plainRow "c" 3; plainRow "b" 2]).
Proof. vm_compute. reflexivity. Qed.

(** S4, keys with a duplicate and an unknown key. *)
Example scenario_S4 :
  value_of (ask scenario "plain"
              (options_with None None
                 (Some [JStr "a"; JStr "a"; JStr "z"]) false None false))
  = Success (mkResult (Some 3) (Some 0%nat) [plainRow "a" 1; plainRow "a" 1]).
Proof. vm_compute. reflexivity. Qed.

(** S5, delete then update: the record of ["b"] is gone from the live
    records, while the meta record of ["b"] keeps its old key. *)
Example scenario_S5 :
  let w := afterDelete (env_of (ask scenario "sum" noOptions)) in
  value_of (ask w "sum" noOptions)
  = Success (mkResult None None [reducedRow JNull (jnum 4)])
  /\ List.map (fun st => (keysOf (st_kv (snd st)), st_meta (snd st)))
       (w_stores (env_of (ask w "sum" noOptions)))
     = [([@compositeKey codec (JStr "a") "a" (jnum 1) 0;
          @compositeKey codec (JStr "c") "c" (jnum 3) 0],
         [("_local/doc_a", [@compositeKey codec (JStr "a") "a" (jnum 1) 0]);
          ("_local/doc_b", [@compositeKey codec (JStr "b") "b" (jnum 2) 0]);
          ("_local/doc_c", [@compositeKey codec (JStr "c") "c" (jnum 3) 0])])].
Proof. vm_compute. split; reflexivity. Qed.

(** S6, grouped stats.  The temporary view gives the expected rows; the
    persisted view, which rereduces the stored outputs of the two rows
    of key ["a"], gives [sumsqr] 82 where 10 is expected. *)
Example scenario_S6 :
  value_of (run answer
              (@query host codec evaluator local (@sequential)
                 (Inline "function (doc) { emit(doc.t, doc.v); }"
                    (Some "_stats"))
                 (options_with None None None false None true)) scenario6)
  = Success (mkResult None None
               [reducedRow (JStr "a") (stats 4 1 3 2 10);
                reducedRow (JStr "b") (stats 5 5 5 1 25)])
  /\ value_of (ask scenario6 "stats"
                 (options_with None None None false None true))
     = Success (mkResult None None
                  [reducedRow (JStr "a") (stats 4 1 3 2 82);
                   reducedRow (JStr "b") (stats 5 5 5 1 25)]).
Proof. vm_compute. split; reflexivity. Qed.
End Runs.

(** * The rest of the code *)

(** * Index names *)

Lemma toInt32_spec (z : Z) : exists k, toInt32 z = z + k * 4294967296.
Proof.
  unfold toInt32. cbv zeta.
  pose proof (Z.div_mod z 4294967296 ltac:(lia)) as Hz.
  destruct (2147483648 <=? z mod 4294967296).
  - exists (- (z / 4294967296) - 1). lia.
  - exists (- (z / 4294967296)). lia.
Qed.

Lemma hashLoop_javaHashCode (str : string) :
  forall hash hash',
    (exists k, hash = hash' + k * 4294967296) ->
    exists k, hashLoop str hash = javaHashCode str hash' + k * 4294967296.
Proof.
  induction str as [|c str IH]; intros hash hash' [k Hk];
    cbn [hashLoop javaHashCode].
  - now exists k.
  - apply IH.
    destruct (toInt32_spec hash) as [k1 H1].
    destruct (toInt32_spec (toInt32 hash * 32)) as [k2 H2].
    exists (32 * k1 + k2 + 31 * k). lia.
Qed.

Lemma hexDigitValue_hexDigit (d : Z) :
  0 <= d < 16 -> hexDigitValue (hexDigit d) = Some d.
Proof.
  intro Hd.
  assert (Hcases : d = 0 \/ d = 1 \/ d = 2 \/ d = 3 \/ d = 4 \/ d = 5
                   \/ d = 6 \/ d = 7 \/ d = 8 \/ d = 9 \/ d = 10 \/ d = 11
                   \/ d = 12 \/ d = 13 \/ d = 14 \/ d = 15) by lia.
  repeat (destruct Hcases as [-> | Hcases]; [reflexivity|]).
  now subst d.
Qed.

Lemma toHex_value (fuel : nat) :
  forall n acc,
    0 <= n < 16 ^ Z.of_nat fuel ->
    hexValueFrom 0 (toHex fuel n acc) = hexValueFrom n acc.
Proof.
  induction fuel as [|fuel IH]; intros n acc Hn.
  - simpl in *. now replace n with 0 by lia.
  - cbn [toHex].
    pose proof (Z.div_mod n 16 ltac:(lia)) as Hdiv.
    pose proof (Z.mod_pos_bound n 16 ltac:(lia)) as Hmod.
    destruct (n / 16 =? 0) eqn:E.
    + apply Z.eqb_eq in E. cbn [hexValueFrom].
      rewrite hexDigitValue_hexDigit by assumption.
      f_equal. lia.
    + apply Z.eqb_neq in E.
      rewrite IH.
      * cbn [hexValueFrom]. rewrite hexDigitValue_hexDigit by assumption.
        f_equal. lia.
      * rewrite Nat2Z.inj_succ, Z.pow_succ_r in Hn by lia.
        split; [apply Z.div_pos; lia|].
        apply Z.div_lt_upper_bound; lia.
Qed.

Lemma toHex_length (fuel : nat) :
  forall n acc,
    (String.length (toHex (S fuel) n acc) <= S fuel + String.length acc)%nat
    /\ (S (String.length acc) <= String.length (toHex (S fuel) n acc))%nat.
Proof.
  induction fuel as [|fuel IH]; intros n acc.
  - cbn [toHex]. destruct (n / 16 =? 0); cbn; lia.
  - change (toHex (S (S fuel)) n acc)
      with (if n / 16 =? 0 then String (hexDigit (n mod 16)) acc
            else toHex (S fuel) (n / 16) (String (hexDigit (n mod 16)) acc)).
    destruct (n / 16 =? 0).
    + cbn. lia.
    + specialize (IH (n / 16) (String (hexDigit (n mod 16)) acc)).
      cbn [String.length] in IH. lia.
Qed.

(** X1.  The name of an index ends in the hash of the view's source: a
    numeral of one to seven lowercase hexadecimal digits, which denotes
    the Java hash code of the string reduced to its low 28 bits. *)
Theorem hexHashCode_value (str : string) :
  hexValue (hexHashCode str) = Some (javaHashCode str 0 mod 268435456)
  /\ (1 <= String.length (hexHashCode str) <= 7)%nat.
Proof.
  unfold hexHashCode.
  assert (Hland : Z.land (toInt32 (hashLoop str 0)) 268435455
                  = javaHashCode str 0 mod 268435456).
  { change 268435455 with (Z.ones 28).
    rewrite Z.land_ones by lia.
    change (2 ^ 28) with 268435456.
    destruct (toInt32_spec (hashLoop str 0)) as [k1 H1].
    destruct (hashLoop_javaHashCode str 0 0) as [k2 H2];
      [exists 0; lia|].
    replace (toInt32 (hashLoop str 0))
      with (javaHashCode str 0 + (16 * (k1 + k2)) * 268435456) by lia.
    apply Z.mod_add. lia. }
  rewrite Hland.
  pose proof (Z.mod_pos_bound (javaHashCode str 0) 268435456 ltac:(lia)) as Hb.
  set (n := javaHashCode str 0 mod 268435456) in *.
  pose proof (toHex_length 6 n EmptyString) as Hlen.
  split; [|cbn [String.length] in Hlen; lia].
  unfold hexValue.
  destruct (toHex 7 n EmptyString) eqn:E.
  - cbn in Hlen. lia.
  - cbv iota. rewrite <- E, toHex_value; [reflexivity|].
    change (16 ^ Z.of_nat 7) with 268435456. lia.
Qed.

(** * Objects as maps *)

Lemma assoc_assoc_set {V : Type} (k : string) (v : V) (o : list (string * V))
  (key : string) :
  assoc key (assoc_set k v o)
  = if String.eqb key k then Some v else assoc key o.
Proof.
  induction o as [|[k' v'] o IH]; simpl.
  - reflexivity.
  - destruct (String.eqb k k') eqn:E; simpl.
    + apply String.eqb_eq in E. subst k'.
      now destruct (String.eqb key k).
    + rewrite IH.
      destruct (String.eqb key k') eqn:E'; [|reflexivity].
      apply String.eqb_eq in E'. subst k'.
      destruct (String.eqb key k) eqn:E''; [|reflexivity].
      apply String.eqb_eq in E''. subst k.
      now rewrite String.eqb_refl in E.
Qed.

Lemma keysOf_assoc_set_eq {V : Type} (k : string) (v : V)
  (o : list (string * V)) :
  keysOf (assoc_set k v o)
  = if mem k (keysOf o) then keysOf o else (keysOf o ++ [k])%list.
Proof.
  unfold keysOf, mem.
  induction o as [|[k' v'] o IH]; simpl.
  - reflexivity.
  - destruct (String.eqb k k') eqn:E; simpl.
    + apply String.eqb_eq in E. now subst k'.
    + rewrite IH. now destruct (existsb (String.eqb k) (List.map fst o)).
Qed.

Lemma NoDup_keysOf_assoc_set {V : Type} (k : string) (v : V)
  (o : list (string * V)) :
  NoDup (keysOf o) -> NoDup (keysOf (assoc_set k v o)).
Proof.
  intro Ho. rewrite keysOf_assoc_set_eq.
  destruct (mem k (keysOf o)) eqn:E; [assumption|].
  apply NoDup_app; [assumption | repeat constructor; intros [] |].
  intros x Hx [<- | []].
  apply mem_in in Hx. congruence.
Qed.

Lemma filled_keys (arr : list string) :
  forall m : list (string * bool),
    NoDup (keysOf m) ->
    let r := keysOf (fold_left (fun m element => assoc_set element true m)
                       arr m) in
    NoDup r /\ forall x, In x r <-> In x (keysOf m) \/ In x arr.
Proof.
  induction arr as [|a arr IH]; intros m Hm; cbn [fold_left].
  - split; [assumption|]. cbn. intuition.
  - destruct (IH (assoc_set a true m) (NoDup_keysOf_assoc_set a true m Hm))
      as [Hnd Hin].
    split; [assumption|].
    intro x. rewrite Hin, keysOf_assoc_set. cbn. intuition.
Qed.

(** ** The order of the keys *)

Lemma insertEntry_perm {V : Type} (e : string * V) (l : list (string * V)) :
  Permutation (insertEntry e l) (e :: l).
Proof.
  induction l as [|e' l IH]; cbn [insertEntry].
  - apply Permutation_refl.
  - destruct (comesBefore (fst e') (fst e)).
    + eapply perm_trans; [apply perm_skip, IH | apply perm_swap].
    + apply Permutation_refl.
Qed.

Lemma Object_entries_perm {V : Type} (o : list (string * V)) :
  Permutation (Object_entries o) o.
Proof.
  unfold Object_entries.
  induction o as [|e o IH]; cbn [fold_right].
  - constructor.
  - eapply perm_trans; [apply insertEntry_perm | now apply perm_skip].
Qed.

Lemma Object_keys_perm {V : Type} (o : list (string * V)) :
  Permutation (Object_keys o) (keysOf o).
Proof. apply Permutation_map, Object_entries_perm. Qed.

Lemma Object_keys_In {V : Type} (o : list (string * V)) (k : string) :
  In k (Object_keys o) <-> In k (keysOf o).
Proof.
  split; apply Permutation_in;
    [|apply Permutation_sym]; apply Object_keys_perm.
Qed.

Lemma Object_keys_NoDup {V : Type} (o : list (string * V)) :
  NoDup (keysOf o) -> NoDup (Object_keys o).
Proof.
  apply Permutation_NoDup, Permutation_sym, Object_keys_perm.
Qed.

Lemma assoc_perm {V : Type} (k : string) (l l' : list (string * V)) :
  Permutation l l' -> NoDup (keysOf l) -> assoc k l = assoc k l'.
Proof.
  induction 1 as [|[a v] l l' Hp IH|[a v] [b w] l|l l' l'' Hp1 IH1 Hp2 IH2];
    intro Hnd.
  - reflexivity.
  - cbn in *. apply NoDup_cons_iff in Hnd.
    destruct (String.eqb k a); [reflexivity | now apply IH].
  - cbn in *. apply NoDup_cons_iff in Hnd. destruct Hnd as [Hne _].
    destruct (String.eqb k b) eqn:Eb, (String.eqb k a) eqn:Ea; try reflexivity.
    apply String.eqb_eq in Ea, Eb. subst a b. exfalso. apply Hne. now left.
  - rewrite IH1 by assumption. apply IH2.
    eapply Permutation_NoDup; [|exact Hnd].
    now apply Permutation_map.
Qed.

Lemma in_assoc {V : Type} (k : string) (v : V) (l : list (string * V)) :
  NoDup (keysOf l) -> In (k, v) l -> assoc k l = Some v.
Proof.
  induction l as [|[k' v'] l IH]; intros Hnd Hin; [contradiction|].
  cbn in Hnd. apply NoDup_cons_iff in Hnd. destruct Hnd as [Hk Hnd].
  cbn [assoc]. destruct Hin as [[= -> ->] | Hin].
  - now rewrite String.eqb_refl.
  - destruct (String.eqb k k') eqn:E; [|auto].
    apply String.eqb_eq in E. subst k'.
    exfalso. apply Hk. apply in_map_iff. now exists (k, v).
Qed.

Lemma Object_entries_assoc {V : Type} (o : list (string * V)) (k : string) :
  NoDup (keysOf o) -> assoc k (Object_entries o) = assoc k o.
Proof.
  intro Hnd. symmetry. apply assoc_perm; [|assumption].
  apply Permutation_sym, Object_entries_perm.
Qed.

Lemma Object_entries_map {V V' : Type} (f : V -> V') (o : list (string * V)) :
  Object_entries (List.map (fun e => (fst e, f (snd e))) o)
  = List.map (fun e => (fst e, f (snd e))) (Object_entries o).
Proof.
  unfold Object_entries.
  induction o as [|e o IH]; cbn [List.map fold_right]; [reflexivity|].
  rewrite IH. generalize (fold_right insertEntry [] o). intro l.
  induction l as [|e' l IHl]; cbn [insertEntry List.map fst]; [reflexivity|].
  destruct (comesBefore (fst e') (fst e)); cbn [List.map fst snd];
    [now rewrite IHl | reflexivity].
Qed.

(** The order depends on the names only. *)
Lemma Object_keys_ext {V V' : Type} (o : list (string * V))
  (o' : list (string * V')) :
  keysOf o = keysOf o' -> Object_keys o = Object_keys o'.
Proof.
  intro Hkeys.
  assert (Hnames : forall (U : Type) (l : list (string * U)),
            Object_keys l
            = Object_keys (List.map (fun k => (k, tt)) (keysOf l))).
  { intros U l. unfold Object_keys, keysOf.
    rewrite (map_map fst (fun k => (k, tt))).
    rewrite (Object_entries_map (fun _ => tt) l), map_map.
    reflexivity. }
  now rewrite (Hnames V o), (Hnames V' o'), Hkeys.
Qed.

Lemma uniq_keys (arr : list string) :
  NoDup (uniq arr) /\ forall x, In x (uniq arr) <-> In x arr.
Proof.
  unfold uniq.
  destruct (filled_keys arr [] (NoDup_nil _)) as [Hnd Hin].
  cbv zeta in *. split.
  - now apply Object_keys_NoDup.
  - intro x. rewrite Object_keys_In, Hin. cbn. intuition.
Qed.

(** X2.  [utils.uniq] returns every element of the array, each one once,
    for an array that does not hold the name [__proto__] (which is no
    key of the object that [uniq] fills). *)
Theorem uniq_members (arr : list string) :
  ~ In "__proto__" arr ->
  NoDup (uniq arr) /\ forall x, In x (uniq arr) <-> In x arr.
Proof. intros _. apply uniq_keys. Qed.

(** * The keys lookup *)

Section KeysLookup.
Context `{Host} `{Collate}.

Lemma occurrences_app (key : string) (l1 l2 : list string) :
  forall i,
    occurrences key (l1 ++ l2) i
    = (occurrences key l1 i ++ occurrences key l2 (i + List.length l1))%list.
Proof.
  induction l1 as [|k l1 IH]; intro i; cbn [occurrences app List.length].
  - now rewrite Nat.add_0_r.
  - rewrite IH, Nat.add_succ_r.
    now destruct (String.eqb key k).
Qed.

Lemma fold_lookupStep (keys : list jsval) :
  let st := fold_left lookupStep keys (0%nat, []) in
  fst st = List.length keys
  /\ forall key,
       assoc key (snd st)
       = asIndices (occurrences key (List.map processKey keys) 0).
Proof.
  induction keys as [|k keys IH] using rev_ind.
  - cbn. auto.
  - cbv zeta in *. rewrite fold_left_app. cbn [fold_left].
    destruct (fold_left lookupStep keys (0%nat, [])) as [i lookup].
    cbn [fst snd] in IH. destruct IH as [-> IH].
    unfold lookupStep. cbn [fst snd].
    split; [rewrite length_app; cbn; lia|].
    intro key.
    rewrite map_app, occurrences_app, length_map.
    cbn [List.map occurrences Nat.add].
    assert (Hset : forall v,
              assoc key (assoc_set (processKey k) v lookup)
              = if String.eqb key (processKey k) then Some v
                else asIndices (occurrences key (List.map processKey keys) 0)).
    { intro v. now rewrite assoc_assoc_set, IH. }
    destruct (String.eqb key (processKey k)) eqn:E.
    + apply String.eqb_eq in E. subst key.
      rewrite IH.
      destruct (occurrences (processKey k) (List.map processKey keys) 0)
        as [|a [|b l]]; cbn [asIndices app];
        now rewrite assoc_assoc_set, String.eqb_refl.
    + rewrite app_nil_r.
      destruct (assoc (processKey k) lookup) as [[val|val]|];
        now rewrite Hset.
Qed.

(** X3.  [createKeysLookup] maps a processed key to the positions at which
    it occurs in [keys], in increasing order: to the position itself
    when there is one, to the array of them when there are several, and
    to nothing when the key does not occur. *)
Theorem createKeysLookup_positions (keys : list jsval) (key : string) :
  assoc key (createKeysLookup keys)
  = asIndices (occurrences key (List.map processKey keys) 0).
Proof.
  unfold createKeysLookup. apply (fold_lookupStep keys).
Qed.

Lemma lookupStep_keys (keys : list jsval) :
  forall (i : nat) (lookup : list (string * indices))
         (m : list (string * bool)),
    keysOf lookup = keysOf m ->
    keysOf (snd (fold_left lookupStep keys (i, lookup)))
    = keysOf (fold_left (fun m element => assoc_set element true m)
                (List.map processKey keys) m).
Proof.
  induction keys as [|k keys IH]; intros i lookup m Hm.
  - exact Hm.
  - cbn [fold_left List.map].
    assert (Hstep : exists v,
              lookupStep (i, lookup) k
              = (S i, assoc_set (processKey k) v lookup)).
    { unfold lookupStep.
      destruct (assoc (processKey k) lookup) as [[val|val]|]; eauto. }
    destruct Hstep as [v ->].
    apply IH. now rewrite !keysOf_assoc_set_eq, Hm.
Qed.

(** The names of the lookup are the distinct processed keys, listed as
    [utils.uniq] lists them. *)
Lemma createKeysLookup_keys (keys : list jsval) :
  Object_keys (createKeysLookup keys) = uniq (List.map processKey keys).
Proof.
  unfold createKeysLookup, uniq. apply Object_keys_ext.
  now apply lookupStep_keys.
Qed.

Lemma createKeysLookup_NoDup (keys : list jsval) :
  NoDup (keysOf (createKeysLookup keys)).
Proof.
  unfold createKeysLookup.
  rewrite (lookupStep_keys keys 0%nat [] [] eq_refl).
  apply (filled_keys (List.map processKey keys) [] (NoDup_nil _)).
Qed.
End KeysLookup.

(** * [utils.clone] *)




(** * [_stats] *)

Section StatsValues.
Context `{Host}.

Lemma num_min_Fin (x y : Z) :
  safeInteger x -> safeInteger y -> num_min (Fin x) (Fin y) = Fin (Z.min x y).
Proof.
  intros Hx Hy. unfold num_min, Z.min.
  rewrite (Fin_compare x y Hx Hy).
  destruct (x ?= y) eqn:E; try reflexivity.
  apply Z.compare_eq in E. subst y.
  rewrite (Fin_double x Hx). now destruct x.
Qed.

Lemma num_max_Fin (x y : Z) :
  safeInteger x -> safeInteger y -> num_max (Fin x) (Fin y) = Fin (Z.max x y).
Proof.
  intros Hx Hy. unfold num_max, Z.max.
  rewrite (Fin_compare x y Hx Hy).
  destruct (x ?= y) eqn:E; try reflexivity.
  rewrite (Fin_double x Hx). now destruct x.
Qed.

Lemma Math_min_from (zs : list Z) :
  forall a,
    safeInteger a -> Forall safeInteger zs ->
    fold_left (fun acc v => num_min acc (toNumber v)) (numbers zs) (Fin a)
    = Fin (fold_left Z.min zs a).
Proof.
  induction zs as [|z zs IH]; intros a Ha Hzs;
    cbn [fold_left numbers List.map].
  - reflexivity.
  - apply Forall_cons_iff in Hzs. destruct Hzs as [Hz Hzs].
    change (toNumber (jnum z)) with (Fin z).
    rewrite (num_min_Fin a z Ha Hz). apply IH; [|assumption].
    unfold safeInteger in *. lia.
Qed.

Lemma Math_max_from (zs : list Z) :
  forall a,
    safeInteger a -> Forall safeInteger zs ->
    fold_left (fun acc v => num_max acc (toNumber v)) (numbers zs) (Fin a)
    = Fin (fold_left Z.max zs a).
Proof.
  induction zs as [|z zs IH]; intros a Ha Hzs;
    cbn [fold_left numbers List.map].
  - reflexivity.
  - apply Forall_cons_iff in Hzs. destruct Hzs as [Hz Hzs].
    change (toNumber (jnum z)) with (Fin z).
    rewrite (num_max_Fin a z Ha Hz). apply IH; [|assumption].
    unfold safeInteger in *. lia.
Qed.

(** Integers whose squares add up to less than 2^53 are safe, and so
    are all their partial sums. *)
Lemma squares_bound_sums (zs : list Z) :
  forall acc, Z.abs acc + sumOfSquares zs < 2 ^ 53 -> exactSums acc zs.
Proof.
  induction zs as [|z zs IH]; intros acc Hsum;
    cbn [exactSums sumOfSquares fold_right] in *; [exact I|].
  fold (sumOfSquares zs) in *.
  pose proof (sumOfSquares_nonneg zs) as Hzs.
  assert (Hz : Z.abs z <= z * z) by nia.
  unfold safeInteger. repeat split; try lia.
  apply IH. lia.
Qed.

Lemma squares_bound_safe (zs : list Z) :
  sumOfSquares zs < 2 ^ 53 -> Forall safeInteger zs.
Proof.
  induction zs as [|z zs IH]; intro Hsum;
    cbn [sumOfSquares fold_right] in *; [constructor|].
  fold (sumOfSquares zs) in *.
  pose proof (sumOfSquares_nonneg zs) as Hzs.
  assert (Hz : Z.abs z <= z * z) by nia.
  constructor; [unfold safeInteger; lia | apply IH; nia].
Qed.

(** X5.  On a non-empty list of integers whose squares add up to less
    than 2^53, so that no addition and no multiplication rounds,
    [_stats] without [rereduce] gives their sum, their least and
    greatest element, their number and the sum of their squares. *)
Theorem stats_of_numbers (keys : jsval) (z : Z) (zs : list Z) :
  sumOfSquares (z :: zs) < 2 ^ 53 ->
  _stats keys (numbers (z :: zs)) false
  = Normal (JObj [ ("sum", jnum (total (z :: zs)));
                   ("min", jnum (fold_left Z.min zs z));
                   ("max", jnum (fold_left Z.max zs z));
                   ("count", jnum (Z.of_nat (S (List.length zs))));
                   ("sumsqr", jnum (sumOfSquares (z :: zs))) ]).
Proof.
  intro Hsum.
  pose proof (squares_bound_safe (z :: zs) Hsum) as Hsafe.
  apply Forall_cons_iff in Hsafe. destruct Hsafe as [Hz Hzs].
  unfold _stats, sumsqr, Math_min, Math_max.
  rewrite sum_numbers by (apply squares_bound_sums; exact Hsum).
  rewrite (sumsqr_from_numbers (z :: zs) 0) by (cbn [Z.add]; lia).
  change (numbers (z :: zs)) with (jnum z :: numbers zs).
  cbn [fold_left].
  change (toNumber (jnum z)) with (Fin z).
  replace (num_min PInf (Fin z)) with (Fin z)
    by (rewrite (Fin_double z Hz); now destruct z).
  replace (num_max NInf (Fin z)) with (Fin z)
    by (rewrite (Fin_double z Hz); now destruct z).
  rewrite Math_min_from, Math_max_from by assumption.
  unfold numbers. cbn [List.length]. now rewrite length_map.
Qed.

Lemma sumsqr_from_cases (values : list jsval) :
  forall acc,
    if forallb isNumber values
    then exists n, sumsqr_from acc values = JNum n
    else sumsqr_from acc values = invalid_value.
Proof.
  induction values as [|v values IH]; intro acc.
  - cbn. eauto.
  - destruct v; try reflexivity.
    cbn [forallb isNumber andb sumsqr_from]. apply IH.
Qed.

(** X6.  [_stats] marks its result with the [invalid_value] error exactly
    when some value is not a number; the two tests that the queries
    make on a reduced value, [instanceof Error] in [viewQuery] and
    [status === 500] in [reduceIndex], both find that mark, and find
    none otherwise. *)
Theorem stats_invalid_value (keys : jsval) (values : list jsval) :
  exists o,
    _stats keys values false = Normal o
    /\ getProp o "sumsqr"
       = Normal (if forallb isNumber values then sumsqr values
                 else invalid_value)
    /\ isErrorInstance o = Normal (negb (forallb isNumber values))
    /\ hasStatus500 o = Normal (negb (forallb isNumber values)).
Proof.
  eexists. split; [reflexivity|].
  unfold isErrorInstance, hasStatus500. cbn [getProp assoc String.eqb
    Ascii.eqb Bool.eqb cbind].
  pose proof (sumsqr_from_cases values (Fin 0)) as Hcases.
  unfold sumsqr.
  destruct (forallb isNumber values).
  - destruct Hcases as [n ->]. repeat split.
    + now rewrite andb_false_r.
    + now destruct (truthy (JNum n)).
  - rewrite Hcases. repeat split.
Qed.
End StatsValues.

(** * Grouping *)

Section Grouping.
Context `{Collate}.

Lemma pushGroup_values (shouldGroup : bool) (valueOf : row -> jsval)
  (groups : list group) (e : row) :
  List.concat (List.map g_value (pushGroup shouldGroup valueOf groups e))
  = (List.concat (List.map g_value groups) ++ [valueOf e])%list
  /\ (Forall (fun g => g_value g <> []
                       /\ List.length (g_key g) = List.length (g_value g))
        groups ->
      Forall (fun g => g_value g <> []
                       /\ List.length (g_key g) = List.length (g_value g))
        (pushGroup shouldGroup valueOf groups e)).
Proof.
  unfold pushGroup.
  assert (Hsingle : forall k : jsval * option string,
            (fun g => g_value g <> []
                      /\ List.length (g_key g) = List.length (g_value g))
              (mkGroup [k] [valueOf e])).
  { intro k. cbn. split; [discriminate | reflexivity]. }
  destruct (rev groups) as [|last before] eqn:E.
  - assert (groups = []) as ->.
    { rewrite <- (rev_involutive groups), E. reflexivity. }
    cbn. split; [reflexivity|]. intros _. constructor; [|constructor].
    apply Hsingle.
  - assert (groups = rev before ++ [last])%list as ->.
    { rewrite <- (rev_involutive groups), E. reflexivity. }
    destruct (collate (firstKey last) _ =? 0).
    + rewrite !map_app, !concat_app. cbn [List.map List.concat g_value].
      rewrite !app_nil_r, app_assoc. split; [reflexivity|].
      intro Hall. apply Forall_app in Hall. destruct Hall as [Hb Hl].
      apply Forall_app. split; [assumption|].
      constructor; [|constructor].
      apply Forall_inv in Hl. destruct Hl as [Hne Hlen]. cbn.
      split.
      * destruct (g_value last); discriminate.
      * rewrite !length_app, Hlen. reflexivity.
    + rewrite !map_app, !concat_app. cbn [List.map List.concat g_value].
      rewrite !app_nil_r. split; [reflexivity|].
      intro Hall. apply Forall_app. split; [assumption|].
      constructor; [|constructor]. apply Hsingle.
Qed.

Lemma grouping_from (shouldGroup : bool) (valueOf : row -> jsval)
  (results : list row) :
  forall groups,
    Forall (fun g => g_value g <> []
                     /\ List.length (g_key g) = List.length (g_value g))
      groups ->
    let groups' := fold_left (pushGroup shouldGroup valueOf) results groups in
    List.concat (List.map g_value groups')
    = (List.concat (List.map g_value groups) ++ List.map valueOf results)%list
    /\ Forall (fun g => g_value g <> []
                        /\ List.length (g_key g) = List.length (g_value g))
         groups'.
Proof.
  induction results as [|e results IH]; intros groups Hall; cbn [fold_left].
  - cbn. rewrite app_nil_r. auto.
  - destruct (pushGroup_values shouldGroup valueOf groups e) as [Hv Hk].
    destruct (IH _ (Hk Hall)) as [Hv' Hk'].
    cbv zeta in *. rewrite Hv', Hv, <- app_assoc. auto.
Qed.

(** X7.  The grouping that precedes a reduce loses nothing: the values of
    the groups, taken in order, are the values of the rows in order,
    and every group holds at least one value and as many key entries as
    values. *)
Theorem grouping_keeps_values (shouldGroup : bool) (valueOf : row -> jsval)
  (results : list row) :
  let groups := fold_left (pushGroup shouldGroup valueOf) results [] in
  List.concat (List.map g_value groups) = List.map valueOf results
  /\ Forall (fun g => g_value g <> []
                      /\ List.length (g_key g) = List.length (g_value g))
       groups.
Proof.
  exact (grouping_from shouldGroup valueOf results [] (Forall_nil _)).
Qed.

(** Without [group], once a first group exists every further row joins
    it, as soon as [null] collates equal to itself. *)
Lemma ungrouped_from (valueOf : row -> jsval) (results : list row) :
  collate JNull JNull = 0 ->
  forall (id : option string) (keys : list (jsval * option string))
         (values : list jsval),
    fold_left (pushGroup false valueOf) results
      [mkGroup ((JNull, id) :: keys) values]
    = [mkGroup (((JNull, id) :: keys)
                ++ List.map (fun e => (JNull, row_id e)) results)
         (values ++ List.map valueOf results)].
Proof.
  intro Hnull.
  induction results as [|e results IH]; intros id keys values;
    cbn [fold_left List.map].
  - now rewrite !app_nil_r.
  - unfold pushGroup at 2. cbn [rev app firstKey g_key g_value].
    rewrite Hnull. cbn [Z.eqb].
    change ((JNull, id) :: keys ++ [(JNull, row_id e)])%list
      with ((JNull, id) :: (keys ++ [(JNull, row_id e)]))%list.
    rewrite IH. cbn [app]. now rewrite <- !app_assoc.
Qed.
End Grouping.

Section ReduceIndex.
Context `{Host} `{Collate} `{Evaluator}.

(** What [reduceIndex] answers without [group]: the stored outputs of
    all the rows go through one rereduce (none when there is a single
    row), and the answer is one row under the key [null]. *)
Lemma reduceIndex_ungrouped (index : Index) (e : row) (results : list row)
  (opts : options) :
  collate JNull JNull = 0 ->
  opt_group opts = false ->
  opt_group_level opts = false ->
  reduceIndex index (e :: results) opts
  = let reduceFun : reducer :=
      match idx_reduceFun index with
      | Some src =>
          match builtInReduce src with
          | Some f => f
          | None => evalReduce src
          end
      | None => fun _ _ _ => Throw "TypeError"
      end in
    let reduced :=
      match results with
      | [] => Normal (reduceOutputOf e)
      | _ => reduceFun JNull (List.map reduceOutputOf (e :: results)) true
      end in
    match reduced with
    | Throw _ => NoAnswer
    | Normal v =>
        match hasStatus500 v with
        | Throw _ => NoAnswer
        | Normal true => Failure v
        | Normal false =>
            Success (mkResult None None
                       (page (opt_limit opts)
                          match opt_skip opts with
                          | Some n => n
                          | None => 0%nat
                          end
                          [mkRow None JNull v None None]))
        end
    end.
Proof.
  intros Hnull Hgroup Hlevel.
  unfold reduceIndex. rewrite Hgroup, Hlevel. cbn [orb fold_left].
  change (fun e0 : row => match row_reduceOutput e0 with
                          | Some v => v
                          | None => JUndef
                          end) with reduceOutputOf.
  unfold pushGroup at 2. cbn [rev].
  rewrite (ungrouped_from reduceOutputOf results Hnull).
  cbn [app finishGroups g_value g_key firstKey List.map].
  destruct results as [|e' results].
  - cbn [List.map app cbind].
    destruct (hasStatus500 (reduceOutputOf e)) as [[|]|]; reflexivity.
  - cbn [List.map app].
    match goal with
    | |- context [cbind ?c _] => destruct c as [v|w]
    end; [|reflexivity].
    cbn [cbind].
    destruct (hasStatus500 v) as [[|]|]; reflexivity.
Qed.

(** X8.  A view reduced with [_sum], asked without [group]: when the stored
    outputs of the scanned rows are the integers [z :: zs], and these
    add up from 0 without leaving the safe integers (so that no
    addition rounds), the answer is the row
    [{key: null, value: z + ... }] (under [limit] and [skip]). *)
Theorem reduceIndex_sum (index : Index) (results : list row)
  (opts : options) (z : Z) (zs : list Z) :
  collate JNull JNull = 0 ->
  opt_group opts = false ->
  opt_group_level opts = false ->
  idx_reduceFun index = Some "_sum" ->
  List.map row_reduceOutput results
  = List.map (fun n => Some (jnum n)) (z :: zs) ->
  exactSums 0 (z :: zs) ->
  reduceIndex index results opts
  = Success (mkResult None None
               (page (opt_limit opts)
                  match opt_skip opts with Some n => n | None => 0%nat end
                  [mkRow None JNull (jnum (total (z :: zs))) None None])).
Proof.
  intros Hnull Hgroup Hlevel Hsum Hout Hexact.
  destruct results as [|e results]; [discriminate|].
  rewrite (reduceIndex_ungrouped index e results opts Hnull Hgroup Hlevel).
  rewrite Hsum. cbn [builtInReduce String.eqb Ascii.eqb Bool.eqb].
  assert (Houts : List.map reduceOutputOf (e :: results) = numbers (z :: zs)).
  { unfold reduceOutputOf, numbers.
    rewrite <- (map_map row_reduceOutput
                  (fun o => match o with Some v => v | None => JUndef end)).
    rewrite Hout, map_map. reflexivity. }
  cbv zeta.
  assert (Hvalue :
    match results with
    | [] => Normal (reduceOutputOf e)
    | _ :: _ => _sum JNull (List.map reduceOutputOf (e :: results))
    end = Normal (jnum (total (z :: zs)))).
  { destruct results as [|e' results].
    - cbn [List.map numbers] in Houts. destruct zs; [|discriminate].
      injection Houts as ->. cbn [total fold_right].
      now rewrite Z.add_0_r.
    - rewrite Houts. unfold _sum. now rewrite sum_numbers. }
  rewrite Hvalue. reflexivity.
Qed.
End ReduceIndex.

(** * Temporary views *)

Lemma mapped_app (t1 t2 : list io) :
  mapped (t1 ++ t2) = (mapped t1 ++ mapped t2)%list.
Proof. unfold mapped. now rewrite flat_map_app. Qed.

Lemma gets_only (t : list io) :
  Forall (fun e => is_get (op_of e) = true) t ->
  emitted t = [] /\ mapped t = [] /\ written t = []
  /\ Forall (fun e => touchesIndex (op_of e) = false) t
  /\ Forall (fun e => is_update (op_of e) = false) t.
Proof.
  induction 1 as [|[o r] t Ho Ht (He & Hm & Hw & Hi & Hu)].
  - repeat split; constructor.
  - destruct o; try discriminate.
    cbn. repeat split; try assumption; constructor; auto.
Qed.

Section TemporaryView.
Context `{Host} `{Collate} `{Evaluator}.

Lemma viewEmit_run {W : Type} (h : handler W) (s : W) (opts : options)
  (current : document) (st : vstate) (kv : jsval * jsval) :
  let x := run h (viewEmit opts current st kv) s in
  v_totalRows (value_of x) = v_totalRows st + 1
  /\ Forall (fun e => is_get (op_of e) = true) (trace_of x).
Proof.
  unfold viewEmit. destruct kv as [key val].
  repeat match goal with
         | |- context [if ?b then _ else _] =>
             destruct b; try (cbn; split; [reflexivity | constructor])
         end.
  cbn [bind call run].
  match goal with
  | |- context [h ?o s] => destruct (h o s) as [answer s1]
  end.
  cbn. split; [reflexivity|]. repeat constructor.
Qed.

Lemma viewEmits_run {W : Type} (h : handler W) (opts : options)
  (current : document) (emits : list (jsval * jsval)) :
  forall (s : W) (st : vstate),
    let x := run h (viewEmits opts current emits st) s in
    v_totalRows (value_of x) = v_totalRows st + Z.of_nat (List.length emits)
    /\ Forall (fun e => is_get (op_of e) = true) (trace_of x).
Proof.
  induction emits as [|kv emits IH]; intros s st.
  - cbn. split; [lia | constructor].
  - cbn [viewEmits]. rewrite run_bind.
    destruct (viewEmit_run h s opts current st kv) as [Hn Ht].
    unfold value_of, trace_of in *.
    destruct (run h (viewEmit opts current st kv) s) as [[t1 s1] st1].
    cbn [fst snd] in *.
    destruct (IH s1 st1) as [Hn' Ht'].
    unfold value_of, trace_of in *.
    destruct (run h (viewEmits opts current emits st1) s1) as [[t2 s2] st2].
    cbn [fst snd List.length] in *.
    split; [lia | now apply Forall_app].
Qed.

Lemma viewChanges_run {W : Type} (h : handler W) (mapSrc : string)
  (opts : options) (feed : list change) :
  forall (s : W) (st : vstate),
    let x := run h (viewChanges mapSrc opts feed st) s in
    v_totalRows (value_of x)
    = v_totalRows st
      + Z.of_nat (List.length (List.concat (emitted (trace_of x))))
    /\ mapped (trace_of x)
       = List.map (fun c => doc_body (ch_doc c)) (filter live feed)
    /\ Forall (fun e => touchesIndex (op_of e) = false) (trace_of x).
Proof.
  induction feed as [|doc feed IH]; intros s st.
  - cbn. repeat split; [lia | constructor].
  - cbn [viewChanges filter]. fold (live doc).
    destruct (live doc).
    + cbn [bind call run].
      destruct (h (CallMap mapSrc (doc_body (ch_doc doc))) s) as [emits s1].
      rewrite run_bind.
      destruct (viewEmits_run h opts (ch_doc doc) emits s1 st) as [Hn Ht].
      unfold value_of, trace_of in *.
      destruct (run h (viewEmits opts (ch_doc doc) emits st) s1)
        as [[t1 s2] st1].
      cbn [fst snd] in *.
      destruct (gets_only t1 Ht) as (He & Hm & _ & Hi & _).
      destruct (IH s2 st1) as (Hn' & Hm' & Hi').
      unfold value_of, trace_of in *.
      destruct (run h (viewChanges mapSrc opts feed st1) s2)
        as [[t2 s3] st2].
      cbn [fst snd] in *.
      change (Io (CallMap mapSrc (doc_body (ch_doc doc))) emits :: (t1 ++ t2))%list
        with ([Io (CallMap mapSrc (doc_body (ch_doc doc))) emits]
              ++ (t1 ++ t2))%list.
      rewrite !emitted_app, !mapped_app, He, Hm, Hm'.
      cbn [emitted mapped flat_map op_of app List.concat List.map].
      rewrite length_app.
      repeat split.
      * lia.
      * constructor; [reflexivity|]. now apply Forall_app.
    + apply IH.
Qed.

(** X9.  A temporary view hands to [map] the documents of the changes that
    are neither deletions nor ids starting with an underscore, each
    once and in the order of the feed, and it makes no call to any
    secondary database. *)
Theorem viewQuery_maps_live_documents {W : Type} (h : handler W) (s : W)
  (mapSrc : string) (fun_reduce : option string) (opts : options) :
  let x := run h (viewQuery mapSrc fun_reduce opts) s in
  mapped (trace_of x)
  = List.map (fun c => doc_body (ch_doc c))
      (filter live (fst (h (SourceChanges 0) s)))
  /\ Forall (fun e => touchesIndex (op_of e) = false) (trace_of x).
Proof.
  unfold viewQuery. cbn [bind call run].
  destruct (h (SourceChanges 0) s) as [feed s1]. cbn [fst].
  rewrite run_bind.
  destruct (viewChanges_run h mapSrc opts feed s1 (mkVstate [] 0 0))
    as (_ & Hm & Hi).
  unfold value_of, trace_of in *.
  destruct (run h (viewChanges mapSrc opts feed (mkVstate [] 0 0)) s1)
    as [[t s2] st].
  cbn [fst snd run app] in *. rewrite app_nil_r.
  split; [exact Hm|].
  constructor; [reflexivity | assumption].
Qed.

End TemporaryView.

(** * Pagination *)

Lemma page_length {A : Type} (n skip : nat) (l : list A) :
  (List.length (page (Some n) skip l) <= n)%nat.
Proof. unfold page. rewrite length_firstn. lia. Qed.

Section Pagination.
Context `{Host} `{Collate} `{Evaluator}.

Lemma fetchDocs_columns {W : Type} (h : handler W) (results : list row) :
  forall s : W,
    let x := run h (fetchDocs results) s in
    List.map columns (value_of x) = List.map columns results
    /\ List.map op_of (trace_of x)
       = List.map (fun r => SourceGet (joinId r)) results.
Proof.
  induction results as [|viewRow results IH]; intro s.
  - cbn. auto.
  - cbn [fetchDocs bind call run].
    destruct (h (SourceGet (joinId viewRow)) s) as [answer s1].
    rewrite run_bind.
    specialize (IH s1). unfold value_of, trace_of in *.
    destruct (run h (fetchDocs results) s1) as [[t s2] rest].
    cbn [fst snd] in *. destruct IH as [Hc Ht].
    cbn. rewrite app_nil_r. split; f_equal; try assumption.
    unfold attachDoc. destruct answer as [err|d]; [reflexivity|].
    now destruct (truthy d).
Qed.

(** What [onMapResultsReady] answers without reduction: the rows it was
    given, in order, under [total_rows] and [offset]; with
    [include_docs] one document is fetched for each row, and a fetch
    that fails leaves its row without [doc]. *)
Lemma onMapResultsReady_rows {W : Type} (h : handler W) (s : W)
  (index : Index) (opts : options) (skip : nat) (totalRows : Z)
  (results : list row) :
  let x := run h (onMapResultsReady index opts false skip totalRows results) s in
  exists found,
    value_of x = Success (mkResult (Some totalRows) (Some skip) found)
    /\ List.map columns found = List.map columns results
    /\ List.map op_of (trace_of x)
       = if opt_include_docs opts
         then List.map (fun r => SourceGet (joinId r)) results
         else [].
Proof.
  unfold onMapResultsReady. rewrite run_bind.
  assert (Hcols : List.map columns (List.map deleteReduceOutput results)
                  = List.map columns results).
  { rewrite map_map. reflexivity. }
  assert (Hjoin : List.map (fun r => SourceGet (joinId r))
                    (List.map deleteReduceOutput results)
                  = List.map (fun r => SourceGet (joinId r)) results).
  { rewrite map_map. reflexivity. }
  destruct (opt_include_docs opts); cbn [andb].
  - destruct (Nat.eqb (List.length (List.map deleteReduceOutput results)) 0)
      eqn:E; cbn [negb].
    + apply Nat.eqb_eq in E. rewrite length_map in E.
      destruct results; [|discriminate]. cbn. eauto.
    + destruct (fetchDocs_columns h (List.map deleteReduceOutput results) s)
        as [Hc Ht].
      unfold value_of, trace_of in *.
      destruct (run h (fetchDocs (List.map deleteReduceOutput results)) s)
        as [[t s1] found].
      cbn [fst snd run app] in *. rewrite app_nil_r.
      exists found. repeat split; congruence.
  - cbn. exists (List.map deleteReduceOutput results). auto.
Qed.

Lemma reduceIndex_limit (index : Index) (results : list row) (opts : options)
  (n : nat) (r : result) :
  opt_limit opts = Some n ->
  reduceIndex index results opts = Success r ->
  (List.length (rows r) <= n)%nat.
Proof.
  intros Hn. unfold reduceIndex. rewrite Hn.
  match goal with
  | |- context [finishGroups ?f ?g ?gs] =>
      destruct (finishGroups f g gs) as [[[e|] reduced]|]
  end; try discriminate.
  intros [= <-]. apply page_length.
Qed.

Lemma map_length_eq {A B : Type} (f : A -> B) (l1 l2 : list A) :
  List.map f l1 = List.map f l2 -> List.length l1 = List.length l2.
Proof.
  intro Heq. now rewrite <- (length_map f l1), Heq, length_map.
Qed.

(** X11.  With [limit: n], a query that succeeds answers at most [n] rows:
    a temporary view in any environment, and a persisted view as soon
    as the secondary database honours the [limit] of a scan. *)
Theorem limit_bounds_rows {W : Type} (h : handler W) (s : W)
  (opts : options) (n : nat) (r : result) :
  opt_limit opts = Some n ->
  (forall (mapSrc : string) (fun_reduce : option string),
      value_of (run h (viewQuery mapSrc fun_reduce opts) s) = Success r ->
      (List.length (rows r) <= n)%nat)
  /\ (honoursLimit h ->
      forall index : Index,
        value_of (run h (queryIndexInner index opts) s) = Success r ->
        (List.length (rows r) <= n)%nat).
Proof.
  intro Hn. split.
  - intros mapSrc fun_reduce.
    unfold viewQuery. cbn [bind call run].
    destruct (h (SourceChanges 0) s) as [feed s1].
    rewrite run_bind.
    destruct (run h (viewChanges mapSrc opts feed (mkVstate [] 0 0)) s1)
      as [[t s2] st].
    cbn [run value_of snd]. unfold viewComplete. rewrite Hn.
    destruct (negb (truthyStr fun_reduce) || _).
    + intros [= <-]. apply page_length.
    + match goal with
      | |- context [finishGroups ?f ?g ?gs] =>
          destruct (finishGroups f g gs) as [[[e|] reduced]|]
      end; try discriminate.
      intros [= <-]. apply page_length.
  - intros Hlimit index. unfold queryIndexInner.
    set (shouldReduce := truthyStr (idx_reduceFun index) && _).
    set (skip := match opt_skip opts with Some k => k | None => 0%nat end).
    assert (Hle : exists m, opt_limit (emptyKeys opts) = Some m /\ (m <= n)%nat).
    { unfold emptyKeys. destruct (opt_keys opts) as [[|k ks]|]; cbn; eauto.
      exists 0%nat. split; [reflexivity | lia]. }
    destruct Hle as (m & Hm & Hmn).
    generalize dependent (emptyKeys opts). intros opts' Hm.
    destruct (opt_keys opts') as [keys|].
    + unfold keysQuery. rewrite run_bind.
      destruct (run h (fetchKeys index
                         (Object_entries (createKeysLookup keys))
                         (None, repeat None (List.length keys), 0)) s)
        as [[t s1] [[keysError results] totalRows]].
      destruct keysError as [err|]; [cbn; discriminate|].
      destruct shouldReduce.
      * cbn [onMapResultsReady run value_of snd]. intro Hr.
        pose proof (reduceIndex_limit index _ opts' m r Hm Hr). lia.
      * rewrite Hm.
        match goal with
        | |- context [onMapResultsReady index opts' false skip totalRows ?l] =>
            destruct (onMapResultsReady_rows h s1 index opts' skip totalRows l)
              as (found & Hv & Hc & _);
            unfold value_of in *;
            destruct (run h (onMapResultsReady index opts' false skip
                               totalRows l) s1) as [[t2 s2] v]
        end.
        cbn [fst snd] in *. subst v. intros [= <-]. cbn [rows].
        apply map_length_eq in Hc. rewrite Hc.
        pose proof (page_length m skip (List.concat (somes results))). lia.
    + unfold rangeQuery, fetchFromIndex. cbn [bind call run].
      set (o := withDocs (rangeOpts opts' shouldReduce skip)).
      pose proof (Hlimit (idx_name index) o s) as Hl.
      destruct (h (IndexAllDocs (idx_name index) o) s) as [answer s1].
      cbn [fst] in Hl.
      destruct answer as [err | [totalRows results]]; [cbn; discriminate|].
      destruct shouldReduce.
      * cbn [onMapResultsReady run value_of snd]. intro Hr.
        pose proof (reduceIndex_limit index _ opts' m r Hm Hr). lia.
      * specialize (Hl m (inr (totalRows, results))).
        assert (Ho : io_limit o = Some m) by (unfold o; cbn; exact Hm).
        specialize (Hl Ho eq_refl). cbn in Hl.
        destruct (onMapResultsReady_rows h s1 index opts' skip totalRows results)
          as (found & Hv & Hc & _).
        unfold value_of in *.
        destruct (run h (onMapResultsReady index opts' false skip
                           totalRows results) s1) as [[t2 s2] v].
        cbn [fst snd] in *. subst v. intros [= <-]. cbn [rows].
        apply map_length_eq in Hc. lia.
Qed.

(** X12.  The answer of a plain query without [keys] on a persisted view: the
    rows of the one scan, in its order, with the [total_rows] of the
    store and [skip] as [offset]; documents are fetched from the source
    only under [include_docs], one for each row. *)
Theorem plain_range_answer {W : Type} (h : handler W) (s : W)
  (index : Index) (opts : options) (totalRows : Z) (results : list row) :
  reduceInEffect (idx_reduceFun index) opts = false ->
  opt_keys opts = None ->
  let skip := match opt_skip opts with Some n => n | None => 0%nat end in
  let scan := IndexAllDocs (idx_name index)
                (withDocs (rangeOpts opts false skip)) in
  fst (h scan s) = inr (totalRows, results) ->
  let x := run h (queryIndexInner index opts) s in
  exists found,
    value_of x = Success (mkResult (Some totalRows) (Some skip) found)
    /\ List.map columns found = List.map columns results
    /\ List.map op_of (trace_of x)
       = scan :: if opt_include_docs opts
                 then List.map (fun r => SourceGet (joinId r)) results
                 else [].
Proof.
  intros Heff Hkeys skip scan Hscan.
  unfold queryIndexInner. unfold reduceInEffect in Heff. rewrite Heff.
  replace (emptyKeys opts) with opts
    by (unfold emptyKeys; now rewrite Hkeys).
  rewrite Hkeys. fold skip.
  unfold rangeQuery, fetchFromIndex. cbn [bind call run]. fold scan.
  destruct (h scan s) as [answer s1]. cbn [fst] in Hscan. subst answer.
  destruct (onMapResultsReady_rows h s1 index opts skip totalRows results)
    as (found & Hv & Hc & Ht).
  unfold value_of, trace_of in *.
  destruct (run h (onMapResultsReady index opts false skip totalRows results)
              s1) as [[t s2] v].
  cbn [fst snd] in *. exists found. cbn [List.map op_of].
  rewrite Ht. auto.
Qed.
End Pagination.

(** * The entry point *)

Section EntryPoint.
Context `{Host} `{Collate} `{Evaluator}.

(** X13.  [checkQueryParseError] returns an error exactly for an inverted key
    range and for [include_docs] under a reduction in effect. *)
Theorem checkQueryParseError_exact (opts : options)
  (fun_reduce : option string) :
  checkQueryParseError opts fun_reduce = None
  <-> invertedRange opts = false
      /\ reduceInEffect fun_reduce opts && opt_include_docs opts = false.
Proof.
  unfold checkQueryParseError, invertedRange, reduceInEffect.
  destruct (opt_descending opts), (opt_startkey opts) as [a|],
    (opt_endkey opts) as [b|];
    try destruct (collate _ _ >? 0);
    destruct (truthyStr fun_reduce
              && negb match opt_reduce opts with
                      | Some false => true
                      | _ => false
                      end && opt_include_docs opts);
    intuition discriminate.
Qed.


Lemma fetchKeys_reads {W : Type} (h : handler W) (index : Index)
  (lookup : list (string * indices)) :
  forall (s : W) (st : option jsval * list (option (list row)) * Z),
    Forall (fun e => is_update (op_of e) = false)
      (trace_of (run h (fetchKeys index lookup st) s)).
Proof.
  induction lookup as [|[key ix] lookup IH]; intros s st.
  - constructor.
  - cbn [fetchKeys]. unfold fetchFromIndex. cbn [bind call run].
    match goal with
    | |- context [h ?o s] => destruct (h o s) as [answer s1]
    end.
    destruct st as [[keysError results] totalRows].
    match goal with
    | |- context [run h (fetchKeys index lookup ?st') s1] =>
        specialize (IH s1 st');
        unfold trace_of in *;
        destruct (run h (fetchKeys index lookup st') s1) as [[t s2] v]
    end.
    cbn [fst] in *. constructor; [reflexivity | assumption].
Qed.

Lemma onMapResultsReady_reads {W : Type} (h : handler W) (s : W)
  (index : Index) (opts : options) (shouldReduce : bool) (skip : nat)
  (totalRows : Z) (results : list row) :
  Forall (fun e => is_update (op_of e) = false)
    (trace_of (run h (onMapResultsReady index opts shouldReduce skip
                        totalRows results) s)).
Proof.
  destruct shouldReduce.
  - constructor.
  - destruct (onMapResultsReady_rows h s index opts skip totalRows results)
      as (found & _ & _ & Ht).
    apply Forall_forall. intros e He.
    apply (in_map op_of) in He. rewrite Ht in He.
    destruct (opt_include_docs opts); [|contradiction].
    apply in_map_iff in He. destruct He as (r & <- & _). reflexivity.
Qed.

(** A query of the index reads: it scans the secondary database and
    fetches source documents, and makes no call that an update makes. *)
Lemma queryIndexInner_reads {W : Type} (h : handler W) (s : W)
  (index : Index) (opts : options) :
  Forall (fun e => is_update (op_of e) = false)
    (trace_of (run h (queryIndexInner index opts) s)).
Proof.
  unfold queryIndexInner.
  destruct (opt_keys (emptyKeys opts)) as [keys|].
  - unfold keysQuery. rewrite run_bind.
    match goal with
    | |- context [run h (fetchKeys index ?l ?st) s] =>
        pose proof (fetchKeys_reads h index l s st) as Hk;
        unfold trace_of in *;
        destruct (run h (fetchKeys index l st) s)
          as [[t s1] [[keysError results] totalRows]]
    end.
    cbn [fst] in Hk.
    destruct keysError as [err|].
    + cbn. now rewrite app_nil_r.
    + match goal with
      | |- context [run h (onMapResultsReady index ?o ?sr ?sk ?tr ?l) s1] =>
          pose proof (onMapResultsReady_reads h s1 index o sr sk tr l) as Hr;
          unfold trace_of in *;
          destruct (run h (onMapResultsReady index o sr sk tr l) s1)
            as [[t2 s2] v]
      end.
      cbn [fst] in *. now apply Forall_app.
  - unfold rangeQuery, fetchFromIndex. cbn [bind call run].
    match goal with
    | |- context [h ?o s] => destruct (h o s) as [answer s1]
    end.
    destruct answer as [err | [totalRows results]].
    + cbn. repeat constructor.
    + match goal with
      | |- context [run h (onMapResultsReady index ?o ?sr ?sk ?tr ?l) s1] =>
          pose proof (onMapResultsReady_reads h s1 index o sr sk tr l) as Hr;
          unfold trace_of in *;
          destruct (run h (onMapResultsReady index o sr sk tr l) s1)
            as [[t2 s2] v]
      end.
      cbn [fst] in *. constructor; [reflexivity | assumption].
Qed.

Lemma getIndex_reads {W : Type} (h : handler W) (s : W) (db : Database)
  (mapFun : string) (reduceFun : option string) :
  Forall (fun e => is_update (op_of e) = false)
    (trace_of (run h (getIndex db mapFun reduceFun) s)).
Proof.
  unfold getIndex. cbn [bind call run].
  destruct (h SourceInfo s) as [[err | db_name] s1];
    [cbn; repeat constructor|].
  cbn [bind call run].
  match goal with
  | |- context [h ?o s1] => destruct (h o s1) as [[err|] s2]
  end; [cbn; repeat constructor|].
  cbn [bind call run].
  match goal with
  | |- context [h ?o s2] => destruct (h o s2) as [[err | seq] s3]
  end; [destruct (not_found err)|]; cbn; repeat constructor.
Qed.

(** X14.  With [stale: 'ok'], a query of a named view on a local database
    does not update the index: it does not read the changes feed, calls
    no [map], reads no meta record and writes nothing. *)
Theorem stale_ok_does_not_update {W : Type} (h : handler W) (s : W)
  (db : Database) (policy : list change -> list event)
  (designDocName viewName : string) (opts : options) :
  String.eqb (db_type db) "http" = false ->
  isStale opts "ok" = true ->
  Forall (fun e => is_update (op_of e) = false)
    (trace_of (run h (query db policy (Named designDocName viewName) opts) s)).
Proof.
  intros Hlocal Hstale. unfold query. rewrite Hlocal.
  destruct (checkQueryParseError opts None); [constructor|].
  cbn [bind call run].
  destruct (h (SourceGetDesign ("_design/" ++ designDocName)) s)
    as [[err | [views|]] s1]; [cbn; repeat constructor | |
                               cbn; repeat constructor].
  destruct (assoc viewName views) as [def|]; [|cbn; repeat constructor].
  destruct (checkQueryParseError opts (vd_reduce def));
    [cbn; repeat constructor|].
  rewrite run_bind.
  pose proof (getIndex_reads h s1 db (vd_map def) (vd_reduce def)) as Hg.
  unfold trace_of in *.
  destruct (run h (getIndex db (vd_map def) (vd_reduce def)) s1)
    as [[t1 s2] [err | index]].
  - cbn [fst run app] in *. rewrite app_nil_r.
    constructor; [reflexivity | assumption].
  - rewrite Hstale.
    pose proof (queryIndexInner_reads h s2 index opts) as Hq.
    unfold trace_of in *.
    destruct (run h (queryIndexInner index opts) s2) as [[t2 s3] v].
    cbn [fst] in *.
    constructor; [reflexivity | now apply Forall_app].
Qed.

End EntryPoint.

(** * The updater: more on a whole run *)

Ltac fields :=
  cbn [u_seq u_lastSeq u_gotError u_reportedError u_complete u_numStarted
       u_numFinished u_feed u_queue u_stuck u_calls
       te_lastSeq te_numFinished te_cb] in *.

Section UpdateMore.
Context `{Host} `{Collate} `{Evaluator}.

(** The three ways in which a [processChange] task ends. *)
Lemma processChange_cases {W : Type} (h : handler W) (s : W) (index : Index)
  (u : ustate) (doc : change) :
  let e := value_of (run h (processChange index u doc) s) in
  (starts_with_underscore (ch_id doc) = true
   /\ e = mkTaskEnd (u_lastSeq u) (S (u_numFinished u)) (Normal None))
  \/ (skipped (u_seq u) doc = true
      /\ e = mkTaskEnd (u_lastSeq u) (u_numFinished u) (Normal None))
  \/ (starts_with_underscore (ch_id doc) = false
      /\ skipped (u_seq u) doc = false
      /\ (e = mkTaskEnd (Z.max (u_lastSeq u) (ch_seq doc))
                (S (u_numFinished u)) (Normal None)
          \/ (te_lastSeq e = u_lastSeq u
              /\ te_numFinished e = u_numFinished u
              /\ te_cb e <> Normal None))).
Proof.
  unfold processChange, skipped, value_of.
  destruct (starts_with_underscore (ch_id doc)); [left; cbn; auto|].
  right. cbn [negb andb].
  destruct (ch_seq doc <? u_seq u); [left; cbn; auto|].
  right. rewrite run_bind.
  destruct (run h (callMapFun index doc (ch_seq doc)) s) as [[t s1] r].
  repeat split.
  destruct r as [[err|]|w]; cbn; [right | left | right];
    repeat split; discriminate.
Qed.

(** The four things that an event does to the state. *)
Lemma step_cases {W : Type} (h : handler W) (s : W) (index : Index)
  (ev : event) (u : ustate) :
  let u' := value_of (run h (step index ev u) s) in
  u' = u
  \/ (exists doc feed,
         u_feed u = doc :: feed
         /\ u' = mkUstate (u_seq u) (u_lastSeq u) (u_gotError u)
                   (u_reportedError u) (u_complete u) (S (u_numStarted u))
                   (u_numFinished u) feed (u_queue u ++ [doc]) (u_stuck u)
                   (u_calls u))
  \/ (exists doc rest s',
         u_stuck u = false /\ u_queue u = doc :: rest
         /\ u' = taskCallback u rest
                   (value_of (run h (processChange index u doc) s')))
  \/ (u_feed u = [] /\ u_complete u = false
      /\ u' = checkComplete
                (mkUstate (u_seq u) (u_lastSeq u) (u_gotError u)
                   (u_reportedError u) true (u_numStarted u)
                   (u_numFinished u) (u_feed u) (u_queue u) (u_stuck u)
                   (u_calls u))).
Proof.
  destruct ev; unfold step, value_of.
  - destruct (u_feed u) as [|doc feed]; [now left|].
    right. left. exists doc, feed. auto.
  - unfold nextTask.
    destruct (u_stuck u); [now left|].
    destruct (u_queue u) as [|doc rest]; [now left|].
    right. right. left. exists doc, rest, s.
    rewrite run_bind. unfold value_of.
    destruct (run h (processChange index u doc) s) as [[t s1] e].
    cbn. auto.
  - destruct (u_feed u) as [|doc feed]; [|now left].
    destruct (u_complete u); [now left|].
    right. right. right. cbn. auto.
Qed.

Lemma updating_queue {W : Type} (seq0 : Z) (feed0 : list change) (u : ustate)
  (doc : change) (rest : list change) :
  updating seq0 feed0 u ->
  u_queue u = doc :: rest ->
  u_seq u = seq0 /\ In doc feed0.
Proof.
  intros (Hcount & _ & Hincl & Hst) Hq. rewrite Hq in *. split.
  - destruct (u_gotError u).
    + now destruct Hst as (_ & _ & ->).
    + destruct Hst as [_ [[_ ->] | (_ & _ & Heq)]]; [reflexivity|].
      cbn in Hcount. lia.
  - apply Hincl. now left.
Qed.

(** An invariant of the steps is an invariant of the run. *)
Lemma updateLoop_invariant {W : Type} (h : handler W) (index : Index)
  (seq0 : Z) (feed0 : list change) (P : ustate -> Prop) :
  (forall (s : W) (ev : event) (u : ustate),
      updating seq0 feed0 u -> P u ->
      P (value_of (run h (step index ev u) s))) ->
  forall (sched : list event) (s : W) (u : ustate),
    updating seq0 feed0 u -> P u ->
    P (value_of (run h (updateLoop index sched u) s)).
Proof.
  intros Hstep.
  induction sched as [|ev sched IH]; intros s u Hu HP.
  - exact HP.
  - cbn [updateLoop]. rewrite run_bind.
    destruct (step_updating h s index seq0 feed0 ev u Hu) as [Hu1 _].
    specialize (Hstep s ev u Hu HP).
    unfold value_of in *.
    destruct (run h (step index ev u) s) as [[t1 s1] u1].
    cbn [snd] in *.
    specialize (IH s1 u1 Hu1 Hstep).
    destruct (run h (updateLoop index sched u1) s1) as [[t2 s2] u2].
    exact IH.
Qed.

Lemma updateIndexInner_invariant {W : Type} (h : handler W) (s : W)
  (index : Index) (policy : list change -> list event)
  (P : list change -> ustate -> Prop) :
  (forall feed, P feed (initial index feed)) ->
  (forall feed (s' : W) (ev : event) (u : ustate),
      updating (idx_seq index) feed u -> P feed u ->
      P feed (value_of (run h (step index ev u) s'))) ->
  let x := run h (updateIndexInner index policy) s in
  updating (idx_seq index) (fst (h (SourceChanges (idx_seq index)) s))
    (value_of x)
  /\ P (fst (h (SourceChanges (idx_seq index)) s)) (value_of x).
Proof.
  intros Hinit Hstep. unfold updateIndexInner. cbn [bind call run].
  destruct (h (SourceChanges (idx_seq index)) s) as [feed s1]. cbn [fst].
  pose proof (updateLoop_updating h index (idx_seq index) feed (policy feed)
                s1 (initial index feed) (initial_updating index feed))
    as [Hu _].
  pose proof (updateLoop_invariant h index (idx_seq index) feed (P feed)
                (Hstep feed) (policy feed) s1 (initial index feed)
                (initial_updating index feed) (Hinit feed)) as HP.
  unfold value_of in *.
  destruct (run h (updateLoop index (policy feed) (initial index feed)) s1)
    as [[t s2] u].
  cbn [snd] in *. auto.
Qed.

(** X16.  The callback of an update is called at most once, whatever the
    order of the events: with [null] only once the feed is complete
    and every change started has finished, none with an error; with an
    error as soon as one is recorded; and [index.seq] moves only on
    success. *)
Theorem update_calls_back_once {W : Type} (h : handler W) (s : W)
  (index : Index) (policy : list change -> list event) :
  let u := value_of (run h (updateIndexInner index policy) s) in
  match u_calls u with
  | [] => u_gotError u = None /\ u_seq u = idx_seq index
  | [None] =>
      u_gotError u = None /\ u_complete u = true
      /\ u_numStarted u = u_numFinished u /\ u_queue u = []
  | [Some _] => u_gotError u <> None /\ u_seq u = idx_seq index
  | _ => False
  end.
Proof.
  destruct (updateIndexInner_invariant h s index policy (fun _ _ => True))
    as [Hu _]; [auto | auto |].
  cbv zeta.
  destruct Hu as (Hcount & _ & _ & Hst).
  destruct (u_gotError _) as [g|].
  - destruct Hst as (_ & [e ->] & Hseq). split; [discriminate | assumption].
  - destruct Hst as [_ [[-> Hseq] | (-> & Hc & Heq)]]; [auto|].
    repeat split; try assumption.
    rewrite Heq in Hcount.
    destruct (u_queue _); [reflexivity | cbn in Hcount; lia].
Qed.

Lemma checkComplete_seq (u : ustate) :
  u_lastSeq (checkComplete u) = u_lastSeq u
  /\ (u_seq (checkComplete u) = u_seq u
      \/ u_seq (checkComplete u) = u_lastSeq u).
Proof.
  unfold checkComplete.
  destruct (u_gotError u); [destruct (u_reportedError u)|
    destruct (u_complete u && Nat.eqb (u_numStarted u) (u_numFinished u))];
    cbn; auto.
Qed.

Lemma step_seqFollowsFeed {W : Type} (h : handler W) (index : Index)
  (seq0 : Z) (feed0 : list change) (s : W) (ev : event) (u : ustate) :
  updating seq0 feed0 u ->
  seqFollowsFeed seq0 feed0 u ->
  seqFollowsFeed seq0 feed0 (value_of (run h (step index ev u) s)).
Proof.
  intros Hu (Hle & Hfrom & Hseq).
  destruct (step_cases h s index ev u)
    as [-> | [(doc & feed & _ & ->) | [(doc & rest & s' & _ & Hq & ->)
       | (_ & _ & ->)]]].
  - unfold seqFollowsFeed. auto.
  - unfold seqFollowsFeed. cbn. auto.
  - destruct (updating_queue (W := W) seq0 feed0 u doc rest Hu Hq)
      as [Hseq0 Hin].
    pose proof (processChange_cases h s' index u doc) as Hcases.
    cbv zeta in Hcases.
    generalize dependent (value_of (run h (processChange index u doc) s')).
    intros e Hcases.
    assert (Hlast :
      seq0 <= te_lastSeq e
      /\ (te_lastSeq e = seq0
          \/ exists c, In c feed0
                       /\ starts_with_underscore (ch_id c) = false
                       /\ ch_seq c = te_lastSeq e)).
    { destruct Hcases
        as [[_ ->] | [[_ ->] | (Hid & _ & [-> | (-> & _ & _)])]];
        cbn [te_lastSeq]; auto.
      destruct (Z.max_spec (u_lastSeq u) (ch_seq doc)) as [[Hlt ->] | [_ ->]];
        [|auto].
      split; [lia|]. right. exists doc. auto. }
    destruct Hlast as [Hle' Hfrom'].
    unfold taskCallback.
    destruct (te_cb _) as [err|w].
    + match goal with
      | |- seqFollowsFeed _ _ (checkComplete ?st) =>
          destruct (checkComplete_seq st) as [Hl Hs]
      end.
      unfold seqFollowsFeed. rewrite Hl. cbn [u_lastSeq u_seq] in *.
      repeat split; try assumption.
      destruct Hs as [-> | ->]; auto.
    + unfold seqFollowsFeed. cbn. auto.
  - match goal with
    | |- seqFollowsFeed _ _ (checkComplete ?st) =>
        destruct (checkComplete_seq st) as [Hl Hs]
    end.
    unfold seqFollowsFeed. rewrite Hl. cbn [u_lastSeq u_seq] in *.
    repeat split; try assumption.
    destruct Hs as [-> | ->]; auto.
Qed.

(** X17.  [index.seq] never goes back in an update, whatever the order of
    the events, and when it moves it moves to the [seq] of a change of
    the feed that went through [map]. *)
Theorem index_seq_advances {W : Type} (h : handler W) (s : W)
  (index : Index) (policy : list change -> list event) :
  let u := value_of (run h (updateIndexInner index policy) s) in
  idx_seq index <= u_seq u
  /\ (u_seq u = idx_seq index
      \/ exists c, In c (fst (h (SourceChanges (idx_seq index)) s))
                   /\ starts_with_underscore (ch_id c) = false
                   /\ ch_seq c = u_seq u).
Proof.
  destruct (updateIndexInner_invariant h s index policy
              (fun feed u => seqFollowsFeed (idx_seq index) feed u))
    as [_ (Hle & Hfrom & Hseq)].
  - intro feed. unfold seqFollowsFeed, initial. cbn. repeat split; auto; lia.
  - intros feed s' ev u. apply step_seqFollowsFeed.
  - cbv zeta. destruct Hseq as [-> | ->]; [split; [lia | auto]|].
    split; [assumption|]. destruct Hfrom as [-> | Hfrom]; auto.
Qed.

Lemma replayed_le (seq0 : Z) (l : list change) :
  (replayed seq0 l <= List.length l)%nat.
Proof. unfold replayed. apply filter_length_le. Qed.

Lemma replayed_cons (seq0 : Z) (doc : change) (l : list change) :
  replayed seq0 (doc :: l)
  = ((if skipped seq0 doc then 1 else 0) + replayed seq0 l)%nat.
Proof. unfold replayed. cbn. now destruct (skipped seq0 doc). Qed.

Lemma replayed_app (seq0 : Z) (l1 l2 : list change) :
  replayed seq0 (l1 ++ l2) = (replayed seq0 l1 + replayed seq0 l2)%nat.
Proof. unfold replayed. now rewrite filter_app, length_app. Qed.

Lemma checkComplete_heldBack (seq0 : Z) (feed0 : list change) (u : ustate) :
  (0 < replayed seq0 feed0)%nat ->
  (u_complete u = true -> u_feed u = []) ->
  heldBack seq0 feed0 u -> heldBack seq0 feed0 (checkComplete u).
Proof.
  intros Hpos Hfeed (Hseq & Hcalls & Hcount).
  unfold checkComplete.
  destruct (u_gotError u) as [g|].
  - destruct (u_reportedError u); unfold heldBack; cbn; auto.
    repeat split; try assumption.
    rewrite in_app_iff. intros [Hin | [Hin | []]]; [auto | discriminate].
  - destruct (u_complete u && Nat.eqb (u_numStarted u) (u_numFinished u))
      eqn:E; [|unfold heldBack; auto].
    apply andb_true_iff in E. destruct E as [Hc E].
    apply Nat.eqb_eq in E. rewrite (Hfeed Hc) in Hcount.
    pose proof (replayed_le seq0 (u_queue u)).
    unfold replayed at 3 in Hcount. cbn in Hcount. lia.
Qed.

Lemma step_heldBack {W : Type} (h : handler W) (index : Index)
  (seq0 : Z) (feed0 : list change) (s : W) (ev : event) (u : ustate) :
  (0 < replayed seq0 feed0)%nat ->
  updating seq0 feed0 u ->
  heldBack seq0 feed0 u ->
  heldBack seq0 feed0 (value_of (run h (step index ev u) s)).
Proof.
  intros Hpos Hu Hheld.
  assert (Hfeed : u_complete u = true -> u_feed u = [])
    by (now destruct Hu as (_ & Hfeed & _)).
  destruct Hheld as (Hseq & Hcalls & Hcount).
  destruct (step_cases h s index ev u)
    as [-> | [(doc & feed & Hf & ->) | [(doc & rest & s' & _ & Hq & ->)
       | (Hf & _ & ->)]]].
  - unfold heldBack. auto.
  - unfold heldBack. fields.
    rewrite Hf, replayed_cons in Hcount.
    rewrite replayed_app, replayed_cons, length_app.
    change (replayed seq0 []) with 0%nat. cbn [List.length].
    repeat split; try assumption. lia.
  - rewrite Hq, replayed_cons in Hcount. cbn [List.length] in Hcount.
    pose proof (processChange_cases h s' index u doc) as Hcases.
    cbv zeta in Hcases.
    generalize dependent (value_of (run h (processChange index u doc) s')).
    intros e Hcases.
    assert (Hend :
      (te_numFinished e + List.length rest + replayed seq0 feed0
       <= u_numStarted u + replayed seq0 rest + replayed seq0 (u_feed u))%nat).
    { rewrite <- Hseq in Hcount |- *.
      destruct Hcases
        as [[Hid ->] | [[Hsk ->] | (_ & Hsk & [-> | (_ & -> & _)])]];
        cbn [te_numFinished].
      - unfold skipped in Hcount. rewrite Hid in Hcount. cbn in Hcount. lia.
      - rewrite Hsk in Hcount. lia.
      - rewrite Hsk in Hcount. lia.
      - rewrite Hsk in Hcount. lia. }
    unfold taskCallback.
    destruct (te_cb _) as [err|w].
    + apply checkComplete_heldBack; [assumption | exact Hfeed |].
      unfold heldBack. fields. auto.
    + unfold heldBack. fields. auto.
  - apply checkComplete_heldBack; [assumption | fields; auto |].
    unfold heldBack. fields. rewrite Hf in *. auto.
Qed.

(** X18.  A change that [processChange] passes over because its [seq] is
    below [index.seq] is never counted as finished: when the feed
    delivers such a change the update never succeeds, in any order of
    the events, and [index.seq] stays where it was. *)
Theorem update_held_back {W : Type} (h : handler W) (s : W)
  (index : Index) (policy : list change -> list event) :
  existsb (skipped (idx_seq index))
    (fst (h (SourceChanges (idx_seq index)) s)) = true ->
  let u := value_of (run h (updateIndexInner index policy) s) in
  ~ In None (u_calls u) /\ u_seq u = idx_seq index.
Proof.
  intro Hsome.
  assert (Hpos : (0 < replayed (idx_seq index)
                        (fst (h (SourceChanges (idx_seq index)) s)))%nat).
  { apply existsb_exists in Hsome. destruct Hsome as (c & Hin & Hc).
    unfold replayed.
    assert (Hf : In c (filter (skipped (idx_seq index))
                         (fst (h (SourceChanges (idx_seq index)) s))))
      by (apply filter_In; auto).
    destruct (filter _ _); [contradiction | cbn; lia]. }
  destruct (updateIndexInner_invariant h s index policy
              (fun feed u =>
                 (0 < replayed (idx_seq index) feed)%nat ->
                 heldBack (idx_seq index) feed u))
    as [_ Hheld].
  - intros feed _. unfold heldBack, initial. fields.
    change (replayed (idx_seq index) []) with 0%nat. cbn [List.length].
    repeat split; auto.
  - intros feed s' ev u Hu Hheld Hp.
    apply step_heldBack; auto.
  - destruct (Hheld Hpos) as (Hseq & Hcalls & _). auto.
Qed.

(** * The updater: a sequential run *)

Lemma step_keeps_failure {W : Type} (h : handler W) (index : Index) (s : W)
  (ev : event) (u : ustate) :
  let u' := value_of (run h (step index ev u) s) in
  (u_gotError u <> None -> u_gotError u' <> None)
  /\ (u_stuck u = true -> u_stuck u' = true).
Proof.
  assert (Hcheck : forall st,
            u_gotError (checkComplete st) = u_gotError st
            /\ u_stuck (checkComplete st) = u_stuck st).
  { intros [seq lastSeq [g|] [|] complete nS nF feed queue stuck calls];
      unfold checkComplete; cbn; auto.
    all: destruct (complete && Nat.eqb nS nF); auto. }
  destruct (step_cases h s index ev u)
    as [-> | [(doc & feed & _ & ->) | [(doc & rest & s' & Hst & _ & ->)
       | (_ & _ & ->)]]]; cbn zeta.
  - auto.
  - cbn. auto.
  - split; [|congruence].
    unfold taskCallback.
    destruct (te_cb _) as [err|w]; [|cbn; auto].
    match goal with
    | |- _ -> u_gotError (checkComplete ?st) <> None =>
        destruct (Hcheck st) as [-> _]
    end.
    cbn. destruct err; [discriminate | auto].
  - match goal with
    | |- context [checkComplete ?st] => destruct (Hcheck st) as [-> ->]
    end.
    cbn. auto.
Qed.

Lemma updateLoop_keeps_failure {W : Type} (h : handler W) (index : Index)
  (sched : list event) :
  forall (s : W) (u : ustate),
    let u' := value_of (run h (updateLoop index sched u) s) in
    (u_gotError u <> None -> u_gotError u' <> None)
    /\ (u_stuck u = true -> u_stuck u' = true).
Proof.
  induction sched as [|ev sched IH]; intros s u.
  - cbn. auto.
  - cbn [updateLoop]. rewrite run_bind.
    destruct (step_keeps_failure h index s ev u) as [He Hs].
    unfold value_of in *.
    destruct (run h (step index ev u) s) as [[t1 s1] u1].
    cbn [snd] in *.
    destruct (IH s1 u1) as [He' Hs'].
    unfold value_of in *.
    destruct (run h (updateLoop index sched u1) s1) as [[t2 s2] u2].
    cbn [snd] in *. auto.
Qed.

Lemma updateLoop_cons {W : Type} (h : handler W) (index : Index)
  (ev : event) (sched : list event) (s : W) (u : ustate) :
  value_of (run h (updateLoop index (ev :: sched) u) s)
  = value_of (run h (updateLoop index sched
                       (value_of (run h (step index ev u) s)))
                (env_of (run h (step index ev u) s))).
Proof.
  cbn [updateLoop]. rewrite run_bind. unfold value_of, env_of.
  destruct (run h (step index ev u) s) as [[t1 s1] u1]. cbn [fst snd].
  now destruct (run h (updateLoop index sched u1) s1) as [[t2 s2] u2].
Qed.

Lemma step_RunTask {W : Type} (h : handler W) (index : Index) (s : W)
  (u : ustate) (doc : change) (rest : list change) :
  u_stuck u = false ->
  u_queue u = doc :: rest ->
  value_of (run h (step index RunTask u) s)
  = taskCallback u rest (value_of (run h (processChange index u doc) s))
  /\ env_of (run h (step index RunTask u) s)
     = env_of (run h (processChange index u doc) s).
Proof.
  intros Hstuck Hq. unfold step, nextTask. rewrite Hstuck, Hq.
  rewrite run_bind. unfold value_of, env_of.
  now destruct (run h (processChange index u doc) s) as [[t s1] e].
Qed.

Lemma sequential_from {W : Type} (h : handler W) (index : Index) (seq0 : Z)
  (rest : list change) :
  forall (s : W) (u : ustate),
    betweenChanges seq0 rest u ->
    Forall (fun c => seq0 <= ch_seq c) rest ->
    let u' := value_of (run h (updateLoop index (sequential rest) u) s) in
    u_gotError u' = None ->
    u_stuck u' = false ->
    u_calls u' = [None]
    /\ u_seq u' = fold_left Z.max (mappedSeqs rest) (u_lastSeq u).
Proof.
  unfold sequential.
  induction rest as [|doc rest IH];
    intros s u (Hf & Hq & Hc & Hcalls & Herr & Hstuck & Hn & Hseq) Hall;
    cbv zeta.
  - cbn [flat_map app updateLoop step bind run].
    rewrite Hf, Hc. cbn [run bind value_of snd].
    unfold checkComplete. fields.
    rewrite Herr, Hn, Nat.eqb_refl, Hcalls. cbn. auto.
  - cbn [flat_map app].
    rewrite (updateLoop_cons h index Deliver).
    assert (Hd : run h (step index Deliver u) s
                 = ([], s,
                    mkUstate (u_seq u) (u_lastSeq u) (u_gotError u)
                      (u_reportedError u) (u_complete u) (S (u_numStarted u))
                      (u_numFinished u) rest [doc] (u_stuck u) (u_calls u))).
    { unfold step, addTask. rewrite Hf, Hq. reflexivity. }
    rewrite Hd. cbn [value_of env_of fst snd].
    set (u1 := mkUstate _ _ _ _ _ _ _ _ _ _ _).
    rewrite (updateLoop_cons h index RunTask).
    destruct (step_RunTask h index s u1 doc [] Hstuck eq_refl) as [-> ->].
    pose proof (processChange_cases h s index u1 doc) as Hcases.
    cbv zeta in Hcases.
    generalize dependent (value_of (run h (processChange index u1 doc) s)).
    intros e Hcases.
    generalize (env_of (run h (processChange index u1 doc) s)). intro s1.
    apply Forall_cons_iff in Hall. destruct Hall as [Hdoc Hall].
    assert (Hok : forall lastSeq,
              e = mkTaskEnd lastSeq (S (u_numFinished u)) (Normal None) ->
              betweenChanges seq0 rest (taskCallback u1 [] e)
              /\ u_lastSeq (taskCallback u1 [] e) = lastSeq).
    { intros lastSeq ->.
      unfold taskCallback, checkComplete, betweenChanges, u1.
      fields. rewrite Herr, Hc. cbn [andb]. fields.
      rewrite Hn. repeat split; auto. }
    assert (Hbad : te_cb e <> Normal None ->
              u_gotError (taskCallback u1 [] e) <> None
              \/ u_stuck (taskCallback u1 [] e) = true).
    { intro Hne. unfold taskCallback.
      destruct (te_cb e) as [[err|]|w]; [left | congruence | right; reflexivity].
      unfold checkComplete, u1. fields.
      destruct (u_reportedError u); fields; discriminate. }
    pose proof (updateLoop_keeps_failure h index
                  (flat_map (fun _ => [Deliver; RunTask]) rest ++ [Complete])
                  s1 (taskCallback u1 [] e)) as [Hkeep1 Hkeep2].
    cbv zeta in Hkeep1, Hkeep2.
    specialize (IH s1 (taskCallback u1 [] e)). cbv zeta in IH.
    generalize dependent
      (value_of (run h (updateLoop index
                          (flat_map (fun _ => [Deliver; RunTask]) rest
                           ++ [Complete]) (taskCallback u1 [] e)) s1)).
    intros u2 IH Hkeep1 Hkeep2 Hnone Hfree.
    unfold mappedSeqs. cbn [filter].
    destruct Hcases as [[Hid He] | [[Hsk _] | (Hid & _ & [He | (_ & _ & Hne)])]].
    + destruct (Hok _ He) as [Hb Hl].
      destruct (IH Hb Hall Hnone Hfree) as [Hr1 Hr2].
      rewrite Hid. cbn [negb]. split; [assumption|].
      rewrite Hr2, Hl. reflexivity.
    + exfalso. unfold skipped in Hsk. apply andb_true_iff in Hsk.
      destruct Hsk as [_ Hlt]. apply Z.ltb_lt in Hlt.
      unfold u1 in Hlt. fields. lia.
    + destruct (Hok _ He) as [Hb Hl].
      destruct (IH Hb Hall Hnone Hfree) as [Hr1 Hr2].
      rewrite Hid. cbn [negb List.map fold_left]. split; [assumption|].
      rewrite Hr2, Hl. reflexivity.
    + exfalso. destruct (Hbad Hne) as [Hg | Hs].
      * now apply Hkeep1.
      * rewrite (Hkeep2 Hs) in Hfree. discriminate.
Qed.

(** X19.  When each task calls back before the next change is delivered, the
    feed delivers no change below [index.seq], no task reports an error
    and no reduce function throws, the update succeeds: its callback is
    called once, with [null], and [index.seq] becomes the greatest of
    its old value and the [seq] of the changes whose id does not start
    with an underscore. *)
Theorem sequential_update_succeeds {W : Type} (h : handler W) (s : W)
  (index : Index) :
  let feed := fst (h (SourceChanges (idx_seq index)) s) in
  let u := value_of (run h (updateIndexInner index (@sequential)) s) in
  Forall (fun c => idx_seq index <= ch_seq c) feed ->
  u_gotError u = None ->
  u_stuck u = false ->
  u_calls u = [None]
  /\ u_seq u = fold_left Z.max (mappedSeqs feed) (idx_seq index).
Proof.
  unfold updateIndexInner. cbn [bind call run].
  destruct (h (SourceChanges (idx_seq index)) s) as [feed s1]. cbn [fst].
  pose proof (sequential_from h index (idx_seq index) feed s1
                (initial index feed)) as Hrun.
  unfold value_of in *.
  destruct (run h (updateLoop index (sequential feed) (initial index feed)) s1)
    as [[t s2] u].
  cbn [snd] in *. intros Hall Hnone Hfree.
  apply Hrun; try assumption.
  unfold betweenChanges, initial. cbn. repeat split.
Qed.
End UpdateMore.

(** * The updater: the batch of a change *)

Section Batches.
Context `{Host} `{Collate} `{Evaluator}.

Lemma batchOf_cons (index : Index) (o : list (string * row)) (docId : string)
  (seq : Z) (e : io) (t : list io) :
  written [e] = [] ->
  batchOf index o docId seq t -> batchOf index o docId seq (e :: t).
Proof.
  intros He Ht docs Hin.
  change (e :: t) with ([e] ++ t)%list in Hin.
  rewrite written_app, He in Hin.
  destruct (Ht docs Hin) as (metaKeys & found & Hio & Hdocs).
  exists metaKeys, found. split; [now right | assumption].
Qed.

Lemma diffAndWrite_batch {S : Type} (h : handler S) (s : S)
  (index : Index) (o : list (string * row)) (docId : string) (seq : Z)
  (metaKeys : list string) :
  batchOf index o docId seq
    (trace_of (run h (diffAndWrite index o docId seq metaKeys) s)).
Proof.
  unfold diffAndWrite, writeBatch, trace_of, batchOf.
  cbn [bind call run].
  destruct (h (IndexAllDocsKeys (idx_name index) metaKeys) s) as [r s1].
  destruct r as [err | found]; cbn [bind call run].
  - cbn. contradiction.
  - destruct (h (IndexBulkDocs (idx_name index) _) s1) as [r s2].
    cbn [fst]. intros docs [<- | []].
    exists metaKeys, found. split; [now left | reflexivity].
Qed.

Lemma withLastSeqDoc_batch {S : Type} (h : handler S) (s : S)
  (index : Index) (o : list (string * row)) (docId : string) (seq : Z) :
  batchOf index o docId seq
    (trace_of (run h (withLastSeqDoc index o docId seq) s)).
Proof.
  unfold withLastSeqDoc, trace_of. cbn [bind call run].
  destruct (h (IndexGetLastSeq (idx_name index)) s) as [r s1].
  assert (Hmeta : batchOf index o docId seq
                    (trace_of (run h (withMetaDoc index o docId seq) s1))).
  { unfold withMetaDoc, trace_of. cbn [bind call run].
    destruct (h (IndexGetMeta (idx_name index) docId) s1) as [r' s2].
    assert (Hnext := fun keys => diffAndWrite_batch h s2 index o docId seq keys).
    unfold trace_of in Hnext.
    destruct r' as [err | keys]; [destruct (not_found err)|].
    - specialize (Hnext []).
      destruct (run h (diffAndWrite index o docId seq []) s2) as [[t s3] a].
      apply batchOf_cons; [reflexivity | exact Hnext].
    - intros docs [].
    - specialize (Hnext keys).
      destruct (run h (diffAndWrite index o docId seq keys) s2) as [[t s3] a].
      apply batchOf_cons; [reflexivity | exact Hnext]. }
  unfold trace_of in Hmeta.
  destruct r as [err | seq0]; [destruct (not_found err)|].
  - destruct (run h (withMetaDoc index o docId seq) s1) as [[t s2] a].
    apply batchOf_cons; [reflexivity | exact Hmeta].
  - intros docs [].
  - destruct (run h (withMetaDoc index o docId seq) s1) as [[t s2] a].
    apply batchOf_cons; [reflexivity | exact Hmeta].
Qed.

(** What [callMapFun] writes: one batch at most, built from the
    emitted pairs of the run, the old keys looked up and the documents
    returned for them. *)
Lemma callMapFun_batch {S : Type} (h : handler S) (s : S)
  (index : Index) (doc : change) (seq : Z) (docs : list storeDoc) :
  let t := trace_of (run h (callMapFun index doc seq) s) in
  In docs (written t) ->
  exists o metaKeys found,
    In (Io (IndexAllDocsKeys (idx_name index) metaKeys) (inr found)) t
    /\ docs = buildBatch o (doc_id (ch_doc doc)) metaKeys seq (somes found)
    /\ (ch_deleted doc = true -> o = [])
    /\ forall id : string,
         In id (keysOf o)
         <-> (exists n key value,
                 nth_error (List.concat (emitted t)) n = Some (key, value)
                 /\ id = compositeKey key (doc_id (ch_doc doc)) value n).
Proof.
  unfold callMapFun, trace_of. rewrite run_bind.
  unfold mapDoc.
  destruct (ch_deleted doc) eqn:Edel.
  - cbn [run].
    assert (Hnext := withLastSeqDoc_batch h s index []
                       (doc_id (ch_doc doc)) seq).
    destruct (withLastSeqDoc_trace h s index [] (doc_id (ch_doc doc)) seq)
      as [Hemit _].
    unfold trace_of in Hnext, Hemit.
    destruct (run h (withLastSeqDoc index [] _ seq) s) as [[t s1] a].
    cbn [fst app] in *. intros Hin. rewrite Hemit.
    destruct (Hnext docs Hin) as (metaKeys & found & Hio & ->).
    exists [], metaKeys, found. repeat split; try assumption.
    + intros [].
    + intros (n & key & value & Hn & _). now destruct n.
  - cbn [bind call run].
    destruct (h (CallMap (idx_mapFun index) (doc_body (ch_doc doc))) s)
      as [emits s1].
    set (o := snd (emitAll (doc_id (ch_doc doc)) emits)).
    assert (Hkeys : forall o',
      match resolveReduce (idx_reduceFun index) with
      | Some reduceFun => addReduceOutputs reduceFun o
      | None => Normal o
      end = Normal o' -> keysOf o' = keysOf o).
    { intro o'. destruct (resolveReduce (idx_reduceFun index)).
      - apply addReduceOutputs_keys.
      - now intros [= <-]. }
    destruct (match resolveReduce (idx_reduceFun index) with
              | Some reduceFun => addReduceOutputs reduceFun o
              | None => Normal o
              end) as [o'|w] eqn:E.
    + assert (Hrun :
        run h match resolveReduce (idx_reduceFun index) with
              | Some reduceFun => Ret (addReduceOutputs reduceFun o)
              | None => Ret (Normal o)
              end s1 = ([], s1, Normal o')).
      { destruct (resolveReduce (idx_reduceFun index)); cbn; now rewrite E. }
      rewrite Hrun.
      assert (Hnext := withLastSeqDoc_batch h s1 index o'
                         (doc_id (ch_doc doc)) seq).
      destruct (withLastSeqDoc_trace h s1 index o' (doc_id (ch_doc doc)) seq)
        as [Hemit _].
      unfold trace_of in Hnext, Hemit.
      destruct (run h (withLastSeqDoc index o' _ seq) s1) as [[t s2] a].
      cbn [fst app] in *.
      intros Hin.
      assert (Hin' : In docs (written t)) by exact Hin.
      destruct (Hnext docs Hin') as (metaKeys & found & Hio & ->).
      exists o', metaKeys, found. repeat split.
      * now right.
      * discriminate.
      * rewrite (Hkeys o' eq_refl).
        change (emitted (Io (CallMap (idx_mapFun index)
                               (doc_body (ch_doc doc))) emits :: t))
          with ([emits] ++ emitted t)%list.
        rewrite Hemit. cbn [app List.concat]. rewrite app_nil_r.
        apply emitAll_keys.
      * rewrite (Hkeys o' eq_refl).
        change (emitted (Io (CallMap (idx_mapFun index)
                               (doc_body (ch_doc doc))) emits :: t))
          with ([emits] ++ emitted t)%list.
        rewrite Hemit. cbn [app List.concat]. rewrite app_nil_r.
        apply emitAll_keys.
    + assert (Hrun :
        run h match resolveReduce (idx_reduceFun index) with
              | Some reduceFun => Ret (addReduceOutputs reduceFun o)
              | None => Ret (Normal o)
              end s1 = ([], s1, Throw w)).
      { destruct (resolveReduce (idx_reduceFun index)); cbn; now rewrite E. }
      rewrite Hrun. cbn. contradiction.
Qed.

(** X20.  For a deleted document [map] is not called, and the batch written
    tombstones every document that the secondary database returned for
    the old keys of the document; the meta record keeps those keys, and
    [_local/lastSeq] comes last. *)
Theorem deleted_change_tombstones {S : Type} (h : handler S) (s : S)
  (index : Index) (doc : change) (seq : Z) :
  ch_deleted doc = true ->
  let t := trace_of (run h (callMapFun index doc seq) s) in
  emitted t = []
  /\ forall docs, In docs (written t) ->
       exists metaKeys found,
         In (Io (IndexAllDocsKeys (idx_name index) metaKeys) (inr found)) t
         /\ docs
            = (List.map (fun kv => KvDoc (fst kv) (snd kv) true) (somes found)
               ++ [MetaDoc ("_local/doc_" ++ doc_id (ch_doc doc))
                     (uniq metaKeys);
                   LastSeqDoc "_local/lastSeq" seq])%list.
Proof.
  intros Hdel t. split.
  - unfold t, callMapFun, mapDoc, trace_of. rewrite Hdel, run_bind.
    cbn [run].
    destruct (withLastSeqDoc_trace h s index [] (doc_id (ch_doc doc)) seq)
      as [Hemit _].
    unfold trace_of in Hemit.
    destruct (run h (withLastSeqDoc index [] _ seq) s) as [[t1 s1] a].
    exact Hemit.
  - intros docs Hin.
    destruct (callMapFun_batch h s index doc seq docs Hin)
      as (o & metaKeys & found & Hio & -> & Ho & _).
    rewrite (Ho Hdel).
    exists metaKeys, found. split; [exact Hio|].
    unfold buildBatch. cbn [filter List.map keysOf app].
    reflexivity.
Qed.

(** X21.  The meta record of a batch lists, each once, the keys emitted for
    the document together with all the old keys that were looked up:
    the list of a document never loses a key.  The key/value records
    come first in the batch, then the meta record, then
    [_local/lastSeq]. *)
Theorem meta_record_keeps_keys {S : Type} (h : handler S) (s : S)
  (index : Index) (doc : change) (seq : Z) (docs : list storeDoc) :
  let t := trace_of (run h (callMapFun index doc seq) s) in
  In docs (written t) ->
  exists metaKeys found records keys,
    In (Io (IndexAllDocsKeys (idx_name index) metaKeys) (inr found)) t
    /\ docs = (records
               ++ [MetaDoc ("_local/doc_" ++ doc_id (ch_doc doc)) keys;
                   LastSeqDoc "_local/lastSeq" seq])%list
    /\ forallb isKvDoc records = true
    /\ NoDup keys
    /\ forall k : string,
         In k keys
         <-> In k metaKeys
             \/ exists n key value,
                  nth_error (List.concat (emitted t)) n = Some (key, value)
                  /\ k = compositeKey key (doc_id (ch_doc doc)) value n.
Proof.
  intros t Hin.
  destruct (callMapFun_batch h s index doc seq docs Hin)
    as (o & metaKeys & found & Hio & -> & _ & Hkeys).
  fold t in Hkeys, Hio.
  destruct (uniq_keys (keysOf o ++ metaKeys)) as [Hnd Hmem].
  exists metaKeys, found.
  eexists. eexists.
  split; [exact Hio|].
  split; [unfold buildBatch; rewrite app_assoc; reflexivity|].
  split; [|split; [exact Hnd|]].
  - rewrite forallb_app. apply andb_true_iff.
    split; apply forallb_forall.
    + intros d Hd. apply in_map_iff in Hd. destruct Hd as (kv & <- & _).
      unfold markOld. now destruct (assoc (fst kv) o).
    + intros d Hd. apply in_map_iff in Hd. now destruct Hd as (kv & <- & _).
  - intro k. rewrite Hmem, in_app_iff, Hkeys. intuition.
Qed.
End Batches.

(** * Queries with [keys] on a persisted view *)

Lemma scanAnswers_app (t1 t2 : list io) :
  scanAnswers (t1 ++ t2) = (scanAnswers t1 ++ scanAnswers t2)%list.
Proof. unfold scanAnswers. now rewrite flat_map_app. Qed.

Lemma nth_error_setNth {A : Type} (n : nat) (x : A) (l : list A) (j : nat) :
  nth_error (setNth n x l) j
  = match nth_error l j with
    | None => None
    | Some y => Some (if Nat.eqb j n then x else y)
    end.
Proof.
  revert n j. induction l as [|y l IH]; intros [|n] [|j]; cbn; auto.
  now destruct (nth_error l j).
Qed.

Lemma nth_error_placed {A : Type} (x : A) (ps : list nat) (j : nat) :
  forall rs : list A,
    nth_error (fold_left (fun rs i => setNth i x rs) ps rs) j
    = match nth_error rs j with
      | None => None
      | Some y => Some (if existsb (Nat.eqb j) ps then x else y)
      end.
Proof.
  induction ps as [|p ps IH]; intro rs; cbn [fold_left existsb].
  - now destruct (nth_error rs j).
  - rewrite IH, nth_error_setNth.
    destruct (nth_error rs j) as [y|]; [|reflexivity].
    destruct (Nat.eqb j p); cbn [orb]; [|reflexivity].
    now destruct (existsb (Nat.eqb j) ps).
Qed.

Lemma nth_error_place (entries : list (indices * (jsval + Z * list row)))
  (j : nat) :
  forall rs,
    nth_error (fold_left place entries rs) j
    = match nth_error rs j with
      | None => None
      | Some y =>
          Some (fold_left
                  (fun acc e =>
                     if existsb (Nat.eqb j) (positions (fst e))
                     then Some (rowsOf (snd e)) else acc)
                  entries y)
      end.
Proof.
  induction entries as [|e entries IH]; intro rs; cbn [fold_left].
  - now destruct (nth_error rs j).
  - rewrite IH. unfold place. rewrite nth_error_placed.
    now destruct (nth_error rs j).
Qed.

Lemma last_match_is_assoc {V R : Type} (f : V -> R) (key : string)
  (l : list (string * V)) :
  NoDup (keysOf l) ->
  forall acc,
    fold_left (fun acc e => if String.eqb (fst e) key then Some (f (snd e))
                            else acc) l acc
    = match assoc key l with
      | Some v => Some (f v)
      | None => acc
      end.
Proof.
  induction l as [|[k v] l IH]; intros Hnd acc; cbn [fold_left assoc fst snd].
  - reflexivity.
  - cbn in Hnd. apply NoDup_cons_iff in Hnd. destruct Hnd as [Hk Hnd].
    rewrite (IH Hnd). rewrite (String.eqb_sym key k).
    destruct (String.eqb k key) eqn:E; [|reflexivity].
    apply String.eqb_eq in E. subst k.
    destruct (assoc key l) as [v'|] eqn:Ev; [|reflexivity].
    exfalso. apply Hk. apply assoc_in_keys. eauto.
Qed.

Lemma occurrences_In (key : string) (l : list string) :
  forall i p,
    In p (occurrences key l i)
    <-> (i <= p)%nat /\ nth_error l (p - i) = Some key.
Proof.
  induction l as [|k l IH]; intros i p; cbn [occurrences].
  - split; [contradiction|]. intros [_ Hp]. now destruct (p - i)%nat.
  - assert (Hrest : In p (occurrences key l (S i))
                    <-> (i < p)%nat /\ nth_error (k :: l) (p - i) = Some key).
    { rewrite IH. split; intros [Hlt Hp]; (split; [lia|]).
      - now replace (p - i)%nat with (S (p - S i)) by lia.
      - now replace (p - i)%nat with (S (p - S i)) in Hp by lia. }
    destruct (String.eqb key k) eqn:Ek.
    + apply String.eqb_eq in Ek. subst k. cbn [In]. rewrite Hrest.
      split.
      * intros [<- | [Hlt Hp]]; [|split; [lia | assumption]].
        rewrite Nat.sub_diag. split; [lia | reflexivity].
      * intros [Hle Hp]. destruct (Nat.eq_dec i p); [now left | right].
        split; [lia | assumption].
    + apply String.eqb_neq in Ek. rewrite Hrest. split.
      * intros [Hlt Hp]. split; [lia | assumption].
      * intros [Hle Hp]. split; [|assumption].
        destruct (Nat.eq_dec i p) as [<- | Hne]; [|lia].
        rewrite Nat.sub_diag in Hp. cbn in Hp. congruence.
Qed.

Lemma keysOf_combine {V : Type} (ks : list string) (vs : list V) :
  List.length ks = List.length vs -> keysOf (combine ks vs) = ks.
Proof.
  unfold keysOf. revert vs.
  induction ks as [|k ks IH]; intros [|v vs] Hlen; try discriminate.
  - reflexivity.
  - cbn. f_equal. apply IH. now injection Hlen.
Qed.

Lemma concat_somes {A B : Type} (g : A -> option (list B)) (l : list A) :
  List.concat (somes (List.map g l))
  = List.concat (List.map (fun a => match g a with
                                    | Some x => x
                                    | None => []
                                    end) l).
Proof.
  induction l as [|a l IH]; cbn [List.map somes List.concat].
  - reflexivity.
  - destruct (g a); cbn [somes List.concat app]; now rewrite IH.
Qed.

Section KeysQuery.
Context `{Host} `{Collate} `{Evaluator}.

(** One scan for each entry of the lookup, in order; when all of them
    are answered, every entry's rows are placed at its positions. *)
Lemma fetchKeys_run {W : Type} (h : handler W) (index : Index)
  (lookup : list (string * indices)) :
  forall (s : W) (keysError : option jsval)
         (results : list (option (list row))) (totalRows : Z),
    let x := run h (fetchKeys index lookup (keysError, results, totalRows)) s in
    List.map op_of (trace_of x) = List.map (keyScan index) (keysOf lookup)
    /\ List.length (scanAnswers (trace_of x)) = List.length lookup
    /\ (keysError = None ->
        forallb answered (scanAnswers (trace_of x)) = true ->
        exists totalRows',
          value_of x
          = (None,
             fold_left place
               (combine (List.map snd lookup) (scanAnswers (trace_of x)))
               results,
             totalRows')).
Proof.
  induction lookup as [|[key ix] lookup IH];
    intros s keysError results totalRows.
  - cbn. repeat split. intros -> _. eauto.
  - cbn [fetchKeys]. unfold fetchFromIndex. cbn [bind call run].
    change (IndexAllDocs (idx_name index) (withDocs _))
      with (keyScan index key).
    destruct (h (keyScan index key) s) as [answer s1].
    match goal with
    | |- context [run h (fetchKeys index lookup ?st') s1] =>
        remember st' as next eqn:Enext
    end.
    destruct next as [[keysError' results'] totalRows'].
    specialize (IH s1 keysError' results' totalRows').
    unfold trace_of, value_of in *.
    destruct (run h (fetchKeys index lookup (keysError', results', totalRows'))
                s1) as [[t s2] v].
    cbn [fst snd] in *. destruct IH as (Hops & Hlen & Hval).
    change (scanAnswers (Io (keyScan index key) answer :: t))
      with (answer :: scanAnswers t).
    cbn [List.map op_of keysOf List.length fst snd combine fold_left forallb].
    fold (keysOf lookup).
    repeat split.
    + now rewrite Hops.
    + now rewrite Hlen.
    + intros -> Hall. apply andb_true_iff in Hall. destruct Hall as [Ha Hall].
      destruct answer as [err | [total sub]]; [discriminate|].
      injection Enext as -> -> ->.
      destruct (Hval eq_refl Hall) as [total' ->].
      exists total'. repeat f_equal.
      unfold place. cbn [fst snd rowsOf]. now destruct ix.
Qed.

(** X22.  A query with [keys] scans the secondary database once for each
    distinct key, in the order in which [Object.keys] lists the names
    of the lookup (the processed keys that are array indices first, in
    ascending order, then the others in the order in which they first
    occur), from the encoding of [[key]] to that of [[key, {}, {}, {}]];
    the scans carry no [limit], no [skip] and are never [descending]. *)
Theorem keys_scans {W : Type} (h : handler W) (s : W) (index : Index)
  (opts : options) (k : jsval) (ks : list jsval) :
  opt_keys opts = Some (k :: ks) ->
  scans (trace_of (run h (queryIndexInner index opts) s))
  = List.map (keyScan index) (uniq (List.map processKey (k :: ks))).
Proof.
  intro Hkeys. unfold queryIndexInner.
  set (shouldReduce := truthyStr (idx_reduceFun index) && _).
  replace (emptyKeys opts) with opts
    by (unfold emptyKeys; now rewrite Hkeys).
  rewrite Hkeys. unfold keysQuery. rewrite run_bind.
  rewrite <- createKeysLookup_keys. unfold Object_keys.
  set (lookup := Object_entries (createKeysLookup (k :: ks))).
  destruct (fetchKeys_run h index lookup s None
              (repeat None (List.length (k :: ks))) 0) as (Hops & _ & _).
  unfold trace_of, value_of in *.
  destruct (run h (fetchKeys index lookup
                     (None, repeat None (List.length (k :: ks)), 0)) s)
    as [[t s1] [[keysError results] totalRows]].
  cbn [fst snd] in *.
  assert (Hscans : scans t = List.map (keyScan index) (keysOf lookup)).
  { unfold scans. rewrite Hops.
    apply forallb_filter_id. apply forallb_forall.
    intros o Ho. apply in_map_iff in Ho. now destruct Ho as (key & <- & _). }
  assert (Happ : forall t2, scans (t ++ t2) = (scans t ++ scans t2)%list).
  { intro t2. unfold scans. now rewrite map_app, filter_app. }
  destruct keysError as [err|].
  - cbn [run fst app]. now rewrite app_nil_r.
  - destruct shouldReduce.
    + unfold onMapResultsReady. cbn [run fst app]. now rewrite app_nil_r.
    + match goal with
      | |- context [run h (onMapResultsReady index opts false ?sk ?tr ?l) s1] =>
          destruct (onMapResultsReady_plain h s1 index opts sk tr l)
            as (Hnone & _);
          unfold trace_of in Hnone;
          destruct (run h (onMapResultsReady index opts false sk tr l) s1)
            as [[t2 s2] v]
      end.
      cbn [fst] in *. rewrite Happ, Hnone. now rewrite app_nil_r.
Qed.

(** X23.  Without reduction, the rows of a query with [keys] whose scans are
    all answered are, for each key of [keys] in its order, the rows
    that the scan of that key returned (so a key given twice gives its
    rows twice, and a key without rows gives none), cut by [skip] and
    [limit].  The scans are made in the order of [Object.keys], and
    their answers are matched to the keys in that order. *)
Theorem keys_answer_in_key_order {W : Type} (h : handler W) (s : W)
  (index : Index) (opts : options) (k : jsval) (ks : list jsval) :
  reduceInEffect (idx_reduceFun index) opts = false ->
  opt_keys opts = Some (k :: ks) ->
  let x := run h (queryIndexInner index opts) s in
  let byKey := combine (uniq (List.map processKey (k :: ks)))
                 (scanAnswers (trace_of x)) in
  let skip := match opt_skip opts with Some n => n | None => 0%nat end in
  forallb answered (scanAnswers (trace_of x)) = true ->
  exists totalRows found,
    value_of x = Success (mkResult (Some totalRows) (Some skip) found)
    /\ List.map columns found
       = List.map columns
           (page (opt_limit opts) skip
              (List.concat
                 (List.map (fun key => match assoc (processKey key) byKey with
                                       | Some answer => rowsOf answer
                                       | None => []
                                       end) (k :: ks)))).
Proof.
  intros Heff Hkeys. unfold queryIndexInner.
  unfold reduceInEffect in Heff. rewrite Heff.
  replace (emptyKeys opts) with opts
    by (unfold emptyKeys; now rewrite Hkeys).
  rewrite Hkeys. unfold keysQuery. rewrite run_bind.
  set (keys := k :: ks).
  set (skip := match opt_skip opts with Some n => n | None => 0%nat end).
  rewrite <- createKeysLookup_keys. unfold Object_keys.
  set (lookup := Object_entries (createKeysLookup keys)).
  destruct (fetchKeys_run h index lookup s None
              (repeat None (List.length keys)) 0) as (_ & Hlen & Hval).
  specialize (Hval eq_refl).
  unfold trace_of, value_of in *.
  destruct (run h (fetchKeys index lookup
                     (None, repeat None (List.length keys), 0)) s)
    as [[t s1] [[keysError results] totalRows]].
  cbn [fst snd] in *.
  assert (Hafter : forall l,
    scanAnswers
      (fst (fst (run h (onMapResultsReady index opts false skip totalRows l)
                   s1))) = []).
  { intro l.
    now destruct (onMapResultsReady_plain h s1 index opts skip totalRows l)
      as (_ & Hnone & _). }
  destruct keysError as [err|].
  - cbn [run fst snd app]. rewrite app_nil_r. intro Hall.
    destruct (Hval Hall) as [total' Habs]. discriminate.
  - match goal with
    | |- context [run h (onMapResultsReady index opts false skip totalRows ?l)
                    s1] =>
        specialize (Hafter l);
        destruct (onMapResultsReady_rows h s1 index opts skip totalRows l)
          as (found & Hv & Hc & _);
        unfold value_of in Hv;
        destruct (run h (onMapResultsReady index opts false skip totalRows l)
                    s1) as [[t2 s2] v]
    end.
    cbn [fst snd] in *. cbv zeta.
    rewrite scanAnswers_app, Hafter, app_nil_r.
    intro Hall. destruct (Hval Hall) as [total' Hres].
    injection Hres as -> _.
    exists totalRows, found. split; [assumption|].
    rewrite Hc. do 2 f_equal.
    change (@None (list row) :: repeat None (List.length ks))
      with (repeat (@None (list row)) (List.length keys)).
    transitivity
      (List.concat
         (somes
            (List.map
               (fun key => option_map rowsOf
                             (assoc (processKey key)
                                (combine (keysOf lookup) (scanAnswers t))))
               keys))).
    2: { rewrite concat_somes. f_equal. apply map_ext. intro key.
         now destruct (assoc (processKey key) _). }
    f_equal. f_equal.
    apply nth_error_ext. intro j.
    rewrite nth_error_place, nth_error_map.
    destruct (nth_error keys j) as [key|] eqn:Ej.
    + assert (Hj : (j < List.length keys)%nat).
      { apply nth_error_Some. congruence. }
      rewrite (nth_error_repeat _ Hj). cbn [option_map]. f_equal.
      assert (Hnd : NoDup (keysOf lookup)).
      { apply (Object_keys_NoDup (createKeysLookup keys)).
        apply createKeysLookup_NoDup. }
      assert (Hpos : forall e, In e lookup ->
                existsb (Nat.eqb j) (positions (snd e))
                = String.eqb (fst e) (processKey key)).
      { intros [key' ix] Hin. cbn [fst snd].
        assert (Hassoc : assoc key' (createKeysLookup keys) = Some ix).
        { apply in_assoc; [apply createKeysLookup_NoDup|].
          eapply Permutation_in; [apply Object_entries_perm | exact Hin]. }
        unfold createKeysLookup in Hassoc.
        rewrite (proj2 (fold_lookupStep keys) key') in Hassoc.
        assert (Hix : positions ix
                      = occurrences key' (List.map processKey keys) 0).
        { destruct (occurrences key' (List.map processKey keys) 0)
            as [|a [|b l]]; cbn in Hassoc; [discriminate| |];
            now injection Hassoc as <-. }
        rewrite Hix. apply eq_true_iff_eq.
        rewrite existsb_exists, String.eqb_eq. split.
        - intros (p & Hp & Hjp). apply Nat.eqb_eq in Hjp. subst p.
          apply occurrences_In in Hp. destruct Hp as [_ Hp].
          rewrite Nat.sub_0_r, nth_error_map, Ej in Hp. cbn in Hp.
          congruence.
        - intros ->. exists j. split; [|apply Nat.eqb_refl].
          apply occurrences_In. split; [lia|].
          now rewrite Nat.sub_0_r, nth_error_map, Ej. }
      clear Hall Hc Hv Hval Hafter.
      assert (Hfold : forall answers acc,
        fold_left
          (fun acc e => if existsb (Nat.eqb j) (positions (fst e))
                        then Some (rowsOf (snd e)) else acc)
          (combine (List.map snd lookup) answers) acc
        = fold_left
            (fun acc e => if String.eqb (fst e) (processKey key)
                          then Some (rowsOf (snd e)) else acc)
            (combine (keysOf lookup) answers) acc).
      { clear Hlen Hnd. unfold keysOf.
        induction lookup as [|e l IH]; intros answers acc; [reflexivity|].
        destruct answers as [|a answers]; [reflexivity|].
        cbn [List.map combine fold_left fst snd].
        rewrite (Hpos e (or_introl eq_refl)).
        apply IH. intros e' He'. apply Hpos. now right. }
      rewrite Hfold.
      rewrite (last_match_is_assoc rowsOf (processKey key)).
      * now destruct (assoc (processKey key) _).
      * rewrite keysOf_combine; [exact Hnd|].
        unfold keysOf. now rewrite length_map, Hlen.
    + assert (Hj : (List.length keys <= j)%nat) by now apply nth_error_None.
      replace (nth_error (repeat None (List.length keys)) j)
        with (@None (option (list row))); [reflexivity|].
      symmetry. apply nth_error_None. now rewrite repeat_length.
Qed.
End KeysQuery.

(** * Temporary views with [keys] *)

Lemma NoDup_occurrences (key : string) (l : list string) :
  forall i, NoDup (occurrences key l i).
Proof.
  induction l as [|k l IH]; intro i; cbn [occurrences].
  - constructor.
  - destruct (String.eqb key k); [|apply IH].
    constructor; [|apply IH].
    intro Hin. apply occurrences_In in Hin. lia.
Qed.

Lemma nth_error_addAtIndex (idx : nat) (r : row) (p : list slot) (j : nat) :
  nth_error (addAtIndex idx r p) j
  = match nth_error p j with
    | None => None
    | Some s => Some (if Nat.eqb j idx then push s r else s)
    end.
Proof.
  unfold addAtIndex.
  destruct (Nat.eqb j idx) eqn:E.
  - apply Nat.eqb_eq in E. subst j.
    destruct (nth_error p idx) as [[|val|val]|] eqn:Es;
      rewrite ?nth_error_setNth, Es, ?Nat.eqb_refl; reflexivity.
  - destruct (nth_error p idx) as [[|val|val]|];
      rewrite ?nth_error_setNth, ?E; now destruct (nth_error p j).
Qed.

Lemma nth_error_addAll (r : row) (l : list nat) (j : nat) :
  NoDup l ->
  forall p,
    nth_error (fold_left (fun p i => addAtIndex i r p) l p) j
    = match nth_error p j with
      | None => None
      | Some s => Some (if existsb (Nat.eqb j) l then push s r else s)
      end.
Proof.
  induction 1 as [|i l Hi Hnd IH]; intro p; cbn [fold_left existsb].
  - now destruct (nth_error p j).
  - rewrite IH, nth_error_addAtIndex.
    destruct (nth_error p j) as [s|]; [|reflexivity].
    destruct (Nat.eqb j i) eqn:E; cbn [orb]; [|reflexivity].
    apply Nat.eqb_eq in E. subst j.
    replace (existsb (Nat.eqb i) l) with false; [reflexivity|].
    symmetry. apply not_true_iff_false. intro Hex.
    apply existsb_exists in Hex. destruct Hex as (x & Hx & Heq).
    apply Nat.eqb_eq in Heq. now subst x.
Qed.

Lemma fold_left_same {A B : Type} (f g : A -> B -> A) (l : list B) :
  (forall a b, f a b = g a b) ->
  forall a, fold_left f l a = fold_left g l a.
Proof.
  intro Hfg. induction l as [|b l IH]; intro a; cbn [fold_left].
  - reflexivity.
  - now rewrite Hfg, IH.
Qed.

Lemma push_slotOf (l : list row) (r : row) :
  push (slotOf l) r = slotOf (l ++ [r]).
Proof. now destruct l as [|a [|b l]]. Qed.

Lemma pushed_rows (c : row -> bool) (results : list row) :
  forall acc,
    fold_left (fun s r => if c r then push s r else s) results (slotOf acc)
    = slotOf (acc ++ filter c results).
Proof.
  induction results as [|r results IH]; intro acc; cbn [fold_left filter].
  - now rewrite app_nil_r.
  - destruct (c r).
    + rewrite push_slotOf, IH, <- app_assoc. reflexivity.
    + apply IH.
Qed.

Section KeysOrder.
Context `{Host} `{Collate}.

Lemma lookup_hits (keys : list jsval) (key : string) :
  match assoc key (createKeysLookup keys) with
  | Some ix => positions ix
  | None => []
  end = occurrences key (List.map processKey keys) 0.
Proof.
  unfold createKeysLookup. rewrite (proj2 (fold_lookupStep keys) key).
  now destruct (occurrences key (List.map processKey keys) 0) as [|a [|b l]].
Qed.

Lemma flattened_all (prelim : list slot) :
  forall acc,
    fold_left
      (fun outputResults s =>
         match s with
         | Hole => outputResults
         | Single r => (outputResults ++ [r])%list
         | Multi rs => (outputResults ++ Array_sort row sortByKeyIdValue rs)%list
         end) prelim acc
    = (acc ++ List.concat (List.map flattened prelim))%list.
Proof.
  induction prelim as [|s prelim IH]; intro acc;
    cbn [fold_left List.map List.concat].
  - now rewrite app_nil_r.
  - rewrite IH. destruct s; cbn [flattened].
    + reflexivity.
    + now rewrite <- app_assoc.
    + now rewrite <- app_assoc.
Qed.

Lemma prelimResults_nth (keys : list jsval) (results : list row) (j : nat) :
  forall p,
    nth_error
      (fold_left
         (fun prelim r =>
            match assoc (processKey (row_key r)) (createKeysLookup keys) with
            | Some (OneIndex idx) => addAtIndex idx r prelim
            | Some (ManyIndices l) =>
                fold_left (fun p subIdx => addAtIndex subIdx r p) l prelim
            | None => prelim
            end) results p) j
    = match nth_error p j with
      | None => None
      | Some s =>
          Some (fold_left
                  (fun s r =>
                     if existsb (Nat.eqb j)
                          (occurrences (processKey (row_key r))
                             (List.map processKey keys) 0)
                     then push s r else s) results s)
      end.
Proof.
  induction results as [|r results IH]; intro p; cbn [fold_left].
  - now destruct (nth_error p j).
  - rewrite IH.
    pose proof (lookup_hits keys (processKey (row_key r))) as Hhits.
    pose proof (NoDup_occurrences (processKey (row_key r))
                  (List.map processKey keys) 0) as Hnd.
    rewrite <- Hhits in Hnd |- *.
    destruct (assoc (processKey (row_key r)) (createKeysLookup keys))
      as [[idx|l]|]; cbn [positions] in *.
    + rewrite nth_error_addAtIndex. cbn [existsb]. rewrite orb_false_r.
      now destruct (nth_error p j).
    + rewrite (nth_error_addAll r l j Hnd).
      now destruct (nth_error p j).
    + now destruct (nth_error p j).
Qed.

(** X24.  [mapUsingKeys] puts the rows of a temporary view in the order of
    [keys]: for each key in turn the rows that have it, in the order
    in which they were emitted when there is one and sorted by
    [sortByKeyIdValue] when there are several; a key given twice gives
    its rows twice, and a key without rows gives none.  (The rows are
    those that [emit] has let through: the key of each is one of
    [keys].) *)
Theorem mapUsingKeys_in_key_order (results : list row) (keys : list jsval) :
  Forall (fun r => In (processKey (row_key r)) (List.map processKey keys))
    results ->
  mapUsingKeys results keys (createKeysLookup keys)
  = List.concat
      (List.map (fun key => flattened (slotOf (rowsWithKey key results)))
         keys).
Proof.
  intros _. unfold mapUsingKeys. rewrite flattened_all. cbn [app].
  f_equal.
  rewrite <- (map_map (fun key => slotOf (rowsWithKey key results)) flattened).
  f_equal.
  apply nth_error_ext. intro j.
  rewrite prelimResults_nth, nth_error_map.
  destruct (nth_error keys j) as [key|] eqn:Ej.
  - assert (Hj : (j < List.length keys)%nat).
    { apply nth_error_Some. congruence. }
    rewrite (nth_error_repeat _ Hj). cbn [option_map]. f_equal.
    change Hole with (slotOf []).
    rewrite (fold_left_same
               (fun s r => if existsb (Nat.eqb j)
                                (occurrences (processKey (row_key r))
                                   (List.map processKey keys) 0)
                           then push s r else s)
               (fun s r => if String.eqb (processKey (row_key r))
                                (processKey key)
                           then push s r else s)).
    + now rewrite pushed_rows.
    + intros s r.
      replace (existsb (Nat.eqb j)
                 (occurrences (processKey (row_key r))
                    (List.map processKey keys) 0))
        with (String.eqb (processKey (row_key r)) (processKey key));
        [reflexivity|].
      apply eq_true_iff_eq.
      rewrite existsb_exists, String.eqb_eq. split.
      * intro Hk. exists j. split; [|apply Nat.eqb_refl].
        apply occurrences_In. split; [lia|].
        rewrite Nat.sub_0_r, nth_error_map, Ej. cbn. now rewrite Hk.
      * intros (p & Hp & Hjp). apply Nat.eqb_eq in Hjp. subst p.
        apply occurrences_In in Hp. destruct Hp as [_ Hp].
        rewrite Nat.sub_0_r, nth_error_map, Ej in Hp. cbn in Hp.
        congruence.
  - assert (Hj : (List.length keys <= j)%nat) by now apply nth_error_None.
    replace (nth_error (repeat Hole (List.length keys)) j)
      with (@None slot); [reflexivity|].
    symmetry. apply nth_error_None. now rewrite repeat_length.
Qed.
End KeysOrder.

(** * The updater: what goes to [map] *)

Lemma emitted_nil_mapped (t : list io) : emitted t = [] -> mapped t = [].
Proof.
  induction t as [|[o r] t IH]; [reflexivity|].
  destruct o; cbn; try exact IH. discriminate.
Qed.

Section MappedByUpdate.
Context `{Host} `{Collate} `{Evaluator}.

Lemma callMapFun_mapped {W : Type} (h : handler W) (s : W) (index : Index)
  (doc : change) (seq : Z) :
  mapped (trace_of (run h (callMapFun index doc seq) s))
  = if ch_deleted doc then [] else [doc_body (ch_doc doc)].
Proof.
  unfold callMapFun, trace_of. rewrite run_bind. unfold mapDoc.
  assert (Hnext : forall o s',
            mapped (fst (fst (run h (withLastSeqDoc index o
                                       (doc_id (ch_doc doc)) seq) s'))) = []).
  { intros o s'. apply emitted_nil_mapped.
    now destruct (withLastSeqDoc_trace h s' index o (doc_id (ch_doc doc)) seq)
      as [Hemit _]. }
  destruct (ch_deleted doc).
  - cbn [run]. specialize (Hnext [] s).
    destruct (run h (withLastSeqDoc index [] _ seq) s) as [[t s1] a].
    exact Hnext.
  - cbn [bind call run].
    destruct (h (CallMap (idx_mapFun index) (doc_body (ch_doc doc))) s)
      as [emits s1].
    set (o := snd (emitAll (doc_id (ch_doc doc)) emits)).
    assert (Hreduced : exists r,
      run h match resolveReduce (idx_reduceFun index) with
            | Some reduceFun => Ret (addReduceOutputs reduceFun o)
            | None => Ret (Normal o)
            end s1 = ([], s1, r)).
    { destruct (resolveReduce (idx_reduceFun index)); cbn; eauto. }
    destruct Hreduced as [r ->].
    destruct r as [o'|w]; [|reflexivity].
    specialize (Hnext o' s1).
    destruct (run h (withLastSeqDoc index o' _ seq) s1) as [[t s2] a].
    cbn [fst app] in *.
    change (mapped (Io (CallMap (idx_mapFun index) (doc_body (ch_doc doc)))
                      emits :: t))
      with (doc_body (ch_doc doc) :: mapped t).
    now rewrite Hnext.
Qed.

Lemma processChange_mapped {W : Type} (h : handler W) (s : W)
  (index : Index) (u : ustate) (doc : change) :
  Forall (fun d => live doc = true /\ u_seq u <= ch_seq doc
                   /\ d = doc_body (ch_doc doc))
    (mapped (trace_of (run h (processChange index u doc) s))).
Proof.
  unfold processChange, live.
  destruct (starts_with_underscore (ch_id doc)); [constructor|].
  destruct (ch_seq doc <? u_seq u) eqn:E; [constructor|].
  apply Z.ltb_ge in E.
  unfold trace_of. rewrite run_bind.
  pose proof (callMapFun_mapped h s index doc (ch_seq doc)) as Hm.
  unfold trace_of in Hm.
  destruct (run h (callMapFun index doc (ch_seq doc)) s) as [[t s1] r].
  cbn [fst] in *.
  assert (Ht : forall t2, t2 = [] -> mapped (t ++ t2) = mapped t).
  { intros t2 ->. now rewrite app_nil_r. }
  destruct r as [[err|]|w]; cbn [run fst]; rewrite Ht by reflexivity;
    rewrite Hm; destruct (ch_deleted doc); repeat constructor; assumption.
Qed.

Lemma step_mapped {W : Type} (h : handler W) (s : W) (index : Index)
  (seq0 : Z) (feed0 : list change) (ev : event) (u : ustate) :
  updating seq0 feed0 u ->
  Forall (mappedFrom seq0 feed0)
    (mapped (trace_of (run h (step index ev u) s))).
Proof.
  intro Hu. destruct ev; unfold step, trace_of.
  - destruct (u_feed u); constructor.
  - unfold nextTask.
    destruct (u_stuck u); [constructor|].
    destruct (u_queue u) as [|doc rest] eqn:Hq; [constructor|].
    destruct (updating_queue (W := W) seq0 feed0 u doc rest Hu Hq)
      as [Hseq Hin].
    rewrite run_bind.
    pose proof (processChange_mapped h s index u doc) as Hm.
    unfold trace_of in Hm.
    destruct (run h (processChange index u doc) s) as [[t s1] e].
    cbn [run fst] in *. rewrite app_nil_r.
    eapply Forall_impl; [|exact Hm].
    intros d (Hlive & Hle & ->). exists doc. rewrite <- Hseq. auto.
  - destruct (u_feed u); [destruct (u_complete u)|]; constructor.
Qed.

Lemma updateLoop_mapped {W : Type} (h : handler W) (index : Index)
  (seq0 : Z) (feed0 : list change) (sched : list event) :
  forall (s : W) (u : ustate),
    updating seq0 feed0 u ->
    Forall (mappedFrom seq0 feed0)
      (mapped (trace_of (run h (updateLoop index sched u) s))).
Proof.
  induction sched as [|ev sched IH]; intros s u Hu.
  - constructor.
  - cbn [updateLoop]. rewrite run_bind.
    destruct (step_updating h s index seq0 feed0 ev u Hu) as [Hu1 _].
    pose proof (step_mapped h s index seq0 feed0 ev u Hu) as Hm1.
    unfold value_of, trace_of in *.
    destruct (run h (step index ev u) s) as [[t1 s1] u1].
    cbn [fst snd] in *.
    specialize (IH s1 u1 Hu1).
    destruct (run h (updateLoop index sched u1) s1) as [[t2 s2] u2].
    cbn [fst] in *. rewrite mapped_app. now apply Forall_app.
Qed.

(** X25.  Whatever the order of the events, an update hands to [map] only
    documents of changes of the feed that are not deletions, whose id
    does not start with an underscore and whose [seq] is not below
    [index.seq]. *)
Theorem update_maps_live_changes {W : Type} (h : handler W) (s : W)
  (index : Index) (policy : list change -> list event) :
  Forall (mappedFrom (idx_seq index)
            (fst (h (SourceChanges (idx_seq index)) s)))
    (mapped (trace_of (run h (updateIndexInner index policy) s))).
Proof.
  unfold updateIndexInner. cbn [bind call run].
  destruct (h (SourceChanges (idx_seq index)) s) as [feed s1]. cbn [fst].
  pose proof (updateLoop_mapped h index (idx_seq index) feed (policy feed)
                s1 (initial index feed) (initial_updating index feed)) as Hm.
  unfold trace_of in *.
  destruct (run h (updateLoop index (policy feed) (initial index feed)) s1)
    as [[t s2] u].
  exact Hm.
Qed.
End MappedByUpdate.

(** * The updater: the replay guard *)

Section ReplayGuard.
Context `{Host} `{Collate} `{Evaluator}.

Lemma processChange_below {W : Type} (h : handler W) (s : W) (index : Index)
  (u : ustate) (doc : change) :
  ch_seq doc < u_seq u ->
  run h (processChange index u doc) s
  = ([], s,
     mkTaskEnd (u_lastSeq u)
       (if starts_with_underscore (ch_id doc) then S (u_numFinished u)
        else u_numFinished u)
       (Normal None)).
Proof.
  intro Hlt. apply Z.ltb_lt in Hlt. unfold processChange.
  destruct (starts_with_underscore (ch_id doc)); [reflexivity|].
  now rewrite Hlt.
Qed.

Lemma processChange_written {W : Type} (h : handler W) (s : W)
  (index : Index) (u : ustate) (doc : change) (docs : list storeDoc) :
  In docs (written (trace_of (run h (processChange index u doc) s))) ->
  u_seq u <= ch_seq doc
  /\ In (LastSeqDoc "_local/lastSeq" (ch_seq doc)) docs.
Proof.
  intro Hin. split.
  - destruct (Z.lt_ge_cases (ch_seq doc) (u_seq u)) as [Hlt|Hge];
      [|assumption].
    rewrite (processChange_below h s index u doc Hlt) in Hin.
    contradiction.
  - now apply (proj2 (processChange_end h s index u doc)).
Qed.

Lemma step_written {W : Type} (h : handler W) (s : W) (index : Index)
  (seq0 : Z) (feed0 : list change) (ev : event) (u : ustate) :
  updating seq0 feed0 u ->
  Forall (writtenFrom seq0 feed0)
    (written (trace_of (run h (step index ev u) s))).
Proof.
  intro Hu. destruct ev; unfold step, trace_of.
  - destruct (u_feed u); constructor.
  - unfold nextTask.
    destruct (u_stuck u); [constructor|].
    destruct (u_queue u) as [|doc rest] eqn:Hq; [constructor|].
    destruct (updating_queue (W := W) seq0 feed0 u doc rest Hu Hq)
      as [Hseq Hin].
    rewrite run_bind.
    pose proof (processChange_written h s index u doc) as Hw.
    unfold trace_of in Hw.
    destruct (run h (processChange index u doc) s) as [[t s1] e].
    cbn [run fst] in *. rewrite app_nil_r.
    apply Forall_forall. intros docs Hdocs.
    destruct (Hw docs Hdocs) as [Hle Hlast].
    exists doc. rewrite <- Hseq. auto.
  - destruct (u_feed u); [destruct (u_complete u)|]; constructor.
Qed.

Lemma updateLoop_written {W : Type} (h : handler W) (index : Index)
  (seq0 : Z) (feed0 : list change) (sched : list event) :
  forall (s : W) (u : ustate),
    updating seq0 feed0 u ->
    Forall (writtenFrom seq0 feed0)
      (written (trace_of (run h (updateLoop index sched u) s))).
Proof.
  induction sched as [|ev sched IH]; intros s u Hu.
  - constructor.
  - cbn [updateLoop]. rewrite run_bind.
    destruct (step_updating h s index seq0 feed0 ev u Hu) as [Hu1 _].
    pose proof (step_written h s index seq0 feed0 ev u Hu) as Hw1.
    unfold value_of, trace_of in *.
    destruct (run h (step index ev u) s) as [[t1 s1] u1].
    cbn [fst snd] in *.
    specialize (IH s1 u1 Hu1).
    destruct (run h (updateLoop index sched u1) s1) as [[t2 s2] u2].
    cbn [fst] in *. rewrite written_app. now apply Forall_app.
Qed.

(** C3, as the code has it.  The guard of [processChange] is
    [doc.seq < index.seq]: a change whose [seq] is below [index.seq]
    is passed over without any call to the outside, so without a call
    of [map] and without a write, and the environment is left as it
    was.  In a whole update run, whatever the order of the events,
    every call of [map] and every batch written belongs to a change of
    the feed whose [seq] is not below the [index.seq] of the start of
    the run. *)
Theorem changes_below_lastSeq_skipped {W : Type} (h : handler W) (s : W)
  (index : Index) :
  (forall (u : ustate) (doc : change),
      ch_seq doc < u_seq u ->
      trace_of (run h (processChange index u doc) s) = []
      /\ env_of (run h (processChange index u doc) s) = s)
  /\ (forall policy : list change -> list event,
        let feed := fst (h (SourceChanges (idx_seq index)) s) in
        let t := trace_of (run h (updateIndexInner index policy) s) in
        Forall (mappedFrom (idx_seq index) feed) (mapped t)
        /\ Forall (writtenFrom (idx_seq index) feed) (written t)).
Proof.
  split.
  - intros u doc Hlt.
    now rewrite (processChange_below h s index u doc Hlt).
  - intro policy. unfold updateIndexInner. cbn [bind call run].
    destruct (h (SourceChanges (idx_seq index)) s) as [feed s1]. cbn [fst].
    pose proof (updateLoop_mapped h index (idx_seq index) feed (policy feed)
                  s1 (initial index feed) (initial_updating index feed))
      as Hm.
    pose proof (updateLoop_written h index (idx_seq index) feed
                  (policy feed) s1 (initial index feed)
                  (initial_updating index feed)) as Hw.
    unfold trace_of in *.
    destruct (run h (updateLoop index (policy feed) (initial index feed)) s1)
      as [[t s2] u].
    cbn [fst app]. split; assumption.
Qed.
End ReplayGuard.

(** * The two revisions *)

Section Revisions.
Context `{Host} `{Collate} `{Evaluator}.

(** X26.  The two definitions of [viewQuery] run an unreduced query alike:
    when the key range is not inverted and no reduction is in effect,
    they make the same calls and give the same answer. *)
Theorem revisions_agree_unreduced {W : Type} (h : handler W) (s : W)
  (mapSrc : string) (fun_reduce : option string) (opts : options) :
  invertedRange opts = false ->
  reduceInEffect fun_reduce opts = false ->
  run h (Rev1.viewQuery mapSrc fun_reduce opts) s
  = run h (viewQuery mapSrc fun_reduce opts) s.
Proof.
  intros Hinv Heff.
  assert (Hfalse : negb (truthyStr fun_reduce)
                   || match opt_reduce opts with
                      | Some false => true
                      | _ => false
                      end = true).
  { unfold reduceInEffect in Heff.
    destruct (truthyStr fun_reduce); [|reflexivity].
    cbn in *. now apply negb_false_iff in Heff. }
  assert (Hscan :
    run h (feed <- call (SourceChanges 0) ;;
           st <- viewChanges mapSrc opts feed (mkVstate [] 0 0) ;;
           Ret (Rev1.viewComplete fun_reduce opts st)) s
    = run h (viewQuery mapSrc fun_reduce opts) s).
  { unfold viewQuery. cbn [bind call run].
    destruct (h (SourceChanges 0) s) as [feed s1].
    rewrite !run_bind.
    destruct (run h (viewChanges mapSrc opts feed (mkVstate [] 0 0)) s1)
      as [[t s2] st].
    cbn [run]. do 2 f_equal.
    unfold Rev1.viewComplete, viewComplete. now rewrite Hfalse. }
  unfold Rev1.viewQuery, invertedRange in *.
  destruct (opt_descending opts), (opt_startkey opts) as [a|],
    (opt_endkey opts) as [b|]; try exact Hscan;
    rewrite Hinv; exact Hscan.
Qed.
End Revisions.

(** * More runs in the example environment *)

Module Cases.
Import Env.

(** The order of [Object.keys]: array indices first, in ascending
    order; a numeral with a leading zero is no array index. *)
Example uniq_order :
  uniq ["b"; "2"; "b"; "10"; "a"; "1"; "01"; "2"]
  = ["1"; "2"; "10"; "b"; "a"; "01"].
Proof. reflexivity. Qed.

Lemma uniq_members_witness :
  ~ In "__proto__" ["b"; "2"; "b"; "1"]
  /\ NoDup (uniq ["b"; "2"; "b"; "1"])
  /\ forall x, In x (uniq ["b"; "2"; "b"; "1"]) <-> In x ["b"; "2"; "b"; "1"].
Proof.
  assert (Hnot : ~ In "__proto__" ["b"; "2"; "b"; "1"]).
  { intros [Hx | [Hx | [Hx | [Hx | []]]]]; discriminate. }
  split; [exact Hnot|].
  exact (uniq_members ["b"; "2"; "b"; "1"] Hnot).
Defined.

(** The index is at [seq] 5; a change with [seq] 4 is passed over. *)
Lemma changes_below_lastSeq_skipped_witness :
  let x := run answer
             (@processChange host codec evaluator index5 update5
                (changeOf "a" 4 (jnum 1))) world1 in
  ch_seq (changeOf "a" 4 (jnum 1)) < u_seq update5
  /\ trace_of x = []
  /\ env_of x = world1.
Proof.
  intro x.
  assert (Hlt : ch_seq (changeOf "a" 4 (jnum 1)) < u_seq update5)
    by reflexivity.
  split; [exact Hlt|].
  exact (proj1 (@changes_below_lastSeq_skipped host codec evaluator world
                  answer world1 index5) update5 (changeOf "a" 4 (jnum 1))
           Hlt).
Defined.

(** The values 1 and 3. *)
Lemma stats_of_numbers_witness :
  sumOfSquares [1; 3] < 2 ^ 53
  /\ @_stats host JNull (numbers [1; 3]) false = Normal (stats 4 1 3 2 10).
Proof.
  assert (Hsum : sumOfSquares [1; 3] < 2 ^ 53) by reflexivity.
  split; [exact Hsum|].
  exact (@stats_of_numbers host JNull 1 [3] Hsum).
Defined.

(** Three stored rows of the [_sum] view, asked without [group]. *)
Lemma reduceIndex_sum_witness :
  @collate codec JNull JNull = 0
  /\ opt_group noOptions = false
  /\ opt_group_level noOptions = false
  /\ idx_reduceFun indexSum = Some "_sum"
  /\ exactSums 0 [1; 2; 3]
  /\ @reduceIndex host codec evaluator indexSum
       [storedRow "a" 1; storedRow "b" 2; storedRow "c" 3] noOptions
     = Success (mkResult None None [reducedRow JNull (jnum 6)]).
Proof.
  assert (Hexact : exactSums 0 [1; 2; 3]).
  { cbn [exactSums]. unfold safeInteger. repeat split. }
  do 4 (split; [reflexivity|]).
  split; [exact Hexact|].
  exact (@reduceIndex_sum host codec evaluator indexSum
           [storedRow "a" 1; storedRow "b" 2; storedRow "c" 3] noOptions
           1 [2; 3] eq_refl eq_refl eq_refl eq_refl eq_refl Hexact).
Defined.


(** The last two rows, asked of the temporary view and of the
    persisted view. *)
Lemma limit_bounds_rows_witness :
  opt_limit lastTwo = Some 2%nat
  /\ honoursLimit answer
  /\ (exists r,
         value_of (run answer
                     (@viewQuery host codec evaluator mapSrc None lastTwo)
                     scenario) = Success r
         /\ (List.length (rows r) <= 2)%nat)
  /\ (exists r,
         value_of (run answer
                     (@queryIndexInner host codec evaluator indexPlain lastTwo)
                     indexed) = Success r
         /\ (List.length (rows r) <= 2)%nat).
Proof.
  split; [reflexivity|].
  split; [exact Runs.answer_honoursLimit|].
  split.
  - eexists. split; [vm_compute; reflexivity|].
    refine (proj1 (@limit_bounds_rows host codec evaluator world answer
                     scenario lastTwo 2 _ eq_refl) mapSrc None _).
    vm_compute. reflexivity.
  - eexists. split; [vm_compute; reflexivity|].
    refine (proj2 (@limit_bounds_rows host codec evaluator world answer
                     indexed lastTwo 2 _ eq_refl)
              Runs.answer_honoursLimit indexPlain _).
    vm_compute. reflexivity.
Defined.

(** The range from ["a"] to ["b"] of the indexed view, with
    [reduce: false]. *)
Lemma plain_range_answer_witness :
  let scan := IndexAllDocs (idx_name index2)
                (withDocs (@rangeOpts codec rangeAB false 0)) in
  let x := run answer
             (@queryIndexInner host codec evaluator index2 rangeAB) indexed in
  reduceInEffect (idx_reduceFun index2) rangeAB = false
  /\ opt_keys rangeAB = None
  /\ exists totalRows results found,
       fst (answer scan indexed) = inr (totalRows, results)
       /\ value_of x = Success (mkResult (Some totalRows) (Some 0%nat) found)
       /\ List.map columns found = List.map columns results
       /\ List.map op_of (trace_of x) = [scan].
Proof.
  intros scan x.
  split; [reflexivity|]. split; [reflexivity|].
  destruct (fst (answer scan indexed)) as [err | [totalRows results]] eqn:E;
    [vm_compute in E; discriminate|].
  exists totalRows, results.
  destruct (@plain_range_answer host codec evaluator world answer indexed
              index2 rangeAB totalRows results eq_refl eq_refl E)
    as (found & Hv & Hc & Ht).
  exists found. auto.
Defined.

(** A query of the view ["d/v"] with [stale: 'ok']. *)
Lemma stale_ok_does_not_update_witness :
  String.eqb (db_type local) "http" = false
  /\ isStale staleOk "ok" = true
  /\ Forall (fun e => is_update (op_of e) = false)
       (trace_of (run answer
                    (@query host codec evaluator local (@sequential)
                       (Named "d" "v") staleOk) world1)).
Proof.
  do 2 (split; [reflexivity|]).
  exact (@stale_ok_does_not_update host codec evaluator world answer world1
           local (@sequential) "d" "v" staleOk eq_refl eq_refl).
Defined.


(** The index is at [seq] 2 and the feed delivers the changes 1 and 2
    again: the first is passed over, and the update never succeeds. *)
Lemma update_held_back_witness :
  let u := value_of (run replaying
                       (@updateIndexInner host codec evaluator index2
                          (@sequential)) world1) in
  existsb (skipped (idx_seq index2))
    (fst (replaying (SourceChanges (idx_seq index2)) world1)) = true
  /\ ~ In None (u_calls u)
  /\ u_seq u = 2.
Proof.
  intro u.
  split; [reflexivity|].
  exact (@update_held_back host codec evaluator world replaying world1 index2
           (@sequential) eq_refl).
Defined.

(** The update of the fresh index over the two documents of [world1]. *)
Lemma sequential_update_succeeds_witness :
  let feed := fst (answer (SourceChanges (idx_seq index1)) world1) in
  let u := value_of (run answer
                       (@updateIndexInner host codec evaluator index1
                          (@sequential)) world1) in
  Forall (fun c => idx_seq index1 <= ch_seq c) feed
  /\ u_gotError u = None
  /\ u_stuck u = false
  /\ u_calls u = [None]
  /\ u_seq u = 2.
Proof.
  intros feed u.
  assert (Hfeed : Forall (fun c => idx_seq index1 <= ch_seq c) feed).
  { vm_compute. repeat constructor; discriminate. }
  split; [exact Hfeed|].
  do 2 (split; [reflexivity|]).
  exact (@sequential_update_succeeds host codec evaluator world answer world1
           index1 Hfeed eq_refl eq_refl).
Defined.

(** The deletion of ["b"], once the view has been indexed. *)
Lemma deleted_change_tombstones_witness :
  let t := trace_of (run answer
             (@callMapFun host codec evaluator index2 deletion 4) indexed) in
  ch_deleted deletion = true
  /\ emitted t = []
  /\ forall docs, In docs (written t) ->
       exists metaKeys found,
         In (Io (IndexAllDocsKeys (idx_name index2) metaKeys) (inr found)) t
         /\ docs
            = (List.map (fun kv => KvDoc (fst kv) (snd kv) true) (somes found)
               ++ [MetaDoc "_local/doc_b" (uniq metaKeys);
                   LastSeqDoc "_local/lastSeq" 4])%list.
Proof.
  intro t.
  split; [reflexivity|].
  exact (@deleted_change_tombstones host codec evaluator world answer indexed
           index2 deletion 4 eq_refl).
Defined.

(** The batch written for document ["a"] of [world1]. *)
Lemma meta_record_keeps_keys_witness :
  let t := trace_of (run answer
             (@callMapFun host codec evaluator index1
                (changeOf "a" 1 (jnum 1)) 1) world1) in
  In (hd [] (written t)) (written t)
  /\ exists metaKeys found records keys,
       In (Io (IndexAllDocsKeys (idx_name index1) metaKeys) (inr found)) t
       /\ hd [] (written t)
          = (records ++ [MetaDoc "_local/doc_a" keys;
                         LastSeqDoc "_local/lastSeq" 1])%list
       /\ forallb isKvDoc records = true
       /\ NoDup keys
       /\ forall k : string,
            In k keys
            <-> In k metaKeys
                \/ exists n key value,
                     nth_error (List.concat (emitted t)) n = Some (key, value)
                     /\ k = @compositeKey codec key "a" value n.
Proof.
  intro t.
  assert (Hin : In (hd [] (written t)) (written t))
    by (vm_compute; left; reflexivity).
  split; [exact Hin|].
  exact (@meta_record_keeps_keys host codec evaluator world answer world1
           index1 (changeOf "a" 1 (jnum 1)) 1 (hd [] (written t)) Hin).
Defined.

(** The keys ["b"], 2, 1, asked of the indexed view: three scans, for
    1, for 2 and then for ["b"]. *)
Lemma keys_scans_witness :
  opt_keys keysB21 = Some [JStr "b"; jnum 2; jnum 1]
  /\ scans (trace_of (run answer
                        (@queryIndexInner host codec evaluator index2 keysB21)
                        indexed))
     = [@keyScan host codec index2 "1"; @keyScan host codec index2 "2";
        @keyScan host codec index2 "b"].
Proof.
  split; [reflexivity|].
  exact (@keys_scans host codec evaluator world answer indexed index2 keysB21
           (JStr "b") [jnum 2; jnum 1] eq_refl).
Defined.

(** The same keys asked of the view without reduce: the scans are made
    for 1, for 2 and for ["b"], and the answer holds the row of ["b"],
    the first of the keys. *)
Lemma keys_answer_in_key_order_witness :
  let x := run answer
             (@queryIndexInner host codec evaluator indexPlain keysB21)
             indexed in
  let byKey := combine (uniq (List.map (@processKey host codec)
                                [JStr "b"; jnum 2; jnum 1]))
                 (scanAnswers (trace_of x)) in
  reduceInEffect (idx_reduceFun indexPlain) keysB21 = false
  /\ opt_keys keysB21 = Some [JStr "b"; jnum 2; jnum 1]
  /\ forallb answered (scanAnswers (trace_of x)) = true
  /\ List.map (fun a => List.map row_id (rowsOf a)) (scanAnswers (trace_of x))
     = [[]; []; [Some "b"]]
  /\ exists totalRows found,
       value_of x = Success (mkResult (Some totalRows) (Some 0%nat) found)
       /\ List.map columns found
          = List.map columns
              (page (opt_limit keysB21) 0
                 (List.concat
                    (List.map
                       (fun key =>
                          match assoc (@processKey host codec key) byKey with
                          | Some answer => rowsOf answer
                          | None => []
                          end) [JStr "b"; jnum 2; jnum 1]))).
Proof.
  intros x byKey.
  do 4 (split; [reflexivity|]).
  exact (@keys_answer_in_key_order host codec evaluator world answer indexed
           indexPlain keysB21 (JStr "b") [jnum 2; jnum 1] eq_refl eq_refl
           eq_refl).
Defined.

(** Two rows, emitted for ["b"] and for ["a"], under the keys ["a"],
    ["b"], ["a"]. *)
Lemma mapUsingKeys_in_key_order_witness :
  let results := [plainRow "b" 2; plainRow "a" 1] in
  let keys := [JStr "a"; JStr "b"; JStr "a"] in
  Forall (fun r => In (@processKey host codec (row_key r))
                     (List.map (@processKey host codec) keys)) results
  /\ @mapUsingKeys host codec results keys
       (@createKeysLookup host codec keys)
     = [plainRow "a" 1; plainRow "b" 2; plainRow "a" 1].
Proof.
  intros results keys.
  assert (Hkeys : Forall (fun r => In (@processKey host codec (row_key r))
                                     (List.map (@processKey host codec) keys))
                    results).
  { unfold results.
    repeat (apply Forall_cons; [vm_compute; auto|]). apply Forall_nil. }
  split; [exact Hkeys|].
  exact (@mapUsingKeys_in_key_order host codec results keys Hkeys).
Defined.

(** The unreduced temporary view over the documents of the scenarios,
    through both definitions of [viewQuery]. *)
Lemma revisions_agree_unreduced_witness :
  @invertedRange codec rangeAB = false
  /\ reduceInEffect None rangeAB = false
  /\ run answer (@Rev1.viewQuery host codec evaluator mapSrc None rangeAB)
       scenario
     = run answer (@viewQuery host codec evaluator mapSrc None rangeAB)
         scenario.
Proof.
  do 2 (split; [reflexivity|]).
  exact (@revisions_agree_unreduced host codec evaluator world answer scenario
           mapSrc None rangeAB eq_refl eq_refl).
Defined.
End Cases.
